(** * A C-subset execution engine and its conformance fixtures

    The repository holds small C programs (recursion, array and pointer
    traversal, search, arithmetic) that serve as conformance fixtures of a
    C-subset engine: lexer, parser, semantic checker and evaluator.

    This development has three layers.

    - The engine: values, errors, the addressable store, the lexer, the
      parser, the semantic checker and the evaluator.  Its implementation
      is not among the repository's files, so each of its definitions is
      modelled from the specification and says so.
    - The fixtures: the text of each C file, and, function by function, a
      direct transcription of the C code as a Rocq function over the
      engine's primitive operations.
    - The theorems: the engine run on a fixture's text agrees with the
      transcription, and the transcription has the stated properties. *)

From Stdlib Require Import ZArith List String Ascii Bool Lia Arith.
Import ListNotations.
Set Warnings "-register-all".
Local Open Scope Z_scope.
Local Open Scope list_scope.

(* ===================================================================== *)
(** * Results and errors *)
(* ===================================================================== *)

(** A computation of the engine either yields a value or fails with an
    error; there are no partial results. *)
Inductive result (E A : Type) : Type :=
| Ok (a : A)
| Err (e : E).
Arguments Ok {E A} a.
Arguments Err {E A} e.

(** Modelled from the spec: the runtime part of the error taxonomy
    (section 7); the engine's code is not among the repository's files. *)
Inductive RuntimeError : Type :=
| DivisionByZero
| InvalidPointerOp
| OutOfBounds
| NoReturnFromMain
| MissingReturnValue
| StackOverflow
| StepLimitExceeded.

(** The two errors that report an exhausted resource bound rather than a
    property of the program. *)
Definition resource_error (e : RuntimeError) : bool :=
  match e with
  | StackOverflow | StepLimitExceeded => true
  | _ => false
  end.

(* ===================================================================== *)
(** * Values: 32-bit signed integers and bounded pointers *)
(* ===================================================================== *)

(** The engine's value representation is absent from src/; it is modelled
    from section 3 of the specification (Value, Addressable Store). *)

(** Modelled from the spec: "Value: a 32-bit (or platform-int-width)
    signed integer".  The width is 32; an arithmetic result outside the
    range is reduced modulo 2^32 into it (two's complement wrap-around),
    the spec naming no overflow error. *)
Definition int_bits : Z := 32.
Definition int_modulus : Z := 2 ^ int_bits.
Definition INT_MIN : Z := - 2 ^ (int_bits - 1).
Definition INT_MAX : Z := 2 ^ (int_bits - 1) - 1.

Definition in_int_range (z : Z) : Prop := INT_MIN <= z <= INT_MAX.

Definition wrap (z : Z) : Z := (z - INT_MIN) mod int_modulus + INT_MIN.

Definition int_add (a b : Z) : Z := wrap (a + b).
Definition int_sub (a b : Z) : Z := wrap (a - b).
Definition int_mul (a b : Z) : Z := wrap (a * b).
Definition int_neg (a : Z) : Z := wrap (- a).

(** Modelled from the spec: "standard C truncating integer division and
    [%] taking the sign of the dividend; division or modulo by zero =>
    RuntimeError::DivisionByZero".  The spec does not say what
    [INT_MIN / -1] yields, whose quotient 2^31 is no 32-bit value; the
    result is reduced into the range there as every arithmetic result
    is, and no statement about division below rests on that choice. *)
Definition int_div (a b : Z) : result RuntimeError Z :=
  if b =? 0 then Err DivisionByZero else Ok (wrap (Z.quot a b)).

Definition int_mod (a b : Z) : result RuntimeError Z :=
  if b =? 0 then Err DivisionByZero else Ok (wrap (Z.rem a b)).

(** Boolean results: 0 is false, nonzero is true. *)
Definition int_of_bool (b : bool) : Z := if b then 1 else 0.
Definition int_truth (n : Z) : bool := negb (n =? 0).

(** Modelled from the spec: "a pointer value is an index into this store
    plus a bound descriptor (base index, element count)". *)
Record pointer : Type := mkPointer {
  p_index : Z;
  p_base : Z;
  p_count : Z
}.

Inductive value : Type :=
| VInt (n : Z)
| VPtr (p : pointer).

(** Two pointers belong to the same addressable region when their bound
    descriptors agree. *)
Definition same_region (p q : pointer) : bool :=
  (p_base p =? p_base q) && (p_count p =? p_count q).

(** [p + k] and [p - k]: the index advances by [k] elements, the bound
    descriptor is kept.  Forming a pointer never fails, whatever its index. *)
Definition ptr_add (p : pointer) (k : Z) : pointer :=
  mkPointer (int_add (p_index p) k) (p_base p) (p_count p).

Definition ptr_sub (p : pointer) (k : Z) : pointer :=
  mkPointer (int_sub (p_index p) k) (p_base p) (p_count p).

(** The index lies inside [base, base + count). *)
Definition in_bounds (p : pointer) : bool :=
  (p_base p <=? p_index p) && (p_index p <? p_base p + p_count p).

(* ===================================================================== *)
(** * The addressable store *)
(* ===================================================================== *)

(** The engine's store is absent from src/; it is modelled from sections
    3 and 4.4 of the specification. *)

(** Modelled from the spec: "a flat, growable sequence of integer cells
    representing all array storage". *)
Definition store : Type := list Z.

(** Modelled from the spec: "dereferencing or indexing outside the
    [base, base+count) bound of the originating array is
    RuntimeError::OutOfBounds".  A cell that is no longer part of the
    store (its array's activation record is gone) is out of bounds too. *)
Definition load (st : store) (p : pointer) : result RuntimeError Z :=
  if in_bounds p then
    match nth_error st (Z.to_nat (p_index p)) with
    | Some c => Ok c
    | None => Err OutOfBounds
    end
  else Err OutOfBounds.

Fixpoint set_nth {A : Type} (l : list A) (n : nat) (a : A) : list A :=
  match l, n with
  | [], _ => []
  | _ :: t, O => a :: t
  | h :: t, S n' => h :: set_nth t n' a
  end.

Definition store_cell (st : store) (p : pointer) (c : Z)
  : result RuntimeError store :=
  if in_bounds p then
    if (Z.to_nat (p_index p) <? List.length st)%nat
    then Ok (set_nth st (Z.to_nat (p_index p)) c)
    else Err OutOfBounds
  else Err OutOfBounds.

(** A declared array of [n] cells takes a fresh contiguous run at the end
    of the store. *)
Definition alloc (st : store) (n : Z) : pointer * store :=
  let base := Z.of_nat (List.length st) in
  (mkPointer base base n, st ++ repeat 0 (Z.to_nat n)).

(* ===================================================================== *)
(** * Operators *)
(* ===================================================================== *)

(** The engine's operators are absent from src/; they are modelled from
    sections 4.1 and 4.4 of the specification. *)

(** Modelled from the spec: the operators the lexer recognises
    ([+ - * / % == != < > <= >= && || !]; [=] is the [Assign] node). *)
Inductive binop : Type :=
| Add | Sub | Mul | Div | Mod
| Eq | Ne | Lt | Gt | Le | Ge
| And | Or.

Inductive unop : Type :=
| Neg
| Not.

Definition compare (op : binop) : option (Z -> Z -> bool) :=
  match op with
  | Eq => Some Z.eqb
  | Ne => Some (fun a b => negb (a =? b))
  | Lt => Some Z.ltb
  | Gt => Some Z.gtb
  | Le => Some Z.leb
  | Ge => Some Z.geb
  | _ => None
  end.

Definition lift_int (r : result RuntimeError Z) : result RuntimeError value :=
  match r with
  | Ok n => Ok (VInt n)
  | Err e => Err e
  end.

(** Modelled from the spec (section 4.4, arithmetic and pointer
    arithmetic): integers combine with wrap-around; a pointer moves by an
    integer; two pointers are compared or subtracted only inside one
    region, otherwise [InvalidPointerOp]. *)
Definition eval_binop (op : binop) (v1 v2 : value)
  : result RuntimeError value :=
  match v1, v2 with
  | VInt a, VInt b =>
      match op with
      | Add => Ok (VInt (int_add a b))
      | Sub => Ok (VInt (int_sub a b))
      | Mul => Ok (VInt (int_mul a b))
      | Div => lift_int (int_div a b)
      | Mod => lift_int (int_mod a b)
      | And => Ok (VInt (int_of_bool (int_truth a && int_truth b)))
      | Or => Ok (VInt (int_of_bool (int_truth a || int_truth b)))
      | Eq => Ok (VInt (int_of_bool (a =? b)))
      | Ne => Ok (VInt (int_of_bool (negb (a =? b))))
      | Lt => Ok (VInt (int_of_bool (a <? b)))
      | Gt => Ok (VInt (int_of_bool (a >? b)))
      | Le => Ok (VInt (int_of_bool (a <=? b)))
      | Ge => Ok (VInt (int_of_bool (a >=? b)))
      end
  | VPtr p, VInt k =>
      match op with
      | Add => Ok (VPtr (ptr_add p k))
      | Sub => Ok (VPtr (ptr_sub p k))
      | _ => Err InvalidPointerOp
      end
  | VInt k, VPtr p =>
      match op with
      | Add => Ok (VPtr (ptr_add p k))
      | _ => Err InvalidPointerOp
      end
  | VPtr p, VPtr q =>
      match op with
      | Sub =>
          if same_region p q
          then Ok (VInt (int_sub (p_index p) (p_index q)))
          else Err InvalidPointerOp
      | _ =>
          match compare op with
          | Some f =>
              if same_region p q
              then Ok (VInt (int_of_bool (f (p_index p) (p_index q))))
              else Err InvalidPointerOp
          | None => Err InvalidPointerOp
          end
      end
  end.

Definition eval_unop (op : unop) (v : value) : result RuntimeError value :=
  match v with
  | VInt a =>
      match op with
      | Neg => Ok (VInt (int_neg a))
      | Not => Ok (VInt (int_of_bool (a =? 0)))
      end
  | VPtr _ => Err InvalidPointerOp
  end.

(** The truth of a condition: an integer, nonzero meaning true. *)
Definition truth (v : value) : result RuntimeError bool :=
  match v with
  | VInt n => Ok (int_truth n)
  | VPtr _ => Err InvalidPointerOp
  end.

(* ===================================================================== *)
(** * Tokens and the abstract syntax tree *)
(* ===================================================================== *)

(** The engine's token and tree types are absent from src/; they are
    modelled from section 3 of the specification. *)

(** A source position: line and column, both counted from 1. *)
Record pos : Type := mkPos {
  line : nat;
  col : nat
}.

(** Modelled from the spec: "Token: kind (keyword, identifier, integer
    literal, operator, punctuation), lexeme text, source position"; the
    sequence ends with an end marker. *)
Inductive token_kind : Type :=
| TKeyword
| TIdentifier
| TIntLiteral
| TOperator
| TPunctuation
| TEnd.

Record token : Type := mkToken {
  kind : token_kind;
  lexeme : string;
  position : pos
}.

(** Modelled from the spec: "Type: one of int, pointer-to-int,
    array-of-int(size N)". *)
Inductive type : Type :=
| TInt
| TPtr
| TArray (n : Z).

(** Modelled from the spec: "Symbol: name, declared type, scope level,
    storage slot". *)
Record Symbol : Type := mkSymbol {
  sym_name : string;
  sym_type : type;
  sym_level : nat;
  sym_slot : nat
}.

(** Modelled from the spec: the AST's tagged variant.  Every node carries
    its source position.  [I] is what an identifier node holds: its name
    after parsing, its resolved [Symbol] after semantic checking. *)
Inductive expr (I : Type) : Type :=
| IntLiteral (p : pos) (n : Z)
| Identifier (p : pos) (x : I)
| BinaryOp (p : pos) (op : binop) (l r : expr I)
| UnaryOp (p : pos) (op : unop) (e : expr I)
| Deref (p : pos) (e : expr I)
| AddressOf (p : pos) (e : expr I)
| Index (p : pos) (a i : expr I)
| Call (p : pos) (f : string) (args : list (expr I))
| Assign (p : pos) (lhs rhs : expr I).
Arguments IntLiteral {I} p n.
Arguments Identifier {I} p x.
Arguments BinaryOp {I} p op l r.
Arguments UnaryOp {I} p op e.
Arguments Deref {I} p e.
Arguments AddressOf {I} p e.
Arguments Index {I} p a i.
Arguments Call {I} p f args.
Arguments Assign {I} p lhs rhs.

Inductive stmt (I : Type) : Type :=
| VarDecl (p : pos) (x : I) (ty : type)
| Block (p : pos) (body : list (stmt I))
| If (p : pos) (c : expr I) (t : stmt I) (e : option (stmt I))
| While (p : pos) (c : expr I) (b : stmt I)
| For (p : pos) (init c step : option (expr I)) (b : stmt I)
| Return (p : pos) (e : expr I)
| ExprStmt (p : pos) (e : expr I).
Arguments VarDecl {I} p x ty.
Arguments Block {I} p body.
Arguments If {I} p c t e.
Arguments While {I} p c b.
Arguments For {I} p init c step b.
Arguments Return {I} p e.
Arguments ExprStmt {I} p e.

Record ParamDecl (I : Type) : Type := mkParamDecl {
  pd_pos : pos;
  pd_name : I;
  pd_type : type
}.
Arguments mkParamDecl {I} pd_pos pd_name pd_type.
Arguments pd_pos {I} p.
Arguments pd_name {I} p.
Arguments pd_type {I} p.

Record FunctionDecl (I : Type) : Type := mkFunctionDecl {
  fd_pos : pos;
  fd_name : string;
  fd_params : list (ParamDecl I);
  fd_body : list (stmt I)
}.
Arguments mkFunctionDecl {I} fd_pos fd_name fd_params fd_body.
Arguments fd_pos {I} f.
Arguments fd_name {I} f.
Arguments fd_params {I} f.
Arguments fd_body {I} f.

Definition Program (I : Type) : Type := list (FunctionDecl I).

(** The parser's tree names identifiers; the checker's tree resolves them. *)
Definition AST : Type := Program string.
Definition AnnotatedAST : Type := Program Symbol.

(* ===================================================================== *)
(** * Lexer *)
(* ===================================================================== *)

(** The lexer's code is absent from src/; it is modelled from section 4.1
    of the specification. *)

(** Modelled from the spec: "Fails with LexError on an unrecognized
    character, carrying its source position". *)
Record LexError : Type := mkLexError {
  le_char : ascii;
  le_pos : pos
}.

Definition char_in (lo hi : nat) (c : ascii) : bool :=
  (lo <=? nat_of_ascii c)%nat && (nat_of_ascii c <=? hi)%nat.

Definition is_digit (c : ascii) : bool := char_in 48 57 c.
Definition is_letter (c : ascii) : bool :=
  char_in 65 90 c || char_in 97 122 c || Ascii.eqb c "_".
Definition is_word_char (c : ascii) : bool := is_letter c || is_digit c.
Definition is_newline (c : ascii) : bool := Ascii.eqb c "010".
Definition is_space (c : ascii) : bool :=
  Ascii.eqb c " " || char_in 9 13 c.

Definition keywords : list string :=
  ["int"; "if"; "else"; "while"; "for"; "return"; "void"]%string.

Definition two_char_operators : list string :=
  ["=="; "!="; "<="; ">="; "&&"; "||"]%string.

Definition one_char_operators : list ascii :=
  ["+"; "-"; "*"; "/"; "%"; "<"; ">"; "="; "!"]%char.

Definition punctuation : list ascii :=
  ["("; ")"; "{"; "}"; "["; "]"; ";"; ","; "&"]%char.

Definition mem_string (s : string) (l : list string) : bool :=
  existsb (String.eqb s) l.

Definition mem_char (c : ascii) (l : list ascii) : bool :=
  existsb (Ascii.eqb c) l.

Definition advance (p : pos) (n : nat) : pos := mkPos (line p) (col p + n).
Definition next_line (p : pos) : pos := mkPos (S (line p)) 1.

(** The longest prefix whose characters satisfy [f], and the rest. *)
Fixpoint span (f : ascii -> bool) (cs : list ascii)
  : list ascii * list ascii :=
  match cs with
  | c :: rest =>
      if f c then let (w, r) := span f rest in (c :: w, r) else ([], cs)
  | [] => ([], [])
  end.

(** Skips the body of a block comment up to and including its closing
    star-slash; [None] when the comment never closes. *)
Fixpoint skip_block_comment (cs : list ascii) (p : pos)
  : option (list ascii * pos) :=
  match cs with
  | [] => None
  | c :: rest =>
      match rest with
      | d :: rest' =>
          if Ascii.eqb c "*" && Ascii.eqb d "/" then Some (rest', advance p 2)
          else skip_block_comment rest
                 (if is_newline c then next_line p else advance p 1)
      | [] => None
      end
  end.

Definition push_token (t : token) (r : result LexError (list token))
  : result LexError (list token) :=
  match r with
  | Ok ts => Ok (t :: ts)
  | Err e => Err e
  end.

(** [strip_prefix pre cs] is what follows [pre] at the head of [cs]. *)
Fixpoint strip_prefix (pre cs : list ascii) : option (list ascii) :=
  match pre, cs with
  | [], _ => Some cs
  | a :: pre', c :: cs' =>
      if Ascii.eqb a c then strip_prefix pre' cs' else None
  | _ :: _, [] => None
  end.

Definition starts_with (pre : string) (cs : list ascii)
  : option (list ascii) :=
  strip_prefix (list_ascii_of_string pre) cs.

Fixpoint find_operator (ops : list string) (cs : list ascii)
  : option (string * list ascii) :=
  match ops with
  | [] => None
  | op :: ops' =>
      match starts_with op cs with
      | Some rest => Some (op, rest)
      | None => find_operator ops' cs
      end
  end.

(** One token per round; every round consumes at least one character, so
    a fuel of one more than the number of characters is never used up. *)
Fixpoint lex (fuel : nat) (cs : list ascii) (p : pos)
  : result LexError (list token) :=
  match fuel with
  | O => Ok [mkToken TEnd "" p]
  | S fuel' =>
      match cs with
      | [] => Ok [mkToken TEnd "" p]
      | c :: rest =>
          if is_newline c then lex fuel' rest (next_line p)
          else if is_space c then lex fuel' rest (advance p 1)
          else if is_letter c then
            let (w, rest') := span is_word_char cs in
            let s := string_of_list_ascii w in
            push_token
              (mkToken (if mem_string s keywords then TKeyword
                        else TIdentifier) s p)
              (lex fuel' rest' (advance p (List.length w)))
          else if is_digit c then
            let (w, rest') := span is_digit cs in
            push_token (mkToken TIntLiteral (string_of_list_ascii w) p)
              (lex fuel' rest' (advance p (List.length w)))
          else
            match starts_with "//" cs with
            | Some rest' =>
                let (w, rest'') := span (fun x => negb (is_newline x)) rest' in
                lex fuel' rest'' (advance p (2 + List.length w))
            | None =>
            match starts_with "/*" cs with
            | Some rest' =>
                match skip_block_comment rest' (advance p 2) with
                | Some (rest'', p') => lex fuel' rest'' p'
                | None => Err (mkLexError c p)
                end
            | None =>
            match find_operator two_char_operators cs with
            | Some (op, rest') =>
                push_token (mkToken TOperator op p)
                  (lex fuel' rest' (advance p 2))
            | None =>
                if mem_char c one_char_operators then
                  push_token (mkToken TOperator (String c EmptyString) p)
                    (lex fuel' rest (advance p 1))
                else if mem_char c punctuation then
                  push_token (mkToken TPunctuation (String c EmptyString) p)
                    (lex fuel' rest (advance p 1))
                else Err (mkLexError c p)
            end end end
      end
  end.

(** Modelled from the spec: [tokenize(source: text) -> sequence of Token],
    terminated by an end marker. *)
Definition tokenize (source : string) : result LexError (list token) :=
  let cs := list_ascii_of_string source in
  lex (S (List.length cs)) cs (mkPos 1 1).

(* ===================================================================== *)
(** * A state-and-error monad *)
(* ===================================================================== *)

(** Each stage threads a state of its own (the remaining tokens, the
    scope, the activation record and the store) and fails fast on its
    first error. *)
Definition M (S E A : Type) : Type := S -> result E (A * S).

Definition ret {S E A : Type} (a : A) : M S E A := fun s => Ok (a, s).

Definition bind {S E A B : Type} (m : M S E A) (f : A -> M S E B)
  : M S E B :=
  fun s =>
    match m s with
    | Ok (a, s') => f a s'
    | Err e => Err e
    end.

Definition raise {S E A : Type} (e : E) : M S E A := fun _ => Err e.

Definition lift {S E A : Type} (r : result E A) : M S E A :=
  fun s =>
    match r with
    | Ok a => Ok (a, s)
    | Err e => Err e
    end.

Declare Scope monad_scope.
Delimit Scope monad_scope with monad.
Notation "x <- m ;; k" := (bind m (fun x => k))
  (at level 61, m at next level, right associativity) : monad_scope.
Notation "m ;; k" := (bind m (fun _ => k))
  (at level 61, right associativity) : monad_scope.
Local Open Scope monad_scope.

(* ===================================================================== *)
(** * Parser *)
(* ===================================================================== *)

(** The parser's code is absent from src/; it is modelled from section
    4.2 of the specification. *)

(** Modelled from the spec: "Fails with ParseError{expected, found,
    position} on any grammar violation". *)
Record ParseError : Type := mkParseError {
  pe_expected : string;
  pe_found : string;
  pe_position : pos
}.

Definition parser (A : Type) : Type := M (list token) ParseError A.

Definition token_kind_eqb (a b : token_kind) : bool :=
  match a, b with
  | TKeyword, TKeyword | TIdentifier, TIdentifier
  | TIntLiteral, TIntLiteral | TOperator, TOperator
  | TPunctuation, TPunctuation | TEnd, TEnd => true
  | _, _ => false
  end.

Definition end_marker : token := mkToken TEnd "" (mkPos 0 0).
Definition peek (ts : list token) : token := hd end_marker ts.

Definition is_tok (k : token_kind) (lx : string) (t : token) : bool :=
  token_kind_eqb (kind t) k && String.eqb (lexeme t) lx.

Definition next_is (k : token_kind) (lx : string) (ts : list token) : bool :=
  is_tok k lx (peek ts).

Definition fail {A : Type} (expected : string) : parser A :=
  fun ts =>
    Err (mkParseError expected (lexeme (peek ts)) (position (peek ts))).

(** Consumes the next token, returning its position. *)
Definition skip : parser pos :=
  fun ts => Ok (position (peek ts), tl ts).

Definition expect (k : token_kind) (lx : string) : parser pos :=
  fun ts => if next_is k lx ts then skip ts else fail lx ts.

Definition expect_identifier : parser (pos * string) :=
  fun ts =>
    if token_kind_eqb (kind (peek ts)) TIdentifier
    then Ok ((position (peek ts), lexeme (peek ts)), tl ts)
    else fail "identifier" ts.

Fixpoint digits_value (cs : list ascii) (acc : Z) : Z :=
  match cs with
  | [] => acc
  | c :: rest =>
      digits_value rest (10 * acc + Z.of_nat (nat_of_ascii c - 48))
  end.

Definition literal_value (lx : string) : Z :=
  digits_value (list_ascii_of_string lx) 0.

Definition expect_int_literal : parser (pos * Z) :=
  fun ts =>
    if token_kind_eqb (kind (peek ts)) TIntLiteral
    then Ok ((position (peek ts), literal_value (lexeme (peek ts))), tl ts)
    else fail "integer literal" ts.

(** Modelled from the spec: "standard C operator precedence (unary >
    [* / %] > [+ -] > relational > equality > [&&] > [||] > assignment)".
    Level 0 binds weakest. *)
Definition binary_operators : list (nat * string * binop) :=
  [ (0%nat, "||", Or); (1%nat, "&&", And);
    (2%nat, "==", Eq); (2%nat, "!=", Ne);
    (3%nat, "<", Lt); (3%nat, ">", Gt); (3%nat, "<=", Le); (3%nat, ">=", Ge);
    (4%nat, "+", Add); (4%nat, "-", Sub);
    (5%nat, "*", Mul); (5%nat, "/", Div); (5%nat, "%", Mod) ]%string.

Definition binary_levels : nat := 6.

Definition binop_at (level : nat) (t : token) : option binop :=
  match
    find (fun e => Nat.eqb (fst (fst e)) level
                   && is_tok TOperator (snd (fst e)) t) binary_operators
  with
  | Some e => Some (snd e)
  | None => None
  end.

(** An expression that denotes a storage location. *)
Definition is_lvalue {I : Type} (e : expr I) : bool :=
  match e with
  | Identifier _ _ | Index _ _ _ | Deref _ _ => true
  | _ => false
  end.

(** Recursive descent, one function per grammar rule.  The fuel bounds
    the nesting of rule applications. *)
Fixpoint parse_expr (fuel : nat) : parser (expr string) :=
  match fuel with
  | O => fail "expression"
  | S f =>
      lhs <- parse_binary f 0 ;;
      fun ts =>
        if next_is TOperator "=" ts then
          if is_lvalue lhs
          then (p <- skip ;; rhs <- parse_expr f ;; ret (Assign p lhs rhs)) ts
          else fail "lvalue" ts
        else Ok (lhs, ts)
  end
with parse_binary (fuel : nat) (level : nat) : parser (expr string) :=
  match fuel with
  | O => fail "expression"
  | S f =>
      if (binary_levels <=? level)%nat then parse_unary f
      else lhs <- parse_binary f (S level) ;; parse_binary_rest f level lhs
  end
with parse_binary_rest (fuel : nat) (level : nat) (lhs : expr string)
  : parser (expr string) :=
  match fuel with
  | O => fail "expression"
  | S f =>
      fun ts =>
        match binop_at level (peek ts) with
        | Some op =>
            (p <- skip ;;
             rhs <- parse_binary f (S level) ;;
             parse_binary_rest f level (BinaryOp p op lhs rhs)) ts
        | None => Ok (lhs, ts)
        end
  end
with parse_unary (fuel : nat) : parser (expr string) :=
  match fuel with
  | O => fail "expression"
  | S f =>
      fun ts =>
        if next_is TOperator "-" ts
        then (p <- skip ;; e <- parse_unary f ;; ret (UnaryOp p Neg e)) ts
        else if next_is TOperator "!" ts
        then (p <- skip ;; e <- parse_unary f ;; ret (UnaryOp p Not e)) ts
        else if next_is TOperator "*" ts
        then (p <- skip ;; e <- parse_unary f ;; ret (Deref p e)) ts
        else if next_is TPunctuation "&" ts
        then (p <- skip ;; e <- parse_unary f ;; ret (AddressOf p e)) ts
        else (e <- parse_primary f ;; parse_postfix f e) ts
  end
with parse_postfix (fuel : nat) (e : expr string) : parser (expr string) :=
  match fuel with
  | O => fail "expression"
  | S f =>
      fun ts =>
        if next_is TPunctuation "[" ts
        then (p <- skip ;;
              i <- parse_expr f ;;
              expect TPunctuation "]" ;;
              parse_postfix f (Index p e i)) ts
        else Ok (e, ts)
  end
with parse_primary (fuel : nat) : parser (expr string) :=
  match fuel with
  | O => fail "expression"
  | S f =>
      fun ts =>
        match kind (peek ts) with
        | TIntLiteral =>
            (l <- expect_int_literal ;; ret (IntLiteral (fst l) (snd l))) ts
        | TIdentifier =>
            (x <- expect_identifier ;;
             fun ts' =>
               if next_is TPunctuation "(" ts'
               then (skip ;;
                     args <- parse_args f ;;
                     ret (Call (fst x) (snd x) args)) ts'
               else Ok (Identifier (fst x) (snd x), ts')) ts
        | _ =>
            if next_is TPunctuation "(" ts
            then (skip ;;
                  e <- parse_expr f ;;
                  expect TPunctuation ")" ;;
                  ret e) ts
            else fail "expression" ts
        end
  end
with parse_args (fuel : nat) : parser (list (expr string)) :=
  match fuel with
  | O => fail "argument"
  | S f =>
      fun ts =>
        if next_is TPunctuation ")" ts then (skip ;; ret []) ts
        else (e <- parse_expr f ;;
              es <- parse_args_rest f ;;
              ret (e :: es)) ts
  end
with parse_args_rest (fuel : nat) : parser (list (expr string)) :=
  match fuel with
  | O => fail "argument"
  | S f =>
      fun ts =>
        if next_is TPunctuation "," ts
        then (skip ;;
              e <- parse_expr f ;;
              es <- parse_args_rest f ;;
              ret (e :: es)) ts
        else (expect TPunctuation ")" ;; ret []) ts
  end.

Definition parse_optional_expr (fuel : nat) (closing : string)
  : parser (option (expr string)) :=
  fun ts =>
    if next_is TPunctuation closing ts then Ok (None, ts)
    else (e <- parse_expr fuel ;; ret (Some e)) ts.

(** Modelled from the spec: "a local variable is [int name;] or
    [int name[N];] with N a compile-time positive integer literal"; a
    pointer-to-int local is written [int *name;]. *)
Definition parse_declaration : parser (stmt string) :=
  p <- expect TKeyword "int" ;;
  fun ts =>
    if next_is TOperator "*" ts
    then (skip ;;
          x <- expect_identifier ;;
          expect TPunctuation ";" ;;
          ret (VarDecl p (snd x) TPtr)) ts
    else (x <- expect_identifier ;;
          fun ts' =>
            if next_is TPunctuation "[" ts'
            then (skip ;;
                  n <- expect_int_literal ;;
                  expect TPunctuation "]" ;;
                  expect TPunctuation ";" ;;
                  ret (VarDecl p (snd x) (TArray (snd n)))) ts'
            else (expect TPunctuation ";" ;;
                  ret (VarDecl p (snd x) TInt)) ts') ts.

(** Modelled from the spec: "there is no [break]/[continue] in scope;
    treat as unsupported grammar if encountered". *)
Definition unsupported_statements : list string :=
  ["break"; "continue"]%string.

Definition next_is_unsupported (ts : list token) : bool :=
  token_kind_eqb (kind (peek ts)) TIdentifier
  && mem_string (lexeme (peek ts)) unsupported_statements.

Fixpoint parse_stmt (fuel : nat) : parser (stmt string) :=
  match fuel with
  | O => fail "statement"
  | S f =>
      fun ts =>
        if next_is_unsupported ts then fail "statement" ts
        else if next_is TKeyword "int" ts then parse_declaration ts
        else if next_is TPunctuation "{" ts
        then (p <- skip ;; body <- parse_block_items f ;; ret (Block p body)) ts
        else if next_is TKeyword "if" ts
        then (p <- skip ;;
              expect TPunctuation "(" ;;
              c <- parse_expr f ;;
              expect TPunctuation ")" ;;
              t <- parse_stmt f ;;
              fun ts' =>
                if next_is TKeyword "else" ts'
                then (skip ;; e <- parse_stmt f ;; ret (If p c t (Some e))) ts'
                else Ok (If p c t None, ts')) ts
        else if next_is TKeyword "while" ts
        then (p <- skip ;;
              expect TPunctuation "(" ;;
              c <- parse_expr f ;;
              expect TPunctuation ")" ;;
              b <- parse_stmt f ;;
              ret (While p c b)) ts
        else if next_is TKeyword "for" ts
        then (p <- skip ;;
              expect TPunctuation "(" ;;
              init <- parse_optional_expr f ";" ;;
              expect TPunctuation ";" ;;
              c <- parse_optional_expr f ";" ;;
              expect TPunctuation ";" ;;
              step <- parse_optional_expr f ")" ;;
              expect TPunctuation ")" ;;
              b <- parse_stmt f ;;
              ret (For p init c step b)) ts
        else if next_is TKeyword "return" ts
        then (p <- skip ;;
              e <- parse_expr f ;;
              expect TPunctuation ";" ;;
              ret (Return p e)) ts
        else (e <- parse_expr f ;;
              expect TPunctuation ";" ;;
              ret (ExprStmt (position (peek ts)) e)) ts
  end
with parse_block_items (fuel : nat) : parser (list (stmt string)) :=
  match fuel with
  | O => fail "statement"
  | S f =>
      fun ts =>
        if next_is TPunctuation "}" ts then (skip ;; ret []) ts
        else if token_kind_eqb (kind (peek ts)) TEnd then fail "}" ts
        else (s <- parse_stmt f ;;
              rest <- parse_block_items f ;;
              ret (s :: rest)) ts
  end.

(** Modelled from the spec: "a parameter is [int name] or [int name[]]
    (array decays to pointer)"; a pointer-to-int parameter is also written
    [int *name], as the fixture program88.c does. *)
Definition parse_param : parser (ParamDecl string) :=
  expect TKeyword "int" ;;
  fun ts =>
    if next_is TOperator "*" ts
    then (skip ;;
          x <- expect_identifier ;;
          ret (mkParamDecl (fst x) (snd x) TPtr)) ts
    else (x <- expect_identifier ;;
          fun ts' =>
            if next_is TPunctuation "[" ts'
            then (skip ;;
                  expect TPunctuation "]" ;;
                  ret (mkParamDecl (fst x) (snd x) TPtr)) ts'
            else Ok (mkParamDecl (fst x) (snd x) TInt, ts')) ts.

Fixpoint parse_params_rest (fuel : nat) : parser (list (ParamDecl string)) :=
  match fuel with
  | O => fail "parameter"
  | S f =>
      fun ts =>
        if next_is TPunctuation "," ts
        then (skip ;;
              d <- parse_param ;;
              ds <- parse_params_rest f ;;
              ret (d :: ds)) ts
        else (expect TPunctuation ")" ;; ret []) ts
  end.

(** The parameter list after its opening parenthesis: [()], [(void)] or a
    comma-separated list. *)
Definition parse_params (fuel : nat) : parser (list (ParamDecl string)) :=
  fun ts =>
    if next_is TPunctuation ")" ts then (skip ;; ret []) ts
    else if next_is TKeyword "void" ts
    then (skip ;; expect TPunctuation ")" ;; ret []) ts
    else (d <- parse_param ;;
          ds <- parse_params_rest fuel ;;
          ret (d :: ds)) ts.

(** Modelled from the spec: "a function is [int name(params) { block }]". *)
Definition parse_function (fuel : nat) : parser (FunctionDecl string) :=
  p <- expect TKeyword "int" ;;
  x <- expect_identifier ;;
  expect TPunctuation "(" ;;
  params <- parse_params fuel ;;
  expect TPunctuation "{" ;;
  body <- parse_block_items fuel ;;
  ret (mkFunctionDecl p (snd x) params body).

Fixpoint parse_program (fuel : nat) : parser AST :=
  match fuel with
  | O => fail "function"
  | S f =>
      fun ts =>
        if token_kind_eqb (kind (peek ts)) TEnd then Ok ([], ts)
        else (fd <- parse_function f ;;
              rest <- parse_program f ;;
              ret (fd :: rest)) ts
  end.

(** The fuel of the parser: twenty rule applications per token, the
    chain of rules from a statement down to a primary expression being
    shorter than that. *)
Definition parse_fuel (tokens : list token) : nat :=
  20 * S (List.length tokens).

(** Modelled from the spec: [parse(tokens) -> Program AST]. *)
Definition parse (tokens : list token) : result ParseError AST :=
  match parse_program (parse_fuel tokens) tokens with
  | Ok (prog, _) => Ok prog
  | Err e => Err e
  end.

(* ===================================================================== *)
(** * Semantic checker *)
(* ===================================================================== *)

(** The checker's code is absent from src/; it is modelled from section
    4.3 of the specification. *)

(** Modelled from the spec: the [SemanticError] kinds of section 7; each
    is surfaced with its source position. *)
Inductive SemanticErrorKind : Type :=
| UndeclaredIdentifier
| ArityMismatch
| TypeMismatch
| InvalidArraySize
| MissingReturn.

Record SemanticError : Type := mkSemanticError {
  se_kind : SemanticErrorKind;
  se_pos : pos
}.

(** The global function table: each declared function with the types of
    its parameters. *)
Definition function_table : Type := list (string * list type).

(** The scope: the visible symbols, innermost first, and the next free
    storage slot of the function being checked. *)
Record check_state : Type := mkCheckState {
  cs_scope : list Symbol;
  cs_next : nat
}.

Definition checker (A : Type) : Type := M check_state SemanticError A.

Definition sem_error {A : Type} (k : SemanticErrorKind) (p : pos)
  : result SemanticError A :=
  Err (mkSemanticError k p).

Definition lookup_symbol (x : string) (sc : list Symbol) : option Symbol :=
  find (fun s => String.eqb (sym_name s) x) sc.

Definition lookup_function (f : string) (ftab : function_table)
  : option (list type) :=
  match find (fun e => String.eqb (fst e) f) ftab with
  | Some e => Some (snd e)
  | None => None
  end.

(** Arrays decay to pointers when used as values. *)
Definition decay (t : type) : type :=
  match t with
  | TArray _ => TPtr
  | _ => t
  end.

Definition type_eqb (a b : type) : bool :=
  match a, b with
  | TInt, TInt | TPtr, TPtr => true
  | TArray n, TArray m => n =? m
  | _, _ => false
  end.

(** The type of [l op r] from the (decayed) types of its operands. *)
Definition binop_type (op : binop) (tl tr : type) : option type :=
  match tl, tr with
  | TInt, TInt => Some TInt
  | TPtr, TInt =>
      match op with
      | Add | Sub => Some TPtr
      | _ => None
      end
  | TInt, TPtr =>
      match op with
      | Add => Some TPtr
      | _ => None
      end
  | TPtr, TPtr =>
      match op with
      | Sub | Eq | Ne | Lt | Gt | Le | Ge => Some TInt
      | _ => None
      end
  | _, _ => None
  end.

(** Modelled from the spec (section 4.3): identifiers resolve to an
    enclosing declaration, calls match the declared arity, indexing needs
    a pointer or an array, dereference needs a pointer, and the address
    is taken of a stored scalar only (an array element or a pointer's
    target). *)
Fixpoint check_expr (ftab : function_table) (sc : list Symbol)
  (e : expr string) : result SemanticError (expr Symbol * type) :=
  match e with
  | IntLiteral p n => Ok (IntLiteral p n, TInt)
  | Identifier p x =>
      match lookup_symbol x sc with
      | Some s => Ok (Identifier p s, sym_type s)
      | None => sem_error UndeclaredIdentifier p
      end
  | BinaryOp p op l r =>
      match check_expr ftab sc l with
      | Err e => Err e
      | Ok (l', tl) =>
          match check_expr ftab sc r with
          | Err e => Err e
          | Ok (r', tr) =>
              match binop_type op (decay tl) (decay tr) with
              | Some t => Ok (BinaryOp p op l' r', t)
              | None => sem_error TypeMismatch p
              end
          end
      end
  | UnaryOp p op a =>
      match check_expr ftab sc a with
      | Err e => Err e
      | Ok (a', TInt) => Ok (UnaryOp p op a', TInt)
      | Ok _ => sem_error TypeMismatch p
      end
  | Deref p a =>
      match check_expr ftab sc a with
      | Err e => Err e
      | Ok (a', TPtr) => Ok (Deref p a', TInt)
      | Ok _ => sem_error TypeMismatch p
      end
  | AddressOf p a =>
      match a with
      | Index _ _ _ | Deref _ _ =>
          match check_expr ftab sc a with
          | Err e => Err e
          | Ok (a', _) => Ok (AddressOf p a', TPtr)
          end
      | _ => sem_error TypeMismatch p
      end
  | Index p a i =>
      match check_expr ftab sc a with
      | Err e => Err e
      | Ok (a', ta) =>
          match check_expr ftab sc i with
          | Err e => Err e
          | Ok (i', ti) =>
              match decay ta, ti with
              | TPtr, TInt => Ok (Index p a' i', TInt)
              | _, _ => sem_error TypeMismatch p
              end
          end
      end
  | Call p f args =>
      match lookup_function f ftab with
      | None => sem_error UndeclaredIdentifier p
      | Some params =>
          if negb (List.length args =? List.length params)%nat
          then sem_error ArityMismatch p
          else
            (fix check_args (es : list (expr string)) (ts : list type)
                 (acc : list (expr Symbol)) {struct es}
               : result SemanticError (expr Symbol * type) :=
               match es, ts with
               | a :: es', t :: ts' =>
                   match check_expr ftab sc a with
                   | Err e => Err e
                   | Ok (a', ta) =>
                       if type_eqb (decay ta) t
                       then check_args es' ts' (acc ++ [a'])
                       else sem_error TypeMismatch p
                   end
               | _, _ => Ok (Call p f acc, TInt)
               end) args params []
      end
  | Assign p lhs rhs =>
      match check_expr ftab sc lhs with
      | Err e => Err e
      | Ok (lhs', tl) =>
          match check_expr ftab sc rhs with
          | Err e => Err e
          | Ok (rhs', tr) =>
              match tl with
              | TArray _ => sem_error TypeMismatch p
              | _ =>
                  if type_eqb tl (decay tr)
                  then Ok (Assign p lhs' rhs', tl)
                  else sem_error TypeMismatch p
              end
          end
      end
  end.

(** An expression of a given type, as conditions and returned values are. *)
Definition check_typed (ftab : function_table) (t : type)
  (p : pos) (e : expr string) : checker (expr Symbol) :=
  fun st =>
    match check_expr ftab (cs_scope st) e with
    | Err err => Err err
    | Ok (e', te) =>
        if type_eqb (decay te) t then Ok (e', st)
        else sem_error TypeMismatch p
    end.

Definition check_any (ftab : function_table) (e : expr string)
  : checker (expr Symbol) :=
  fun st =>
    match check_expr ftab (cs_scope st) e with
    | Err err => Err err
    | Ok (e', _) => Ok (e', st)
    end.

Definition check_optional (ftab : function_table) (e : option (expr string))
  : checker (option (expr Symbol)) :=
  match e with
  | None => ret None
  | Some a => a' <- check_any ftab a ;; ret (Some a')
  end.

(** Runs [m] in a nested scope: the symbols it declares are forgotten
    afterwards, their slots are not reused. *)
Definition scoped {A : Type} (m : checker A) : checker A :=
  fun st =>
    match m st with
    | Ok (a, st') => Ok (a, mkCheckState (cs_scope st) (cs_next st'))
    | Err e => Err e
    end.

(** Declares [x], giving it the next free slot. *)
Definition declare (x : string) (ty : type) (level : nat) : checker Symbol :=
  fun st =>
    let s := mkSymbol x ty level (cs_next st) in
    Ok (s, mkCheckState (s :: cs_scope st) (S (cs_next st))).

Fixpoint check_stmt (ftab : function_table) (level : nat) (s : stmt string)
  : checker (stmt Symbol) :=
  match s with
  | VarDecl p x ty =>
      match ty with
      | TArray n =>
          if n <=? 0 then fun _ => sem_error InvalidArraySize p
          else sym <- declare x ty level ;; ret (VarDecl p sym ty)
      | _ => sym <- declare x ty level ;; ret (VarDecl p sym ty)
      end
  | Block p body =>
      body' <- scoped
        ((fix check_items (ss : list (stmt string))
            : checker (list (stmt Symbol)) :=
            match ss with
            | [] => ret []
            | s1 :: rest =>
                s1' <- check_stmt ftab (S level) s1 ;;
                rest' <- check_items rest ;;
                ret (s1' :: rest')
            end) body) ;;
      ret (Block p body')
  | If p c t e =>
      c' <- check_typed ftab TInt p c ;;
      t' <- scoped (check_stmt ftab (S level) t) ;;
      e' <- match e with
            | None => ret None
            | Some s2 =>
                s2' <- scoped (check_stmt ftab (S level) s2) ;; ret (Some s2')
            end ;;
      ret (If p c' t' e')
  | While p c b =>
      c' <- check_typed ftab TInt p c ;;
      b' <- scoped (check_stmt ftab (S level) b) ;;
      ret (While p c' b')
  | For p init c step b =>
      init' <- check_optional ftab init ;;
      c' <- match c with
            | None => ret None
            | Some a => a' <- check_typed ftab TInt p a ;; ret (Some a')
            end ;;
      step' <- check_optional ftab step ;;
      b' <- scoped (check_stmt ftab (S level) b) ;;
      ret (For p init' c' step' b')
  | Return p e =>
      e' <- check_typed ftab TInt p e ;; ret (Return p e')
  | ExprStmt p e =>
      e' <- check_any ftab e ;; ret (ExprStmt p e')
  end.

Fixpoint check_items (ftab : function_table) (level : nat)
  (ss : list (stmt string)) : checker (list (stmt Symbol)) :=
  match ss with
  | [] => ret []
  | s :: rest =>
      s' <- check_stmt ftab level s ;;
      rest' <- check_items ftab level rest ;;
      ret (s' :: rest')
  end.

Fixpoint check_params (ds : list (ParamDecl string))
  : checker (list (ParamDecl Symbol)) :=
  match ds with
  | [] => ret []
  | d :: rest =>
      s <- declare (pd_name d) (pd_type d) 1 ;;
      rest' <- check_params rest ;;
      ret (mkParamDecl (pd_pos d) s (pd_type d) :: rest')
  end.

(** Whether a statement holds a [return] anywhere. *)
Fixpoint has_return {I : Type} (s : stmt I) : bool :=
  match s with
  | Return _ _ => true
  | Block _ body => existsb has_return body
  | If _ _ t e =>
      has_return t || match e with Some s2 => has_return s2 | None => false end
  | While _ _ b => has_return b
  | For _ _ _ _ b => has_return b
  | _ => false
  end.

(** Modelled from the spec: "flags a function with zero [return]
    statements as MissingReturn". *)
Definition check_function (ftab : function_table) (fd : FunctionDecl string)
  : result SemanticError (FunctionDecl Symbol) :=
  match
    (params <- check_params (fd_params fd) ;;
     body <- check_items ftab 1 (fd_body fd) ;;
     ret (mkFunctionDecl (fd_pos fd) (fd_name fd) params body))
      (mkCheckState [] 0)
  with
  | Err e => Err e
  | Ok (fd', _) =>
      if existsb has_return (fd_body fd) then Ok fd'
      else sem_error MissingReturn (fd_pos fd)
  end.

(** A function is in the table from its own declaration on, so that it
    may call itself and the functions declared before it. *)
Fixpoint check_functions (ftab : function_table) (fds : AST)
  : result SemanticError AnnotatedAST :=
  match fds with
  | [] => Ok []
  | fd :: rest =>
      let ftab' := ftab ++ [(fd_name fd, map pd_type (fd_params fd))] in
      match check_function ftab' fd with
      | Err e => Err e
      | Ok fd' =>
          match check_functions ftab' rest with
          | Err e => Err e
          | Ok rest' => Ok (fd' :: rest')
          end
      end
  end.

(** Modelled from the spec: [check(AST) -> AnnotatedAST] or
    [SemanticError]. *)
Definition check (prog : AST) : result SemanticError AnnotatedAST :=
  check_functions [] prog.

(* ===================================================================== *)
(** * Evaluator *)
(* ===================================================================== *)

(** The evaluator's code is absent from src/; it is modelled from
    sections 4.4 and 5 of the specification. *)

(** Modelled from the spec: the running call's activation record (its
    slots, parameters first) and the addressable store. *)
Record machine : Type := mkMachine {
  frame : list value;
  mem : store
}.

Definition eval (A : Type) : Type := M machine RuntimeError A.

Definition read_slot (n : nat) : eval value :=
  fun m => Ok (nth n (frame m) (VInt 0), m).

Definition write_slot (n : nat) (v : value) : eval unit :=
  fun m => Ok (tt, mkMachine (set_nth (frame m) n v) (mem m)).

(** Reads the cell a pointer designates, bounds checked. *)
Definition load_cell (v : value) : eval value :=
  fun m =>
    match v with
    | VPtr p =>
        match load (mem m) p with
        | Ok c => Ok (VInt c, m)
        | Err e => Err e
        end
    | VInt _ => Err InvalidPointerOp
    end.

(** Commits an integer to the cell a pointer designates: one store. *)
Definition write_cell (target v : value) : eval unit :=
  fun m =>
    match target, v with
    | VPtr p, VInt c =>
        match store_cell (mem m) p c with
        | Ok st' => Ok (tt, mkMachine (frame m) st')
        | Err e => Err e
        end
    | _, _ => Err InvalidPointerOp
    end.

(** A declared array owns a fresh run of cells; its slot holds the
    pointer to the first. *)
Definition declare_array (slot : nat) (n : Z) : eval unit :=
  fun m =>
    let (p, st') := alloc (mem m) n in
    Ok (tt, mkMachine (set_nth (frame m) slot (VPtr p)) st').

(** Modelled from the spec: the storage location an lvalue denotes, a
    "variable slot, array element, or pointer target"; the last two are
    cells of the store, designated by a pointer. *)
Inductive lvalue : Type :=
| LSlot (n : nat)
| LCell (target : value).

Definition write_lvalue (l : lvalue) (v : value) : eval unit :=
  match l with
  | LSlot n => write_slot n v
  | LCell target => write_cell target v
  end.

(** How a statement ends: it falls through, or a [return] was executed. *)
Inductive outcome : Type :=
| Normal
| Returned (v : value).

(** Modelled from the spec: "[while]/[for] re-evaluate the condition
    before every iteration, zero/false => loop exit".  [n] bounds the
    number of condition evaluations of one loop; running past it is
    [StepLimitExceeded]. *)
Fixpoint loop {S : Type} (n : nat) (cond : M S RuntimeError bool)
  (body : M S RuntimeError outcome) (step : M S RuntimeError unit)
  : M S RuntimeError outcome :=
  match n with
  | O => raise StepLimitExceeded
  | S n' =>
      t <- cond ;;
      if t then
        o <- body ;;
        match o with
        | Normal => step ;; loop n' cond body step
        | Returned _ => ret o
        end
      else ret Normal
  end.

(** What a call yields: the value of the first executed [return], if
    any, and the store. *)
Definition call_result : Type := result RuntimeError (option value * store).

Section Evaluator.

(** The step limit of each loop, and the callee: how a call of a named
    function with given arguments runs from a given store. *)
Variable steps : nat.
Variable call : string -> list value -> store -> call_result.

Definition do_call (f : string) (args : list value) : eval (option value) :=
  fun m =>
    match call f args (mem m) with
    | Ok (r, st') => Ok (r, mkMachine (frame m) st')
    | Err e => Err e
    end.

(** Modelled from the spec (section 4.4): expressions evaluate left to
    right; an assignment evaluates its right-hand side first, then
    commits to the lvalue; a call whose result is consumed must have
    executed a [return]. *)
Fixpoint eval_expr (e : expr Symbol) : eval value :=
  match e with
  | IntLiteral _ n => ret (VInt (wrap n))
  | Identifier _ s => read_slot (sym_slot s)
  | BinaryOp _ op l r =>
      match op with
      | And =>
          vl <- eval_expr l ;;
          bl <- lift (truth vl) ;;
          if bl then
            vr <- eval_expr r ;;
            br <- lift (truth vr) ;;
            ret (VInt (int_of_bool br))
          else ret (VInt 0)
      | Or =>
          vl <- eval_expr l ;;
          bl <- lift (truth vl) ;;
          if bl then ret (VInt 1)
          else
            vr <- eval_expr r ;;
            br <- lift (truth vr) ;;
            ret (VInt (int_of_bool br))
      | _ =>
          vl <- eval_expr l ;;
          vr <- eval_expr r ;;
          lift (eval_binop op vl vr)
      end
  | UnaryOp _ op a => v <- eval_expr a ;; lift (eval_unop op v)
  | Deref _ a => v <- eval_expr a ;; load_cell v
  | AddressOf _ a =>
      l <- eval_lvalue a ;;
      match l with
      | LCell target => ret target
      | LSlot _ => raise InvalidPointerOp
      end
  | Index _ a i =>
      va <- eval_expr a ;;
      vi <- eval_expr i ;;
      target <- lift (eval_binop Add va vi) ;;
      load_cell target
  | Call _ f args =>
      vs <- (fix eval_list (es : list (expr Symbol)) : eval (list value) :=
               match es with
               | [] => ret []
               | a :: rest =>
                   v <- eval_expr a ;;
                   vs <- eval_list rest ;;
                   ret (v :: vs)
               end) args ;;
      r <- do_call f vs ;;
      match r with
      | Some v => ret v
      | None => raise MissingReturnValue
      end
  | Assign _ lhs rhs =>
      v <- eval_expr rhs ;;
      l <- eval_lvalue lhs ;;
      write_lvalue l v ;;
      ret v
  end
with eval_lvalue (e : expr Symbol) : eval lvalue :=
  match e with
  | Identifier _ s => ret (LSlot (sym_slot s))
  | Index _ a i =>
      va <- eval_expr a ;;
      vi <- eval_expr i ;;
      target <- lift (eval_binop Add va vi) ;;
      ret (LCell target)
  | Deref _ a => target <- eval_expr a ;; ret (LCell target)
  | _ => raise InvalidPointerOp
  end.

Fixpoint eval_args (es : list (expr Symbol)) : eval (list value) :=
  match es with
  | [] => ret []
  | a :: rest =>
      v <- eval_expr a ;;
      vs <- eval_args rest ;;
      ret (v :: vs)
  end.

(** Modelled from the spec: in a value-discarding context a call that
    executed no [return] is accepted. *)
Definition eval_discard (e : expr Symbol) : eval unit :=
  match e with
  | Call _ f args => vs <- eval_args args ;; do_call f vs ;; ret tt
  | _ => eval_expr e ;; ret tt
  end.

Definition eval_discard_optional (e : option (expr Symbol)) : eval unit :=
  match e with
  | Some a => eval_discard a
  | None => ret tt
  end.

Definition eval_condition (c : expr Symbol) : eval bool :=
  v <- eval_expr c ;; lift (truth v).

(** Modelled from the spec (section 4.4): [if] executes the taken branch
    only; the first executed [return] ends the enclosing statements. *)
Fixpoint exec_stmt (s : stmt Symbol) : eval outcome :=
  match s with
  | VarDecl _ sym ty =>
      match ty with
      | TArray n => declare_array (sym_slot sym) n ;; ret Normal
      | _ => write_slot (sym_slot sym) (VInt 0) ;; ret Normal
      end
  | Block _ body =>
      (fix exec_list (ss : list (stmt Symbol)) : eval outcome :=
         match ss with
         | [] => ret Normal
         | s1 :: rest =>
             o <- exec_stmt s1 ;;
             match o with
             | Normal => exec_list rest
             | Returned _ => ret o
             end
         end) body
  | If _ c t e =>
      b <- eval_condition c ;;
      if b then exec_stmt t
      else match e with
           | Some s2 => exec_stmt s2
           | None => ret Normal
           end
  | While _ c b => loop steps (eval_condition c) (exec_stmt b) (ret tt)
  | For _ init c step b =>
      eval_discard_optional init ;;
      loop steps
        (match c with
         | Some a => eval_condition a
         | None => ret true
         end)
        (exec_stmt b)
        (eval_discard_optional step)
  | Return _ e => v <- eval_expr e ;; ret (Returned v)
  | ExprStmt _ e => eval_discard e ;; ret Normal
  end.

Fixpoint exec_items (ss : list (stmt Symbol)) : eval outcome :=
  match ss with
  | [] => ret Normal
  | s :: rest =>
      o <- exec_stmt s ;;
      match o with
      | Normal => exec_items rest
      | Returned _ => ret o
      end
  end.

End Evaluator.

(** The slots a function's activation record holds: one per parameter
    and one per declaration of its body. *)
Fixpoint count_decls {I : Type} (s : stmt I) : nat :=
  match s with
  | VarDecl _ _ _ => 1
  | Block _ body => fold_right (fun s1 n => count_decls s1 + n)%nat 0%nat body
  | If _ _ t e =>
      (count_decls t + match e with Some s2 => count_decls s2 | None => 0 end)%nat
  | While _ _ b => count_decls b
  | For _ _ _ _ b => count_decls b
  | _ => 0%nat
  end.

Definition frame_size {I : Type} (fd : FunctionDecl I) : nat :=
  (List.length (fd_params fd)
   + fold_right (fun s n => count_decls s + n) 0 (fd_body fd))%nat.

Definition find_function {I : Type} (f : string) (prog : Program I)
  : option (FunctionDecl I) :=
  find (fun fd => String.eqb (fd_name fd) f) prog.

(** Modelled from the spec: a new activation record per call, the
    parameters bound by value in the first slots. *)
Definition new_frame (fd : FunctionDecl Symbol) (args : list value)
  : list value :=
  args ++ repeat (VInt 0) (frame_size fd - List.length args).

(** Modelled from the spec (section 4.4, function call; section 5,
    recursion depth).  [depth] is the capacity of the activation-record
    stack: a call made when no record is left is [StackOverflow].  The
    callee's arrays leave the store when it returns. *)
Fixpoint call_function (prog : AnnotatedAST) (steps depth : nat)
  (f : string) (args : list value) (st : store) : call_result :=
  match depth with
  | O => Err StackOverflow
  | S d =>
      match find_function f prog with
      | None => Ok (None, st)
      | Some fd =>
          match
            exec_items steps (call_function prog steps d) (fd_body fd)
              (mkMachine (new_frame fd args) st)
          with
          | Err e => Err e
          | Ok (Returned v, m) => Ok (Some v, firstn (List.length st) (mem m))
          | Ok (Normal, m) => Ok (None, firstn (List.length st) (mem m))
          end
      end
  end.

(** Modelled from the spec: "its return value (sign-extended/truncated
    to the platform's exit-code width) is the program result"; the
    exit-code width is the width of [int]. *)
Definition exit_code (v : value) : Z :=
  match v with
  | VInt n => wrap n
  | VPtr p => wrap (p_index p)
  end.

(** Modelled from the spec (section 5): the resource bounds of one run,
    the capacity of the host's activation-record stack and the step limit
    a caller imposes.  A run of this model is always under some bounds;
    larger bounds change no run that completed (see [run_refines]). *)
Record limits : Type := mkLimits {
  max_depth : nat;
  max_steps : nat
}.

(** Modelled from the spec: [run(AnnotatedAST) -> int exitCode] or
    [RuntimeError]: [main] is invoked with zero arguments on an empty
    store. *)
Definition run (lim : limits) (prog : AnnotatedAST) : result RuntimeError Z :=
  match call_function prog (max_steps lim) (max_depth lim) "main" [] [] with
  | Err e => Err e
  | Ok (Some v, _) => Ok (exit_code v)
  | Ok (None, _) => Err NoReturnFromMain
  end.

(* ===================================================================== *)
(** * The pipeline *)
(* ===================================================================== *)

(** The code that chains the stages is absent from src/; it is modelled
    from sections 2, 6 and 7 of the specification. *)

(** Modelled from the spec: the output is "an integer program result, or
    a structured error"; each stage fails fast and later stages never run
    on a malformed artifact. *)
Inductive Error : Type :=
| ELex (e : LexError)
| EParse (e : ParseError)
| ESemantic (e : SemanticError)
| ERuntime (e : RuntimeError).

Definition front_end (src : string) : result Error AnnotatedAST :=
  match tokenize src with
  | Err e => Err (ELex e)
  | Ok tokens =>
      match parse tokens with
      | Err e => Err (EParse e)
      | Ok ast =>
          match check ast with
          | Err e => Err (ESemantic e)
          | Ok prog => Ok prog
          end
      end
  end.

(** [run(check(parse(tokenize(src))))]. *)
Definition execute (lim : limits) (src : string) : result Error Z :=
  match front_end src with
  | Err e => Err e
  | Ok prog =>
      match run lim prog with
      | Ok n => Ok n
      | Err e => Err (ERuntime e)
      end
  end.

(* ===================================================================== *)
(** * The fixtures *)
(* ===================================================================== *)

(** The text of each fixture file, character for character. *)
Module Source.
Local Open Scope string_scope.

(** src/examples/valid/program36.c *)
Definition program36 : string :=
"int power(int base, int exp) {
    if (exp == 0) {
        return 1;
    }
    return base * power(base, exp - 1);
}

int main(void) {
    return power(2, 4);
}


".

(** src/examples/valid/program61.c *)
Definition program61 : string :=
"int linear_search(int arr[], int n, int key) {
    int i;
    for (i = 0; i < n; i = i + 1) {
        if (arr[i] == key) {
            return i;
        }
    }
    return -1;
}

int main(void) {
    int arr[5];
    arr[0] = 10;
    arr[1] = 20;
    arr[2] = 30;
    arr[3] = 40;
    arr[4] = 50;
    return linear_search(arr, 5, 30);
}


".

(** src/examples/valid/program62.c *)
Definition program62 : string :=
"int binary_search_recursive(int arr[], int left, int right, int key) {
    int mid;
    if (left > right) {
        return -1;
    }
    mid = (left + right) / 2;
    if (arr[mid] == key) {
        return mid;
    }
    if (arr[mid] > key) {
        return binary_search_recursive(arr, left, mid - 1, key);
    }
    return binary_search_recursive(arr, mid + 1, right, key);
}

int main() {
    int arr[5];
    arr[0] = 1;
    arr[1] = 3;
    arr[2] = 5;
    arr[3] = 7;
    arr[4] = 9;
    return binary_search_recursive(arr, 0, 4, 5);
}


".

(** src/examples/valid/program63.c *)
Definition program63 : string :=
"int sum_recursive(int arr[], int n) {
    if (n <= 0) {
        return 0;
    }
    return arr[n - 1] + sum_recursive(arr, n - 1);
}

int main(void) {
    int arr[4];
    arr[0] = 1;
    arr[1] = 2;
    arr[2] = 3;
    arr[3] = 4;
    return sum_recursive(arr, 4);
}


".

(** src/examples/valid/program67.c *)
Definition program67 : string :=
"int reverse_number(int n) {
    int reversed;
    reversed = 0;
    while (n != 0) {
        reversed = reversed * 10 + n % 10;
        n = n / 10;
    }
    return reversed;
}

int main() {
    return reverse_number(123);
}


".

(** src/examples/valid/program68.c *)
Definition program68 : string :=
"int is_prime(int n) {
    int i;
    if (n <= 1) {
        return 0;
    }
    for (i = 2; i < n; i = i + 1) {
        if (n % i == 0) {
            return 0;
        }
    }
    return 1;
}

int main(void) {
    return is_prime(17);
}


".

(** src/examples/valid/program88.c *)
Definition program88 : string :=
"int sum(int *start, int *end) {
    int total;
    total = 0;
    while (start < end) {
        total = total + *start;
        start = start + 1;
    }
    return total;
}

int main(void) {
    int numbers[3];
    numbers[0] = 2;
    numbers[1] = 4;
    numbers[2] = 6;
    return sum(numbers, numbers + 3);
}

".

End Source.

(** The checked tree of each fixture, computed by the front end from its
    text. *)
Definition checked (src : string) : AnnotatedAST :=
  match front_end src with
  | Ok prog => prog
  | Err _ => []
  end.

Module Checked.
Definition program36 : AnnotatedAST := Eval vm_compute in checked Source.program36.
Definition program61 : AnnotatedAST := Eval vm_compute in checked Source.program61.
Definition program62 : AnnotatedAST := Eval vm_compute in checked Source.program62.
Definition program63 : AnnotatedAST := Eval vm_compute in checked Source.program63.
Definition program67 : AnnotatedAST := Eval vm_compute in checked Source.program67.
Definition program68 : AnnotatedAST := Eval vm_compute in checked Source.program68.
Definition program88 : AnnotatedAST := Eval vm_compute in checked Source.program88.
End Checked.

(* ===================================================================== *)
(** * The fixtures' functions, transcribed *)
(* ===================================================================== *)

(** Each C function becomes a Rocq function over the engine's primitive
    operations.  A call takes one record of the activation-record stack
    ([depth]); a loop is a recursion on its step limit ([steps]); array
    parameters are pointers into the store [st], which the functions read
    and never write. *)

Notation "x <-- r ;; k" :=
  (match r with Ok x => k | Err e => Err e end)
  (at level 61, r at next level, right associativity, only parsing).

(** src/examples/valid/program36.c *)
Module Program36.

Fixpoint power (depth : nat) (base exp : Z) : result RuntimeError Z :=
  match depth with
  | O => Err StackOverflow
  | S d =>
      if exp =? 0 then Ok 1
      else
        r <-- power d base (int_sub exp 1) ;;
        Ok (int_mul base r)
  end.

Definition main (depth : nat) : result RuntimeError Z :=
  match depth with
  | O => Err StackOverflow
  | S d => power d 2 4
  end.

End Program36.

(** src/examples/valid/program67.c *)
Module Program67.

(** The [while] loop of [reverse_number], on the locals [n] and
    [reversed]. *)
Fixpoint reverse_number_loop (steps : nat) (n reversed : Z)
  : result RuntimeError Z :=
  match steps with
  | O => Err StepLimitExceeded
  | S k =>
      if negb (n =? 0) then
        d <-- int_mod n 10 ;;
        q <-- int_div n 10 ;;
        reverse_number_loop k q (int_add (int_mul reversed 10) d)
      else Ok reversed
  end.

Definition reverse_number (steps depth : nat) (n : Z)
  : result RuntimeError Z :=
  match depth with
  | O => Err StackOverflow
  | S _ => reverse_number_loop steps n 0
  end.

Definition main (steps depth : nat) : result RuntimeError Z :=
  match depth with
  | O => Err StackOverflow
  | S d => reverse_number steps d 123
  end.

End Program67.

(** src/examples/valid/program68.c *)
Module Program68.

(** The [for] loop of [is_prime], on the local [i]. *)
Fixpoint is_prime_loop (steps : nat) (n i : Z) : result RuntimeError Z :=
  match steps with
  | O => Err StepLimitExceeded
  | S k =>
      if i <? n then
        r <-- int_mod n i ;;
        if r =? 0 then Ok 0
        else is_prime_loop k n (int_add i 1)
      else Ok 1
  end.

Definition is_prime (steps depth : nat) (n : Z) : result RuntimeError Z :=
  match depth with
  | O => Err StackOverflow
  | S _ => if n <=? 1 then Ok 0 else is_prime_loop steps n 2
  end.

Definition main (steps depth : nat) : result RuntimeError Z :=
  match depth with
  | O => Err StackOverflow
  | S d => is_prime steps d 17
  end.

End Program68.

(** The array initialisations of the [main] functions: [arr[i] = c]. *)
Definition assign_index (st : store) (arr : pointer) (i c : Z)
  : result RuntimeError store :=
  store_cell st (ptr_add arr i) c.

(** src/examples/valid/program61.c *)
Module Program61.

(** The [for] loop of [linear_search], on the local [i]. *)
Fixpoint linear_search_loop (steps : nat) (st : store) (arr : pointer)
  (n key i : Z) : result RuntimeError Z :=
  match steps with
  | O => Err StepLimitExceeded
  | S k =>
      if i <? n then
        a <-- load st (ptr_add arr i) ;;
        if a =? key then Ok i
        else linear_search_loop k st arr n key (int_add i 1)
      else Ok (-1)
  end.

Definition linear_search (steps depth : nat) (st : store) (arr : pointer)
  (n key : Z) : result RuntimeError Z :=
  match depth with
  | O => Err StackOverflow
  | S _ => linear_search_loop steps st arr n key 0
  end.

Definition main (steps depth : nat) : result RuntimeError Z :=
  match depth with
  | O => Err StackOverflow
  | S d =>
      let (arr, st) := alloc [] 5 in
      st <-- assign_index st arr 0 10 ;;
      st <-- assign_index st arr 1 20 ;;
      st <-- assign_index st arr 2 30 ;;
      st <-- assign_index st arr 3 40 ;;
      st <-- assign_index st arr 4 50 ;;
      linear_search steps d st arr 5 30
  end.

End Program61.

(** src/examples/valid/program62.c *)
Module Program62.

Fixpoint binary_search_recursive (depth : nat) (st : store) (arr : pointer)
  (left right key : Z) : result RuntimeError Z :=
  match depth with
  | O => Err StackOverflow
  | S d =>
      if left >? right then Ok (-1)
      else
        mid <-- int_div (int_add left right) 2 ;;
        a <-- load st (ptr_add arr mid) ;;
        if a =? key then Ok mid
        else
          a' <-- load st (ptr_add arr mid) ;;
          if a' >? key
          then binary_search_recursive d st arr left (int_sub mid 1) key
          else binary_search_recursive d st arr (int_add mid 1) right key
  end.

Definition main (depth : nat) : result RuntimeError Z :=
  match depth with
  | O => Err StackOverflow
  | S d =>
      let (arr, st) := alloc [] 5 in
      st <-- assign_index st arr 0 1 ;;
      st <-- assign_index st arr 1 3 ;;
      st <-- assign_index st arr 2 5 ;;
      st <-- assign_index st arr 3 7 ;;
      st <-- assign_index st arr 4 9 ;;
      binary_search_recursive d st arr 0 4 5
  end.

End Program62.

(** src/examples/valid/program63.c *)
Module Program63.

Fixpoint sum_recursive (depth : nat) (st : store) (arr : pointer) (n : Z)
  : result RuntimeError Z :=
  match depth with
  | O => Err StackOverflow
  | S d =>
      if n <=? 0 then Ok 0
      else
        a <-- load st (ptr_add arr (int_sub n 1)) ;;
        r <-- sum_recursive d st arr (int_sub n 1) ;;
        Ok (int_add a r)
  end.

Definition main (depth : nat) : result RuntimeError Z :=
  match depth with
  | O => Err StackOverflow
  | S d =>
      let (arr, st) := alloc [] 4 in
      st <-- assign_index st arr 0 1 ;;
      st <-- assign_index st arr 1 2 ;;
      st <-- assign_index st arr 2 3 ;;
      st <-- assign_index st arr 3 4 ;;
      sum_recursive d st arr 4
  end.

End Program63.

(** [p < q] on pointers: defined inside one region only. *)
Definition ptr_lt (p q : pointer) : result RuntimeError bool :=
  if same_region p q then Ok (p_index p <? p_index q)
  else Err InvalidPointerOp.

(** src/examples/valid/program88.c *)
Module Program88.

(** The [while] loop of [sum], on the locals [start] and [total]; the
    parameter [end] is written [end_]. *)
Fixpoint sum_loop (steps : nat) (st : store) (start end_ : pointer)
  (total : Z) : result RuntimeError Z :=
  match steps with
  | O => Err StepLimitExceeded
  | S k =>
      c <-- ptr_lt start end_ ;;
      if c then
        a <-- load st start ;;
        sum_loop k st (ptr_add start 1) end_ (int_add total a)
      else Ok total
  end.

Definition sum (steps depth : nat) (st : store) (start end_ : pointer)
  : result RuntimeError Z :=
  match depth with
  | O => Err StackOverflow
  | S _ => sum_loop steps st start end_ 0
  end.

Definition main (steps depth : nat) : result RuntimeError Z :=
  match depth with
  | O => Err StackOverflow
  | S d =>
      let (numbers, st) := alloc [] 3 in
      st <-- assign_index st numbers 0 2 ;;
      st <-- assign_index st numbers 1 4 ;;
      st <-- assign_index st numbers 2 6 ;;
      sum steps d st numbers (ptr_add numbers 3)
  end.

End Program88.

(** The iterative equivalent of [sum_recursive], following the
    specification's words: a left-to-right summation of [arr[0..n-1]],
    written as the loop
    [total = 0; for (i = 0; i < n; i = i + 1) total = total + arr[i];]. *)
Fixpoint sum_iterative_loop (steps : nat) (st : store) (arr : pointer)
  (n i total : Z) : result RuntimeError Z :=
  match steps with
  | O => Err StepLimitExceeded
  | S k =>
      if i <? n then
        a <-- load st (ptr_add arr i) ;;
        sum_iterative_loop k st arr n (int_add i 1) (int_add total a)
      else Ok total
  end.

Definition sum_iterative (steps : nat) (st : store) (arr : pointer) (n : Z)
  : result RuntimeError Z :=
  sum_iterative_loop steps st arr n 0 0.

(** The same summation over the array's contents as a list. *)
Definition sum_left_to_right (xs : list Z) (n : Z) : Z :=
  fold_left int_add (firstn (Z.to_nat n) xs) 0.

(* ===================================================================== *)
(** * Notions used by the statements *)
(* ===================================================================== *)

(** A run that stopped on a resource bound. *)
Definition exhausted {E A : Type} (is_resource : E -> bool) (r : result E A)
  : Prop :=
  match r with
  | Err e => is_resource e = true
  | Ok _ => False
  end.

(** [r1] is what a run under smaller bounds gave and [r2] what a run
    under larger bounds gives: the same, unless the first ran out. *)
Definition refines {A : Type} (r1 r2 : result RuntimeError A) : Prop :=
  r1 = r2 \/ exhausted resource_error r1.

Definition pipeline_resource_error (e : Error) : bool :=
  match e with
  | ERuntime e' => resource_error e'
  | _ => false
  end.

(** [lim2] allows at least what [lim1] allows. *)
Definition limits_le (lim1 lim2 : limits) : Prop :=
  (max_depth lim1 <= max_depth lim2)%nat /\
  (max_steps lim1 <= max_steps lim2)%nat.

(** The result of a call that returns the integer a transcribed function
    computes and leaves the store as it found it. *)
Definition returning (r : result RuntimeError Z) (st : store) : call_result :=
  match r with
  | Ok n => Ok (Some (VInt n), st)
  | Err e => Err e
  end.

(** The program result of a transcribed [main]. *)
Definition exit_of (r : result RuntimeError Z) : result Error Z :=
  match r with
  | Ok n => Ok (wrap n)
  | Err e => Err (ERuntime e)
  end.

(** The cells [xs] laid out in the store from index [base] on. *)
Definition array_at (st : store) (base : Z) (xs : list Z) : Prop :=
  0 <= base /\
  forall i : nat, (i < List.length xs)%nat ->
    nth_error st (Z.to_nat base + i) = nth_error xs i.

(** The pointer to the first cell of an array of [count] cells. *)
Definition array_pointer (base count : Z) : pointer :=
  mkPointer base base count.

(** The number of decrements after which [exp] reaches zero in 32-bit
    arithmetic: [exp] itself when it is not negative, and otherwise
    [exp + 2^32], the decrement wrapping around from [INT_MIN] to
    [INT_MAX]. *)
Definition effective_exponent (exp : Z) : Z :=
  if exp <? 0 then exp + int_modulus else exp.

(** The index of a pointer lies outside its array. *)
Definition outside (p : pointer) : Prop :=
  p_index p < p_base p \/ p_base p + p_count p <= p_index p.

(** A prime number: greater than 1 and with no divisor strictly between
    1 and itself. *)
Definition prime_number (n : Z) : Prop :=
  1 < n /\ forall d, 1 < d < n -> ~ Z.divide d n.

(** The decimal digits of a positive number, least significant first,
    and the number a digit sequence denotes, most significant first: the
    decimal reversal of [n] reads the digits of [n] backwards. *)
Fixpoint decimal_digits (fuel : nat) (n : Z) : list Z :=
  match fuel with
  | O => []
  | S f => if n <=? 0 then [] else (n mod 10) :: decimal_digits f (n / 10)
  end.

Definition of_decimal_digits (ds : list Z) : Z :=
  fold_left (fun acc d => 10 * acc + d) ds 0.

Definition decimal_reversal (n : Z) : Z :=
  of_decimal_digits (decimal_digits (Z.to_nat n) n).

(** An array of 1431655766 cells, all zero, as [int a[1431655766];]
    declares it on an empty store, and the pointer [a + 715827883] into
    its middle. *)
Definition huge_count : Z := 1431655766.
Definition huge_store : store := repeat 0 (Z.to_nat huge_count).
Definition huge_middle : pointer := mkPointer 715827883 0 huge_count.

(** The index of the first cell equal to [key], counting from [i]; -1
    when there is none. *)
Fixpoint first_index (xs : list Z) (key i : Z) : Z :=
  match xs with
  | [] => -1
  | x :: rest => if x =? key then i else first_index rest key (i + 1)
  end.

(** An array in non-decreasing order. *)
Definition sorted (xs : list Z) : Prop :=
  forall i j : nat, (i <= j < List.length xs)%nat -> nth i xs 0 <= nth j xs 0.

(** The pointer to cell [i] of the array at [base]. *)
Definition cell_pointer (base count : Z) (i : Z) : pointer :=
  mkPointer (base + i) base count.

(** Reading decimal digits, most significant first, after an accumulated
    prefix. *)
Definition append_digits (ds : list Z) (acc : Z) : Z :=
  fold_left (fun a d => 10 * a + d) ds acc.

(** An array in strictly increasing order. *)
Definition increasing (xs : list Z) : Prop :=
  forall i j : nat, (i < j < List.length xs)%nat -> nth i xs 0 < nth j xs 0.

(** The left-to-right 32-bit sum of the cells [i] to [j - 1]. *)
Definition sum_between (xs : list Z) (i j : Z) : Z :=
  fold_left int_add (firstn (Z.to_nat (j - i)) (skipn (Z.to_nat i) xs)) 0.

(** The result of a call, with its value negated. *)
Definition negated (r : result RuntimeError Z) : result RuntimeError Z :=
  match r with
  | Ok x => Ok (int_neg x)
  | Err e => Err e
  end.

(** The number a digit sequence denotes, least significant first. *)
Definition of_digits_lsb (ds : list Z) : Z :=
  fold_right (fun d acc => 10 * acc + d) 0 ds.

(** One callee allows at least what the other allows. *)
Definition call_refines
  (c1 c2 : string -> list value -> store -> call_result) : Prop :=
  forall f args st, refines (c1 f args st) (c2 f args st).

Arguments wrap : simpl never.
Arguments int_add : simpl never.
Arguments int_sub : simpl never.
Arguments int_mul : simpl never.
Arguments int_neg : simpl never.
Arguments int_div : simpl never.
Arguments int_mod : simpl never.
Arguments load : simpl never.
Arguments store_cell : simpl never.

(* ===================================================================== *)
(** * Proof automation *)
(* ===================================================================== *)

(** Unfolds the evaluator on a concrete syntax tree. *)
Ltac eval_step :=
  repeat (progress (cbn; unfold bind, ret, lift, raise, read_slot, write_slot,
    write_lvalue, eval_condition, do_call, load_cell, write_cell,
    declare_array, eval_discard_optional, eval_discard; cbn)).

(** Integer literals are 32-bit values already. *)
Ltac literals :=
  repeat match goal with
  | |- context [wrap 0] => change (wrap 0) with 0
  | |- context [wrap (Zpos ?p)] => change (wrap (Zpos p)) with (Zpos p)
  end.

(** Unfolds a call of the evaluator down to the statements of the body. *)
Ltac enter_call :=
  cbn [call_function find_function find fd_name fd_body String.eqb Ascii.eqb
       Bool.eqb exec_items exec_stmt new_frame frame_size fd_params
       List.length count_decls fold_right Nat.add Nat.sub repeat app].



(** Closes a branch that ends in a [return]. *)
Ltac finish_call := try rewrite firstn_all; reflexivity.

(** Steps through the array initialisations of a [main]. *)
Ltac initialise :=
  repeat match goal with
  | |- context [store_cell ?s ?p ?c] =>
      destruct (store_cell s p c) as [?st|?e]; eval_step; [|reflexivity]
  end.


(* ===================================================================== *)
(** * Arithmetic of 32-bit values *)
(* ===================================================================== *)

Lemma int_modulus_value : int_modulus = 4294967296.
Proof. reflexivity. Qed.
Lemma INT_MIN_value : INT_MIN = -2147483648.
Proof. reflexivity. Qed.
Lemma INT_MAX_value : INT_MAX = 2147483647.
Proof. reflexivity. Qed.

Lemma wrap_range z : in_int_range (wrap z).
Proof.
  unfold in_int_range, wrap. rewrite INT_MIN_value, INT_MAX_value, int_modulus_value.
  pose proof (Z.mod_pos_bound (z - -2147483648) 4294967296). lia.
Qed.

Lemma wrap_small z : in_int_range z -> wrap z = z.
Proof.
  unfold in_int_range, wrap. rewrite INT_MIN_value, INT_MAX_value, int_modulus_value.
  intros H. rewrite Z.mod_small; lia.
Qed.

Lemma wrap_spec z : exists k, wrap z = z + k * int_modulus.
Proof.
  unfold wrap. exists (- ((z - INT_MIN) / int_modulus)).
  rewrite Z.mod_eq by (rewrite int_modulus_value; lia). lia.
Qed.

Lemma wrap_congr a b : (a - b) mod int_modulus = 0 -> wrap a = wrap b.
Proof.
  intros H. unfold wrap. f_equal.
  replace (a - INT_MIN) with ((b - INT_MIN) + (a - b)) by lia.
  rewrite <- Zplus_mod_idemp_r. rewrite H. rewrite Z.add_0_r. reflexivity.
Qed.

Lemma wrap_shift z k : wrap (z + k * int_modulus) = wrap z.
Proof.
  apply wrap_congr. replace (z + k * int_modulus - z) with (k * int_modulus) by lia.
  apply Z_mod_mult.
Qed.

Lemma wrap_add_l a b : wrap (wrap a + b) = wrap (a + b).
Proof.
  destruct (wrap_spec a) as [k ->].
  replace (a + k * int_modulus + b) with (a + b + k * int_modulus) by lia.
  apply wrap_shift.
Qed.

Lemma wrap_mul_r a b : wrap (a * wrap b) = wrap (a * b).
Proof.
  destruct (wrap_spec b) as [k ->].
  replace (a * (b + k * int_modulus)) with (a * b + (a * k) * int_modulus) by lia.
  apply wrap_shift.
Qed.

Lemma wrap_multiple k : wrap (k * int_modulus) = 0.
Proof.
  replace (k * int_modulus) with (0 + k * int_modulus) by lia.
  rewrite wrap_shift. reflexivity.
Qed.

Lemma int_add_comm a b : int_add a b = int_add b a.
Proof. unfold int_add. f_equal. lia. Qed.

Lemma int_add_small a b : in_int_range (a + b) -> int_add a b = a + b.
Proof. apply wrap_small. Qed.

Lemma int_sub_small a b : in_int_range (a - b) -> int_sub a b = a - b.
Proof. apply wrap_small. Qed.

Lemma int_truth_of_bool b : int_truth (int_of_bool b) = b.
Proof. destruct b; reflexivity. Qed.

Lemma rem_in_range a b : in_int_range b -> b <> 0 -> in_int_range (Z.rem a b).
Proof.
  unfold in_int_range. rewrite INT_MIN_value, INT_MAX_value. intros Hb Hz.
  pose proof (Z.rem_bound_abs a b Hz). lia.
Qed.

Lemma quot_abs_le a b : b <> 0 -> Z.abs (Z.quot a b) <= Z.abs a.
Proof.
  intros Hz. rewrite <- Z.quot_abs by assumption.
  apply Z.quot_le_upper_bound; [lia|].
  assert (1 <= Z.abs b) by lia. nia.
Qed.

(** The truncated quotient of two 32-bit values is a 32-bit value, but
    for [INT_MIN / -1]. *)
Lemma quot_in_range a b :
  in_int_range a -> b <> 0 -> ~ (a = INT_MIN /\ b = -1) ->
  in_int_range (Z.quot a b).
Proof.
  unfold in_int_range. rewrite INT_MIN_value, INT_MAX_value. intros Ha Hz Hne.
  pose proof (quot_abs_le a b Hz) as Hq.
  destruct (Z.eq_dec a (-2147483648)) as [->|Ha'].
  - destruct (Z.eq_dec b 1) as [->|Hb1]; [rewrite Z.quot_1_r; lia|].
    destruct (Z.eq_dec b (-1)) as [->|Hb2]; [tauto|].
    assert (2 <= Z.abs b) by lia.
    pose proof (Z.quot_rem' (-2147483648) b) as Hqr.
    pose proof (Z.rem_bound_abs (-2147483648) b Hz).
    pose proof (Z.rem_nonpos (-2147483648) b Hz ltac:(lia)).
    nia.
  - lia.
Qed.

(* ===================================================================== *)
(** * Pointers, bounds and the store *)
(* ===================================================================== *)

Lemma in_bounds_true p :
  in_bounds p = true <-> p_base p <= p_index p < p_base p + p_count p.
Proof. unfold in_bounds. rewrite andb_true_iff, Z.leb_le, Z.ltb_lt. tauto. Qed.

Lemma in_bounds_false p : in_bounds p = false <-> outside p.
Proof.
  unfold in_bounds, outside. rewrite andb_false_iff, Z.leb_gt, Z.ltb_ge. tauto.
Qed.

Lemma load_outside st p : outside p -> load st p = Err OutOfBounds.
Proof.
  intros H. apply in_bounds_false in H. unfold load. rewrite H. reflexivity.
Qed.

Lemma store_cell_outside st p c :
  outside p -> store_cell st p c = Err OutOfBounds.
Proof.
  intros H. apply in_bounds_false in H. unfold store_cell. rewrite H.
  reflexivity.
Qed.

(** A read fails in one way only. *)
Lemma load_error st p e : load st p = Err e -> e = OutOfBounds.
Proof.
  unfold load. destruct (in_bounds p); [|congruence].
  destruct (nth_error st (Z.to_nat (p_index p))); congruence.
Qed.

Lemma same_region_ptr_add p k : same_region p (ptr_add p k) = true.
Proof. unfold same_region, ptr_add. cbn. rewrite !Z.eqb_refl. reflexivity. Qed.

(** One past the end of an array of [N] cells is outside it. *)
Lemma one_past_the_end_outside base N :
  0 <= base <= INT_MAX -> 0 < N <= INT_MAX ->
  outside (ptr_add (array_pointer base N) N).
Proof.
  rewrite INT_MAX_value. intros Hb HN.
  unfold outside, ptr_add, array_pointer, int_add, wrap.
  cbn [p_index p_base p_count].
  rewrite INT_MIN_value, int_modulus_value.
  destruct (Z_le_gt_dec (base + N) 2147483647).
  - rewrite Z.mod_small by lia. lia.
  - left.
    replace (base + N - -2147483648)
      with ((base + N - 2147483648) + 1 * 4294967296) by lia.
    rewrite Z_mod_plus_full. rewrite Z.mod_small by lia. lia.
Qed.

(** Reading cell [k] of an array laid out in the store. *)
Lemma load_array st base xs (k : nat) :
  array_at st base xs ->
  base + Z.of_nat (List.length xs) <= INT_MAX ->
  (k < List.length xs)%nat ->
  load st (ptr_add (array_pointer base (Z.of_nat (List.length xs))) (Z.of_nat k))
  = Ok (nth k xs 0).
Proof.
  intros [Hb Hxs] Hmax Hk. unfold load, ptr_add, array_pointer.
  cbn [p_index p_base p_count].
  rewrite int_add_small
    by (unfold in_int_range; rewrite INT_MIN_value; lia).
  assert (in_bounds (mkPointer (base + Z.of_nat k) base
                       (Z.of_nat (List.length xs))) = true) as ->
    by (apply in_bounds_true; cbn; lia).
  cbn [p_index].
  replace (Z.to_nat (base + Z.of_nat k)) with (Z.to_nat base + k)%nat by lia.
  rewrite Hxs by assumption.
  rewrite (nth_error_nth' xs 0 Hk). reflexivity.
Qed.

Lemma load_repeat_zero n i :
  0 <= i < n -> load (repeat 0 (Z.to_nat n)) (mkPointer i 0 n) = Ok 0.
Proof.
  intros Hi. unfold load.
  assert (in_bounds (mkPointer i 0 n) = true) as ->
    by (apply in_bounds_true; cbn [p_index p_base p_count]; lia).
  cbn [p_index]. rewrite nth_error_repeat by lia. reflexivity.
Qed.

Lemma load_huge_store i :
  0 <= i < huge_count -> load huge_store (mkPointer i 0 huge_count) = Ok 0.
Proof. apply load_repeat_zero. Qed.

(* ===================================================================== *)
(** * Larger resource bounds preserve every completed run *)
(* ===================================================================== *)

(** A run that ends without exhausting its bounds ends the same way
    under any larger bounds.  The proof follows the evaluator: by
    induction on the stack capacity for calls, on the syntax for
    expressions and statements, and on the step limit for loops. *)

Lemma refines_refl {A} (r : result RuntimeError A) : refines r r.
Proof. left. reflexivity. Qed.

Lemma refines_exhausted {A} e (r : result RuntimeError A) :
  resource_error e = true -> refines (Err e) r.
Proof. intros H. right. exact H. Qed.

Lemma refines_bind {S A B} (m1 m2 : M S RuntimeError A)
  (f1 f2 : A -> M S RuntimeError B) (s : S) :
  refines (m1 s) (m2 s) ->
  (forall a s', refines (f1 a s') (f2 a s')) ->
  refines (bind m1 f1 s) (bind m2 f2 s).
Proof.
  intros Hm Hf. unfold bind. destruct Hm as [<- | Hx].
  - destruct (m1 s) as [[a s']|e]; [apply Hf | apply refines_refl].
  - destruct (m1 s) as [[a s']|e]; [contradiction | right; exact Hx].
Qed.

Lemma refines_bind_same {S A B} (m : M S RuntimeError A)
  (f1 f2 : A -> M S RuntimeError B) (s : S) :
  (forall a s', refines (f1 a s') (f2 a s')) ->
  refines (bind m f1 s) (bind m f2 s).
Proof. intros. apply refines_bind; [apply refines_refl | assumption]. Qed.

(** One step of a proof that two monadic computations are related. *)
Ltac refines_step :=
  first
    [ apply refines_refl
    | apply refines_bind; [ solve [auto using refines_refl] | intros ]
    ].

Section ExprInd.
Variable I : Type.
Variable P : expr I -> Prop.
Hypothesis H_lit : forall p n, P (IntLiteral p n).
Hypothesis H_id : forall p x, P (Identifier p x).
Hypothesis H_bin : forall p op l r, P l -> P r -> P (BinaryOp p op l r).
Hypothesis H_un : forall p op e, P e -> P (UnaryOp p op e).
Hypothesis H_deref : forall p e, P e -> P (Deref p e).
Hypothesis H_addr : forall p e, P e -> P (AddressOf p e).
Hypothesis H_index : forall p a i, P a -> P i -> P (Index p a i).
Hypothesis H_call : forall p f args, Forall P args -> P (Call p f args).
Hypothesis H_assign : forall p l r, P l -> P r -> P (Assign p l r).

Lemma expr_nested_ind : forall e, P e.
Proof.
  fix IH 1. intros [p n|p x|p op l r|p op e|p e|p e|p a i|p f args|p l r].
  - apply H_lit.
  - apply H_id.
  - apply H_bin; apply IH.
  - apply H_un; apply IH.
  - apply H_deref; apply IH.
  - apply H_addr; apply IH.
  - apply H_index; apply IH.
  - apply H_call. induction args as [|a args IHargs]; constructor; [apply IH | exact IHargs].
  - apply H_assign; apply IH.
Qed.
End ExprInd.

Lemma do_call_refines c1 c2 f vs m :
  call_refines c1 c2 -> refines (do_call c1 f vs m) (do_call c2 f vs m).
Proof.
  intros H. unfold do_call. destruct (H f vs (mem m)) as [<- | Hx].
  - apply refines_refl.
  - right. destruct (c1 f vs (mem m)) as [[r st']|e]; [contradiction | exact Hx].
Qed.


Lemma eval_expr_lvalue_refines c1 c2 :
  call_refines c1 c2 ->
  forall e,
    (forall m, refines (eval_expr c1 e m) (eval_expr c2 e m)) /\
    (forall m, refines (eval_lvalue c1 e m) (eval_lvalue c2 e m)).
Proof.
  intros Hc. induction e using expr_nested_ind;
    repeat match goal with H : _ /\ _ |- _ => destruct H end;
    split; intros m; cbn [eval_expr eval_lvalue];
    try solve [repeat refines_step].
  - destruct op; repeat refines_step;
      try (destruct a0; repeat refines_step).
  - apply refines_bind.
    + revert m. induction H as [|a args [Ha _] _ IHargs]; intros m.
      * apply refines_refl.
      * repeat refines_step.
    + intros vs m'. apply refines_bind; [apply do_call_refines; exact Hc | intros].
      apply refines_refl.
Qed.

Lemma eval_expr_refines c1 c2 e m :
  call_refines c1 c2 -> refines (eval_expr c1 e m) (eval_expr c2 e m).
Proof. intros Hc. apply (eval_expr_lvalue_refines c1 c2 Hc e). Qed.

Lemma eval_args_refines c1 c2 es m :
  call_refines c1 c2 -> refines (eval_args c1 es m) (eval_args c2 es m).
Proof.
  intros Hc. revert m. induction es as [|a es IH]; intros m; cbn [eval_args].
  - apply refines_refl.
  - apply refines_bind; [apply eval_expr_refines; exact Hc | intros].
    repeat refines_step.
Qed.

Lemma eval_discard_refines c1 c2 e m :
  call_refines c1 c2 -> refines (eval_discard c1 e m) (eval_discard c2 e m).
Proof.
  intros Hc. unfold eval_discard.
  destruct e;
    try (apply refines_bind; [apply eval_expr_refines; exact Hc | intros; apply refines_refl]).
  apply refines_bind; [apply eval_args_refines; exact Hc | intros].
  apply refines_bind; [apply do_call_refines; exact Hc | intros; apply refines_refl].
Qed.

Lemma eval_discard_optional_refines c1 c2 e m :
  call_refines c1 c2 ->
  refines (eval_discard_optional c1 e m) (eval_discard_optional c2 e m).
Proof.
  intros Hc. destruct e; cbn; [apply eval_discard_refines; exact Hc | apply refines_refl].
Qed.

Lemma eval_condition_refines c1 c2 e m :
  call_refines c1 c2 ->
  refines (eval_condition c1 e m) (eval_condition c2 e m).
Proof.
  intros Hc. unfold eval_condition.
  apply refines_bind; [apply eval_expr_refines; exact Hc | intros; apply refines_refl].
Qed.

Lemma loop_refines {S} n1 n2 (c1 c2 : M S RuntimeError bool)
  (b1 b2 : M S RuntimeError outcome) (s1 s2 : M S RuntimeError unit) :
  (n1 <= n2)%nat ->
  (forall s, refines (c1 s) (c2 s)) ->
  (forall s, refines (b1 s) (b2 s)) ->
  (forall s, refines (s1 s) (s2 s)) ->
  forall s, refines (loop n1 c1 b1 s1 s) (loop n2 c2 b2 s2 s).
Proof.
  intros Hn Hc Hb Hs. revert n2 Hn.
  induction n1 as [|k IH]; intros n2 Hn s.
  - apply refines_exhausted. reflexivity.
  - destruct n2 as [|k2]; [lia|]. cbn [loop].
    apply refines_bind; [apply Hc | intros t s'].
    destruct t; [|apply refines_refl].
    apply refines_bind; [apply Hb | intros o s''].
    destruct o; [|apply refines_refl].
    apply refines_bind; [apply Hs | intros _ s3].
    apply IH. lia.
Qed.

Section StmtInd.
Variable I : Type.
Variable P : stmt I -> Prop.
Hypothesis H_decl : forall p x ty, P (VarDecl p x ty).
Hypothesis H_block : forall p body, Forall P body -> P (Block p body).
Hypothesis H_if : forall p c t, P t -> P (If p c t None).
Hypothesis H_if_else : forall p c t e, P t -> P e -> P (If p c t (Some e)).
Hypothesis H_while : forall p c b, P b -> P (While p c b).
Hypothesis H_for : forall p i c s b, P b -> P (For p i c s b).
Hypothesis H_return : forall p e, P (Return p e).
Hypothesis H_expr : forall p e, P (ExprStmt p e).

Lemma stmt_nested_ind : forall s, P s.
Proof.
  fix IH 1. intros [p x ty|p body|p c t [e|]|p c b|p i c s b|p e|p e].
  - apply H_decl.
  - apply H_block. induction body as [|s body IHbody]; constructor; [apply IH | exact IHbody].
  - apply H_if_else; apply IH.
  - apply H_if; apply IH.
  - apply H_while; apply IH.
  - apply H_for; apply IH.
  - apply H_return.
  - apply H_expr.
Qed.
End StmtInd.

Lemma exec_stmt_refines n1 n2 c1 c2 :
  (n1 <= n2)%nat -> call_refines c1 c2 ->
  forall s m, refines (exec_stmt n1 c1 s m) (exec_stmt n2 c2 s m).
Proof.
  intros Hn Hc. induction s using stmt_nested_ind; intros m; cbn [exec_stmt].
  - apply refines_refl.
  - revert m. induction H as [|s body Hs _ IHbody]; intros m.
    + apply refines_refl.
    + apply refines_bind; [apply Hs | intros o m'].
      destruct o; [apply IHbody | apply refines_refl].
  - apply refines_bind; [apply eval_condition_refines; exact Hc | intros b m'].
    destruct b; [apply IHs | apply refines_refl].
  - apply refines_bind; [apply eval_condition_refines; exact Hc | intros b m'].
    destruct b; [apply IHs1 | apply IHs2].
  - apply loop_refines; auto using refines_refl.
    intros; apply eval_condition_refines; exact Hc.
  - apply refines_bind; [apply eval_discard_optional_refines; exact Hc | intros _ m'].
    apply loop_refines; auto.
    + intros; destruct c; [apply eval_condition_refines; exact Hc | apply refines_refl].
    + intros; apply eval_discard_optional_refines; exact Hc.
  - apply refines_bind; [apply eval_expr_refines; exact Hc | intros; apply refines_refl].
  - apply refines_bind; [apply eval_discard_refines; exact Hc | intros; apply refines_refl].
Qed.

Lemma exec_items_refines n1 n2 c1 c2 ss m :
  (n1 <= n2)%nat -> call_refines c1 c2 ->
  refines (exec_items n1 c1 ss m) (exec_items n2 c2 ss m).
Proof.
  intros Hn Hc. revert m. induction ss as [|s ss IH]; intros m; cbn [exec_items].
  - apply refines_refl.
  - apply refines_bind; [apply exec_stmt_refines; assumption | intros o m'].
    destruct o; [apply IH | apply refines_refl].
Qed.

Lemma call_function_refines prog n1 n2 d1 d2 :
  (n1 <= n2)%nat -> (d1 <= d2)%nat ->
  call_refines (call_function prog n1 d1) (call_function prog n2 d2).
Proof.
  intros Hn. revert d2. induction d1 as [|d IH]; intros d2 Hd f args st.
  - apply refines_exhausted. reflexivity.
  - destruct d2 as [|d2]; [lia|]. cbn [call_function].
    destruct (find_function f prog) as [fd|]; [|apply refines_refl].
    destruct (exec_items_refines n1 n2 (call_function prog n1 d) (call_function prog n2 d2)
                (fd_body fd) (mkMachine (new_frame fd args) st) Hn) as [<- | Hx].
    + apply IH. lia.
    + apply refines_refl.
    + right.
      destruct (exec_items n1 (call_function prog n1 d) (fd_body fd) _) as [[o m']|e];
        [contradiction | exact Hx].
Qed.

Lemma run_refines lim1 lim2 prog :
  limits_le lim1 lim2 -> refines (run lim1 prog) (run lim2 prog).
Proof.
  intros [Hd Hs]. unfold run.
  destruct (call_function_refines prog _ _ _ _ Hs Hd "main"%string [] []) as [<- | Hx].
  - apply refines_refl.
  - right.
    destruct (call_function prog (max_steps lim1) (max_depth lim1) "main" [] []) as [[o m']|e];
      [contradiction | exact Hx].
Qed.

(** The same holds of the whole pipeline: the front end takes no resource
    bound. *)
Lemma execute_refines lim1 lim2 src :
  limits_le lim1 lim2 ->
  execute lim1 src = execute lim2 src \/
  exhausted pipeline_resource_error (execute lim1 src).
Proof.
  intros Hle. unfold execute.
  destruct (front_end src) as [prog|e]; [|left; reflexivity].
  destruct (run_refines lim1 lim2 prog Hle) as [<- | Hx]; [left; reflexivity|].
  right. destruct (run lim1 prog) as [n|e]; [contradiction | exact Hx].
Qed.

(* ===================================================================== *)
(** * The engine runs each fixture as its transcription *)
(* ===================================================================== *)

(** For each function of a fixture, a call through the evaluator on the
    checked tree of the file's text equals the transcribed function, for
    every argument, store and resource bound; for each file, the whole
    pipeline equals the transcribed [main]. *)

Lemma front_end_program36 : front_end Source.program36 = Ok Checked.program36.
Proof. vm_compute. reflexivity. Qed.

Lemma power_agrees steps depth base exp st :
  call_function Checked.program36 steps depth "power" [VInt base; VInt exp] st
  = returning (Program36.power depth base exp) st.
Proof.
  revert base exp st. induction depth as [|d IH]; intros base exp st.
  - reflexivity.
  - eval_step. literals.
    destruct (exp =? 0) eqn:E; eval_step.
    + rewrite firstn_all. reflexivity.
    + rewrite IH.
      destruct (Program36.power d base (int_sub exp 1)) as [r|e]; eval_step.
      * rewrite firstn_all. reflexivity.
      * reflexivity.
Qed.

Lemma execute_program36 lim :
  execute lim Source.program36 = exit_of (Program36.main (max_depth lim)).
Proof.
  unfold execute. rewrite front_end_program36. unfold run.
  destruct (max_depth lim) as [|d]; [reflexivity|].
  eval_step. literals. rewrite power_agrees.
  unfold Program36.main.
  destruct (Program36.power d 2 4) as [r|e]; reflexivity.
Qed.

Lemma front_end_program67 : front_end Source.program67 = Ok Checked.program67.
Proof. vm_compute. reflexivity. Qed.



Lemma front_end_program68 : front_end Source.program68 = Ok Checked.program68.
Proof. vm_compute. reflexivity. Qed.

Lemma is_prime_agrees steps depth n st :
  call_function Checked.program68 steps depth "is_prime" [VInt n] st
  = returning (Program68.is_prime steps depth n) st.
Proof.
  destruct depth as [|d]; [reflexivity|].
  unfold Checked.program68. enter_call.
  unfold Program68.is_prime.
  eval_step. literals.
  destruct (n <=? 1) eqn:E; eval_step; [finish_call|].
  match goal with
  | |- ?L = _ =>
      match L with
      | context G [loop steps ?C ?B ?S _] =>
          assert (Hloop : forall k i,
            ltac:(let t := context G [loop k C B S
                      {| frame := [VInt n; VInt i]; mem := st |}] in exact t)
            = returning (Program68.is_prime_loop k n i) st)
      end
  end.
  - induction k as [|k IH]; intros i; [reflexivity|].
    cbn [loop Program68.is_prime_loop]. eval_step.
    rewrite int_truth_of_bool. destruct (i <? n); eval_step; [|finish_call].
    destruct (int_mod n i) as [r|e]; eval_step; [|reflexivity].
    rewrite int_truth_of_bool. destruct (r =? 0); eval_step; [finish_call|].
    apply IH.
  - apply Hloop.
Qed.

Lemma execute_program68 lim :
  execute lim Source.program68
  = exit_of (Program68.main (max_steps lim) (max_depth lim)).
Proof.
  unfold execute. rewrite front_end_program68. unfold run.
  destruct (max_depth lim) as [|d]; [reflexivity|].
  unfold Checked.program68 at 1. enter_call. eval_step. literals.
  fold Checked.program68.
  rewrite is_prime_agrees.
  unfold Program68.main.
  destruct (Program68.is_prime (max_steps lim) d 17) as [r|e]; reflexivity.
Qed.

Lemma reverse_number_agrees steps depth n st :
  call_function Checked.program67 steps depth "reverse_number" [VInt n] st
  = returning (Program67.reverse_number steps depth n) st.
Proof.
  destruct depth as [|d]; [reflexivity|].
  unfold Checked.program67. enter_call.
  unfold Program67.reverse_number.
  eval_step. literals.
  match goal with
  | |- ?L = _ =>
      match L with
      | context G [loop steps ?C ?B ?S _] =>
          assert (Hloop : forall k m reversed,
            ltac:(let t := context G [loop k C B S
                      {| frame := [VInt m; VInt reversed]; mem := st |}] in exact t)
            = returning (Program67.reverse_number_loop k m reversed) st)
      end
  end.
  - induction k as [|k IH]; intros m reversed; [reflexivity|].
    cbn [loop Program67.reverse_number_loop]. eval_step.
    rewrite int_truth_of_bool. destruct (negb (m =? 0)); eval_step; [|finish_call].
    destruct (int_mod m 10) as [r|e]; eval_step; [|reflexivity].
    destruct (int_div m 10) as [q|e]; eval_step; [|reflexivity].
    apply IH.
  - apply Hloop.
Qed.

Lemma execute_program67 lim :
  execute lim Source.program67
  = exit_of (Program67.main (max_steps lim) (max_depth lim)).
Proof.
  unfold execute. rewrite front_end_program67. unfold run.
  destruct (max_depth lim) as [|d]; [reflexivity|].
  unfold Checked.program67 at 1. enter_call. eval_step. literals.
  fold Checked.program67.
  rewrite reverse_number_agrees.
  unfold Program67.main.
  destruct (Program67.reverse_number (max_steps lim) d 123) as [r|e]; reflexivity.
Qed.

Lemma front_end_program61 : front_end Source.program61 = Ok Checked.program61.
Proof. vm_compute. reflexivity. Qed.

Lemma linear_search_agrees steps depth arr n key st :
  call_function Checked.program61 steps depth "linear_search"
    [VPtr arr; VInt n; VInt key] st
  = returning (Program61.linear_search steps depth st arr n key) st.
Proof.
  destruct depth as [|d]; [reflexivity|].
  unfold Checked.program61. enter_call.
  unfold Program61.linear_search.
  eval_step. literals.
  match goal with
  | |- ?L = _ =>
      match L with
      | context G [loop steps ?C ?B ?S _] =>
          assert (Hloop : forall k i,
            ltac:(let t := context G [loop k C B S
                      {| frame := [VPtr arr; VInt n; VInt key; VInt i];
                         mem := st |}] in exact t)
            = returning (Program61.linear_search_loop k st arr n key i) st)
      end
  end.
  - induction k as [|k IH]; intros i; [reflexivity|].
    cbn [loop Program61.linear_search_loop]. eval_step.
    rewrite int_truth_of_bool. destruct (i <? n); eval_step; [|finish_call].
    destruct (load st (ptr_add arr i)) as [a|e]; eval_step; [|reflexivity].
    rewrite int_truth_of_bool. destruct (a =? key); eval_step; [finish_call|].
    apply IH.
  - apply Hloop.
Qed.


Lemma execute_program61 lim :
  execute lim Source.program61
  = exit_of (Program61.main (max_steps lim) (max_depth lim)).
Proof.
  unfold execute. rewrite front_end_program61. unfold run.
  destruct (max_depth lim) as [|d]; [reflexivity|].
  unfold Checked.program61 at 1. enter_call.
  unfold Program61.main, assign_index. eval_step. literals.
  fold Checked.program61. initialise.
  rewrite linear_search_agrees.
  match goal with
  | |- context [Program61.linear_search ?a ?b ?c ?d ?e ?f] =>
      destruct (Program61.linear_search a b c d e f)
  end; reflexivity.
Qed.

Lemma front_end_program62 : front_end Source.program62 = Ok Checked.program62.
Proof. vm_compute. reflexivity. Qed.

Lemma binary_search_recursive_agrees steps depth arr left right key st :
  call_function Checked.program62 steps depth "binary_search_recursive"
    [VPtr arr; VInt left; VInt right; VInt key] st
  = returning (Program62.binary_search_recursive depth st arr left right key) st.
Proof.
  revert left right. induction depth as [|d IH]; intros left right; [reflexivity|].
  unfold Checked.program62. enter_call. fold Checked.program62.
  cbn [Program62.binary_search_recursive].
  eval_step. literals.
  rewrite int_truth_of_bool. destruct (left >? right); eval_step; [finish_call|].
  destruct (int_div (int_add left right) 2) as [mid|e]; eval_step; [|reflexivity].
  destruct (load st (ptr_add arr mid)) as [a|e] eqn:Hload; eval_step; [|reflexivity].
  rewrite int_truth_of_bool. destruct (a =? key); eval_step; [finish_call|].
  rewrite Hload. eval_step.
  rewrite int_truth_of_bool. destruct (a >? key); eval_step.
  - rewrite IH.
    destruct (Program62.binary_search_recursive d st arr left (int_sub mid 1) key);
      eval_step; finish_call.
  - rewrite IH.
    destruct (Program62.binary_search_recursive d st arr (int_add mid 1) right key);
      eval_step; finish_call.
Qed.

Lemma execute_program62 lim :
  execute lim Source.program62 = exit_of (Program62.main (max_depth lim)).
Proof.
  unfold execute. rewrite front_end_program62. unfold run.
  destruct (max_depth lim) as [|d]; [reflexivity|].
  unfold Checked.program62 at 1. enter_call.
  unfold Program62.main, assign_index. eval_step. literals.
  fold Checked.program62. initialise.
  rewrite binary_search_recursive_agrees.
  match goal with
  | |- context [Program62.binary_search_recursive ?a ?b ?c ?d ?e ?f] =>
      destruct (Program62.binary_search_recursive a b c d e f)
  end; reflexivity.
Qed.

Lemma front_end_program63 : front_end Source.program63 = Ok Checked.program63.
Proof. vm_compute. reflexivity. Qed.

Lemma sum_recursive_agrees steps depth arr n st :
  call_function Checked.program63 steps depth "sum_recursive"
    [VPtr arr; VInt n] st
  = returning (Program63.sum_recursive depth st arr n) st.
Proof.
  revert n. induction depth as [|d IH]; intros n; [reflexivity|].
  unfold Checked.program63. enter_call. fold Checked.program63.
  cbn [Program63.sum_recursive].
  eval_step. literals.
  rewrite int_truth_of_bool. destruct (n <=? 0); eval_step; [finish_call|].
  destruct (load st (ptr_add arr (int_sub n 1))) as [a|e]; eval_step; [|reflexivity].
  rewrite IH.
  destruct (Program63.sum_recursive d st arr (int_sub n 1)); eval_step; finish_call.
Qed.

Lemma execute_program63 lim :
  execute lim Source.program63 = exit_of (Program63.main (max_depth lim)).
Proof.
  unfold execute. rewrite front_end_program63. unfold run.
  destruct (max_depth lim) as [|d]; [reflexivity|].
  unfold Checked.program63 at 1. enter_call.
  unfold Program63.main, assign_index. eval_step. literals.
  fold Checked.program63. initialise.
  rewrite sum_recursive_agrees.
  match goal with
  | |- context [Program63.sum_recursive ?a ?b ?c ?d] =>
      destruct (Program63.sum_recursive a b c d)
  end; reflexivity.
Qed.

Lemma front_end_program88 : front_end Source.program88 = Ok Checked.program88.
Proof. vm_compute. reflexivity. Qed.

Lemma sum_agrees steps depth start end_ st :
  call_function Checked.program88 steps depth "sum" [VPtr start; VPtr end_] st
  = returning (Program88.sum steps depth st start end_) st.
Proof.
  destruct depth as [|d]; [reflexivity|].
  unfold Checked.program88. enter_call.
  unfold Program88.sum.
  eval_step. literals.
  match goal with
  | |- ?L = _ =>
      match L with
      | context G [loop steps ?C ?B ?S _] =>
          assert (Hloop : forall k p total,
            ltac:(let t := context G [loop k C B S
                      {| frame := [VPtr p; VPtr end_; VInt total];
                         mem := st |}] in exact t)
            = returning (Program88.sum_loop k st p end_ total) st)
      end
  end.
  - induction k as [|k IH]; intros p total; [reflexivity|].
    cbn [loop Program88.sum_loop]. eval_step. unfold ptr_lt.
    destruct (same_region p end_); eval_step; [|reflexivity].
    rewrite int_truth_of_bool. destruct (p_index p <? p_index end_); eval_step; [|finish_call].
    destruct (load st p) as [a|e]; eval_step; [|reflexivity].
    apply IH.
  - apply Hloop.
Qed.

Lemma execute_program88 lim :
  execute lim Source.program88
  = exit_of (Program88.main (max_steps lim) (max_depth lim)).
Proof.
  unfold execute. rewrite front_end_program88. unfold run.
  destruct (max_depth lim) as [|d]; [reflexivity|].
  unfold Checked.program88 at 1. enter_call.
  unfold Program88.main, assign_index. eval_step. literals.
  fold Checked.program88. initialise.
  rewrite sum_agrees.
  match goal with
  | |- context [Program88.sum ?a ?b ?c ?d ?e] =>
      destruct (Program88.sum a b c d e)
  end; reflexivity.
Qed.

(* ===================================================================== *)
(** * C1 to C4: the fixtures return their expected values *)
(* ===================================================================== *)

Lemma prime_17 : prime_number 17.
Proof.
  split; [lia|]. intros d Hd [k Hk].
  assert (d = 2 \/ d = 3 \/ d = 4 \/ d = 5 \/ d = 6 \/ d = 7 \/ d = 8
          \/ d = 9 \/ d = 10 \/ d = 11 \/ d = 12 \/ d = 13 \/ d = 14 \/ d = 15
          \/ d = 16) as Hcases by lia.
  repeat (destruct Hcases as [-> | Hcases]; [lia|]).
  subst d. lia.
Qed.

(** C1.  Under every stack capacity of at least 6 records and every
    step limit of at least 16, each of the three arithmetic fixtures runs
    to completion, the pipeline on the file's text and the transcribed
    [main] alike: program36 returns 16, which is 2 to the power 4;
    program68 returns 1, and 17 is prime; program67 returns 321, the
    decimal reversal of 123. *)
Theorem arithmetic_fixtures_return_expected (depth steps : nat) :
  (6 <= depth)%nat ->
  (16 <= steps)%nat ->
  (execute (mkLimits depth steps) Source.program36 = Ok 16 /\
   Program36.main depth = Ok (2 ^ 4)) /\
  (execute (mkLimits depth steps) Source.program68 = Ok 1 /\
   Program68.main steps depth = Ok 1 /\
   prime_number 17) /\
  (execute (mkLimits depth steps) Source.program67 = Ok 321 /\
   Program67.main steps depth = Ok (decimal_reversal 123)).
Proof.
  intros Hd Hs.
  rewrite execute_program36, execute_program68, execute_program67.
  cbn [max_depth max_steps].
  do 6 (destruct depth as [|depth]; [lia|]).
  do 16 (destruct steps as [|steps]; [lia|]).
  split; [split; reflexivity|].
  split; [split; [reflexivity | split; [reflexivity | apply prime_17]]|].
  split; reflexivity.
Qed.

Lemma arithmetic_fixtures_witness :
  (execute (mkLimits 6 16) Source.program36 = Ok 16 /\
   Program36.main 6 = Ok (2 ^ 4)) /\
  (execute (mkLimits 6 16) Source.program68 = Ok 1 /\
   Program68.main 16 6 = Ok 1 /\
   prime_number 17) /\
  (execute (mkLimits 6 16) Source.program67 = Ok 321 /\
   Program67.main 16 6 = Ok (decimal_reversal 123)).
Proof.
  apply (arithmetic_fixtures_return_expected 6 16); lia.
Defined.

(** C2.  Under every stack capacity of at least 2 records and every step
    limit of at least 3, the linear-search fixture runs to completion
    and returns 2; its array holds [10,20,30,40,50] when
    [linear_search(arr, 5, 30)] is called, and that call evaluates to 2,
    the index of 30. *)
Theorem linear_search_fixture_returns_2 (depth steps : nat) :
  (2 <= depth)%nat ->
  (3 <= steps)%nat ->
  execute (mkLimits depth steps) Source.program61 = Ok 2 /\
  Program61.main steps depth = Ok 2 /\
  Program61.linear_search steps (depth - 1)
    [10; 20; 30; 40; 50] (array_pointer 0 5) 5 30 = Ok 2 /\
  nth 2 [10; 20; 30; 40; 50] 0 = 30.
Proof.
  intros Hd Hs.
  rewrite execute_program61. cbn [max_depth max_steps].
  do 2 (destruct depth as [|depth]; [lia|]).
  do 3 (destruct steps as [|steps]; [lia|]).
  repeat split; reflexivity.
Qed.

Lemma linear_search_fixture_witness :
  execute (mkLimits 2 3) Source.program61 = Ok 2 /\
  Program61.main 3 2 = Ok 2 /\
  Program61.linear_search 3 1
    [10; 20; 30; 40; 50] (array_pointer 0 5) 5 30 = Ok 2 /\
  nth 2 [10; 20; 30; 40; 50] 0 = 30.
Proof.
  apply (linear_search_fixture_returns_2 2 3); lia.
Defined.

(** C3.  Under every stack capacity of at least 2 records (and any step
    limit: the fixture has no loop), the recursive binary-search fixture
    runs to completion and returns 2; its array holds [1,3,5,7,9] when
    [binary_search_recursive(arr, 0, 4, 5)] is called, and that call
    evaluates to 2, the index of 5. *)
Theorem binary_search_fixture_returns_2 (depth steps : nat) :
  (2 <= depth)%nat ->
  execute (mkLimits depth steps) Source.program62 = Ok 2 /\
  Program62.main depth = Ok 2 /\
  Program62.binary_search_recursive (depth - 1)
    [1; 3; 5; 7; 9] (array_pointer 0 5) 0 4 5 = Ok 2 /\
  nth 2 [1; 3; 5; 7; 9] 0 = 5.
Proof.
  intros Hd.
  rewrite execute_program62. cbn [max_depth max_steps].
  do 2 (destruct depth as [|depth]; [lia|]).
  repeat split; reflexivity.
Qed.

Lemma binary_search_fixture_witness :
  execute (mkLimits 2 0) Source.program62 = Ok 2 /\
  Program62.main 2 = Ok 2 /\
  Program62.binary_search_recursive 1
    [1; 3; 5; 7; 9] (array_pointer 0 5) 0 4 5 = Ok 2 /\
  nth 2 [1; 3; 5; 7; 9] 0 = 5.
Proof.
  apply (binary_search_fixture_returns_2 2 0); lia.
Defined.

(** C4.  Under every stack capacity of at least 2 records and every step
    limit of at least 4, the pointer-sum fixture runs to completion and
    returns 12, with no runtime error; its array holds [2,4,6] when
    [sum(numbers, numbers + 3)] is called, and that call evaluates to 12.
    The second argument is the pointer one past the end: it is outside
    the array, reading through it would be [OutOfBounds], and the run
    compares it with [<] only. *)
Theorem pointer_sum_fixture_returns_12 (depth steps : nat) :
  (2 <= depth)%nat ->
  (4 <= steps)%nat ->
  execute (mkLimits depth steps) Source.program88 = Ok 12 /\
  Program88.main steps depth = Ok 12 /\
  Program88.sum steps (depth - 1) [2; 4; 6]
    (array_pointer 0 3) (ptr_add (array_pointer 0 3) 3) = Ok 12 /\
  outside (ptr_add (array_pointer 0 3) 3) /\
  load [2; 4; 6] (ptr_add (array_pointer 0 3) 3) = Err OutOfBounds.
Proof.
  intros Hd Hs.
  rewrite execute_program88. cbn [max_depth max_steps].
  do 2 (destruct depth as [|depth]; [lia|]).
  do 4 (destruct steps as [|steps]; [lia|]).
  split; [reflexivity|]. split; [reflexivity|]. split; [reflexivity|].
  split; [|reflexivity].
  apply one_past_the_end_outside; rewrite INT_MAX_value; lia.
Qed.

Lemma pointer_sum_fixture_witness :
  execute (mkLimits 2 4) Source.program88 = Ok 12 /\
  Program88.main 4 2 = Ok 12 /\
  Program88.sum 4 1 [2; 4; 6]
    (array_pointer 0 3) (ptr_add (array_pointer 0 3) 3) = Ok 12 /\
  outside (ptr_add (array_pointer 0 3) 3) /\
  load [2; 4; 6] (ptr_add (array_pointer 0 3) 3) = Err OutOfBounds.
Proof.
  apply (pointer_sum_fixture_returns_12 2 4); lia.
Defined.

(* ===================================================================== *)
(** * C5: the recursive sum and its iterative equivalent *)
(* ===================================================================== *)


Lemma firstn_succ (xs : list Z) (k : nat) :
  (k < List.length xs)%nat ->
  firstn (S k) xs = firstn k xs ++ [nth k xs 0].
Proof.
  revert k. induction xs as [|x xs IH]; intros k Hk; cbn [List.length] in Hk; [lia|].
  destruct k as [|k]; [reflexivity|].
  cbn [firstn nth app]. rewrite <- IH by lia. reflexivity.
Qed.

Lemma sum_left_to_right_succ xs (k : nat) :
  (k < List.length xs)%nat ->
  sum_left_to_right xs (Z.of_nat (S k))
  = int_add (sum_left_to_right xs (Z.of_nat k)) (nth k xs 0).
Proof.
  intros Hk. unfold sum_left_to_right. rewrite !Nat2Z.id.
  rewrite firstn_succ by assumption. rewrite fold_left_app. reflexivity.
Qed.

Lemma sum_recursive_spec st base xs (k : nat) :
  array_at st base xs ->
  base + Z.of_nat (List.length xs) <= INT_MAX ->
  (k <= List.length xs)%nat ->
  forall depth, (k < depth)%nat ->
  Program63.sum_recursive depth st
    (array_pointer base (Z.of_nat (List.length xs))) (Z.of_nat k)
  = Ok (sum_left_to_right xs (Z.of_nat k)).
Proof.
  intros Harr Hmax. induction k as [|k IH]; intros Hk depth Hd;
    (destruct depth as [|d]; [lia|]); cbn [Program63.sum_recursive].
  - reflexivity.
  - destruct (Z.leb_spec (Z.of_nat (S k)) 0); [lia|].
    destruct Harr as [Hb Hxs].
    assert (int_sub (Z.of_nat (S k)) 1 = Z.of_nat k) as ->.
    { rewrite int_sub_small; unfold in_int_range; rewrite ?INT_MIN_value; lia. }
    rewrite load_array by (try split; auto; lia).
    rewrite IH by lia.
    rewrite sum_left_to_right_succ by lia.
    rewrite int_add_comm. reflexivity.
Qed.

Lemma fold_left_skipn (xs : list Z) (i r : nat) total :
  (i < List.length xs)%nat ->
  fold_left int_add (firstn (S r) (skipn i xs)) total
  = fold_left int_add (firstn r (skipn (S i) xs)) (int_add total (nth i xs 0)).
Proof.
  revert i. induction xs as [|x xs IH]; intros i Hi; cbn [List.length] in Hi; [lia|].
  destruct i as [|i]; [reflexivity|].
  cbn [skipn nth]. apply IH. lia.
Qed.

Lemma sum_iterative_loop_spec st base xs (n : nat) :
  array_at st base xs ->
  base + Z.of_nat (List.length xs) <= INT_MAX ->
  (n <= List.length xs)%nat ->
  forall (r i : nat) total steps, (i + r = n)%nat -> (r < steps)%nat ->
  sum_iterative_loop steps st
    (array_pointer base (Z.of_nat (List.length xs))) (Z.of_nat n) (Z.of_nat i) total
  = Ok (fold_left int_add (firstn r (skipn i xs)) total).
Proof.
  intros Harr Hmax Hn. induction r as [|r IH]; intros i total steps Hir Hs;
    (destruct steps as [|k]; [lia|]); cbn [sum_iterative_loop].
  - destruct (Z.ltb_spec (Z.of_nat i) (Z.of_nat n)); [lia|]. reflexivity.
  - destruct (Z.ltb_spec (Z.of_nat i) (Z.of_nat n)); [|lia].
    destruct Harr as [Hb Hxs].
    rewrite load_array by (try split; auto; lia).
    assert (int_add (Z.of_nat i) 1 = Z.of_nat (S i)) as ->.
    { rewrite int_add_small; unfold in_int_range; rewrite ?INT_MIN_value; lia. }
    rewrite (IH (S i)) by lia.
    rewrite fold_left_skipn by lia. reflexivity.
Qed.


(** The fixture itself: program63 sums [1,2,3,4] and returns 10. *)
Lemma program63_returns_10 (depth steps : nat) :
  (6 <= depth)%nat ->
  execute (mkLimits depth steps) Source.program63 = Ok 10 /\
  Program63.main depth = Ok 10.
Proof.
  intros Hd. rewrite execute_program63. cbn [max_depth max_steps].
  do 6 (destruct depth as [|depth]; [lia|]).
  split; reflexivity.
Qed.

(** C5.  For every array contents [xs], laid out anywhere in a store
    whose indices are 32-bit values, and every [n] with
    [0 <= n <= length xs], [sum_recursive(arr, n)] returns what the
    iterative left-to-right summation of [arr[0..n-1]] returns, namely
    the sum of the first [n] cells, as soon as the stack holds [n + 1]
    records and the loop may take [n + 1] steps.  For the fixture's array
    [1,2,3,4] and [n = 4] that sum is 10, and 10 is what program63
    returns. *)
Theorem sum_recursive_matches_iterative
  (st : store) (base : Z) (xs : list Z) (n : Z) (depth steps : nat) :
  array_at st base xs ->
  base + Z.of_nat (List.length xs) <= INT_MAX ->
  0 <= n <= Z.of_nat (List.length xs) ->
  (Z.to_nat n < depth)%nat ->
  (Z.to_nat n < steps)%nat ->
  let arr := array_pointer base (Z.of_nat (List.length xs)) in
  (Program63.sum_recursive depth st arr n = sum_iterative steps st arr n /\
   sum_iterative steps st arr n = Ok (sum_left_to_right xs n)) /\
  (sum_left_to_right [1; 2; 3; 4] 4 = 10 /\
   forall d s, (6 <= d)%nat ->
     execute (mkLimits d s) Source.program63 = Ok 10).
Proof.
  intros Harr Hmax Hn Hd Hs arr. subst arr.
  split; [|split; [reflexivity | intros d s Hd6; apply program63_returns_10; exact Hd6]].
  rewrite <- (Z2Nat.id n) by lia.
  rewrite (sum_recursive_spec st base xs (Z.to_nat n)) by (auto; lia).
  unfold sum_iterative.
  pose proof (sum_iterative_loop_spec st base xs (Z.to_nat n) Harr Hmax ltac:(lia)
                (Z.to_nat n) 0%nat 0 steps ltac:(lia) Hs) as Hloop.
  change (Z.of_nat 0) with 0 in Hloop. rewrite Hloop.
  unfold sum_left_to_right. rewrite Nat2Z.id. cbn [skipn]. split; reflexivity.
Qed.

Lemma sum_recursive_matches_iterative_witness :
  (Program63.sum_recursive 5 [1; 2; 3; 4] (array_pointer 0 4) 4
   = sum_iterative 5 [1; 2; 3; 4] (array_pointer 0 4) 4 /\
   sum_iterative 5 [1; 2; 3; 4] (array_pointer 0 4) 4 = Ok 10) /\
  (sum_left_to_right [1; 2; 3; 4] 4 = 10 /\
   forall d s, (6 <= d)%nat ->
     execute (mkLimits d s) Source.program63 = Ok 10).
Proof.
  apply (sum_recursive_matches_iterative [1; 2; 3; 4] 0 [1; 2; 3; 4] 4 5 5).
  - split; [lia|]. intros i Hi. reflexivity.
  - vm_compute. discriminate.
  - cbn. lia.
  - cbn. lia.
  - cbn. lia.
Defined.


(* ===================================================================== *)
(** * C6: division and modulo *)
(* ===================================================================== *)

(** C6, as amended.  For every pair of 32-bit signed integers [a] and
    [b] other than [a = INT_MIN] with [b = -1], and all operand
    expressions that evaluate to them: if [b] is zero, evaluating
    [a / b] or [a % b] yields [DivisionByZero] and no value; if [b] is
    not zero, [a / b] is the quotient truncated toward zero and [a % b]
    takes the sign of the dividend, with [|a % b| < |b|] and
    [a = (a / b) * b + (a % b)].  The divisors of the fixtures, 10 in
    [reverse_number] and [i >= 2] in [is_prime], never make the excluded
    pair. *)
Theorem division_truncates_and_traps (a b : Z) :
  in_int_range a ->
  in_int_range b ->
  ~ (a = INT_MIN /\ b = -1) ->
  (forall call pos l r m m1 m2,
      eval_expr call l m = Ok (VInt a, m1) ->
      eval_expr call r m1 = Ok (VInt b, m2) ->
      (b = 0 ->
       eval_expr call (BinaryOp pos Div l r) m = Err DivisionByZero /\
       eval_expr call (BinaryOp pos Mod l r) m = Err DivisionByZero) /\
      (b <> 0 ->
       exists q rm,
         eval_expr call (BinaryOp pos Div l r) m = Ok (VInt q, m2) /\
         eval_expr call (BinaryOp pos Mod l r) m = Ok (VInt rm, m2) /\
         q = Z.quot a b /\ rm = Z.rem a b /\
         a = q * b + rm /\
         Z.abs rm < Z.abs b /\ (0 <= a -> 0 <= rm) /\ (a <= 0 -> rm <= 0) /\
         Z.abs (q * b) <= Z.abs a)) /\
  (2 <= b ->
   int_div a b = Ok (Z.quot a b) /\ int_mod a b = Ok (Z.rem a b)).
Proof.
  intros Ha Hb Hne.
  assert (b <> 0 ->
          int_div a b = Ok (Z.quot a b) /\ int_mod a b = Ok (Z.rem a b)) as Hops.
  { intros Hz. unfold int_div, int_mod.
    destruct (Z.eqb_spec b 0) as [|_]; [contradiction|].
    rewrite (wrap_small (Z.rem a b)) by (apply rem_in_range; assumption).
    rewrite (wrap_small (Z.quot a b)) by (apply quot_in_range; assumption).
    split; reflexivity. }
  split; [|intros Hb2; apply Hops; lia].
  intros call pos l r m m1 m2 Hl Hr. split.
  - intros ->. split; cbn [eval_expr]; unfold bind; rewrite Hl, Hr; reflexivity.
  - intros Hz. destruct (Hops Hz) as [Hdiv Hmod].
    exists (Z.quot a b), (Z.rem a b).
    split; [cbn [eval_expr]; unfold bind; rewrite Hl, Hr; cbn; rewrite Hdiv; reflexivity|].
    split; [cbn [eval_expr]; unfold bind; rewrite Hl, Hr; cbn; rewrite Hmod; reflexivity|].
    pose proof (Z.quot_rem' a b) as Hqr.
    pose proof (Z.rem_bound_abs a b Hz) as Hrb.
    split; [reflexivity|]. split; [reflexivity|].
    split; [lia|]. split; [exact Hrb|].
    split; [intros; apply Z.rem_nonneg; assumption|].
    split; [intros; apply Z.rem_nonpos; assumption|].
    replace (Z.quot a b * b) with (a - Z.rem a b) by lia.
    destruct (Z.le_ge_cases 0 a).
    + pose proof (Z.rem_nonneg a b Hz ltac:(lia)).
      pose proof (Z.rem_le a (Z.abs b) ltac:(lia) ltac:(lia)) as Hle.
      rewrite Z.rem_abs_r in Hle by assumption. lia.
    + pose proof (Z.rem_nonpos a b Hz ltac:(lia)).
      pose proof (Z.rem_le (- a) (Z.abs b) ltac:(lia) ltac:(lia)) as Hle.
      rewrite Z.rem_abs_r in Hle by assumption.
      rewrite Z.rem_opp_l in Hle by assumption. lia.
Qed.

Lemma division_witness :
  (forall call pos l r m m1 m2,
      eval_expr call l m = Ok (VInt (-7), m1) ->
      eval_expr call r m1 = Ok (VInt 2, m2) ->
      (2 = 0 ->
       eval_expr call (BinaryOp pos Div l r) m = Err DivisionByZero /\
       eval_expr call (BinaryOp pos Mod l r) m = Err DivisionByZero) /\
      (2 <> 0 ->
       exists q rm,
         eval_expr call (BinaryOp pos Div l r) m = Ok (VInt q, m2) /\
         eval_expr call (BinaryOp pos Mod l r) m = Ok (VInt rm, m2) /\
         q = Z.quot (-7) 2 /\ rm = Z.rem (-7) 2 /\
         -7 = q * 2 + rm /\
         Z.abs rm < Z.abs 2 /\ (0 <= -7 -> 0 <= rm) /\ (-7 <= 0 -> rm <= 0) /\
         Z.abs (q * 2) <= Z.abs (-7))) /\
  (2 <= 2 ->
   int_div (-7) 2 = Ok (Z.quot (-7) 2) /\ int_mod (-7) 2 = Ok (Z.rem (-7) 2)).
Proof.
  apply (division_truncates_and_traps (-7) 2).
  - unfold in_int_range. rewrite INT_MIN_value, INT_MAX_value. lia.
  - unfold in_int_range. rewrite INT_MIN_value, INT_MAX_value. lia.
  - intros [_ H]. lia.
Defined.

(** The claim as stated fails at [INT_MIN / -1], a pair of 32-bit
    integers with a nonzero divisor: the quotient truncated toward zero
    is 2^31, which is no 32-bit value, so that no value the division
    could yield there is that quotient. *)
Lemma division_counterexample :
  in_int_range INT_MIN /\ in_int_range (-1) /\ -1 <> 0 /\
  Z.quot INT_MIN (-1) = 2 ^ 31 /\
  (forall q, in_int_range q -> q <> Z.quot INT_MIN (-1)) /\
  (forall q, eval_binop Div (VInt INT_MIN) (VInt (-1)) = Ok (VInt q) ->
             q <> Z.quot INT_MIN (-1)).
Proof.
  assert (forall q, in_int_range q -> q <> Z.quot INT_MIN (-1)) as Hnone.
  { intros q. unfold in_int_range. rewrite INT_MIN_value, INT_MAX_value.
    change (Z.quot (-2147483648) (-1)) with 2147483648. lia. }
  split; [unfold in_int_range; rewrite INT_MIN_value, INT_MAX_value; lia|].
  split; [unfold in_int_range; rewrite INT_MIN_value, INT_MAX_value; lia|].
  split; [lia|]. split; [reflexivity|]. split; [exact Hnone|].
  intros q Hq. apply Hnone.
  cbn [eval_binop] in Hq. unfold int_div in Hq.
  change (-1 =? 0) with false in Hq. cbn [lift_int] in Hq.
  injection Hq as <-. apply wrap_range.
Qed.

(* ===================================================================== *)
(** * C7: out-of-bounds accesses *)
(* ===================================================================== *)

(** Declaring an array of [N] cells puts the pointer to its first cell
    in the array's slot; the array starts where the store ended. *)
Lemma declare_array_slot slot N m :
  (slot < List.length (frame m))%nat ->
  exists m',
    declare_array slot N m = Ok (tt, m') /\
    nth slot (frame m') (VInt 0)
    = VPtr (array_pointer (Z.of_nat (List.length (mem m))) N) /\
    mem m' = mem m ++ repeat 0 (Z.to_nat N).
Proof.
  intros Hslot. unfold declare_array, alloc. eexists. split; [reflexivity|].
  cbn [frame mem]. split; [|reflexivity].
  generalize dependent slot. generalize (frame m) as fr.
  induction fr as [|v fr IH]; intros slot Hslot; cbn [List.length] in Hslot; [lia|].
  destruct slot as [|slot]; [reflexivity|]. cbn [set_nth nth]. apply IH. lia.
Qed.

(** C7.  Take an array declared with size [N] at [base] and any pointer
    [ptr] into its region.  If the effective index of [ptr + k] is one
    past the end (the array itself indexed by [N]) or otherwise outside
    [base, base + N), then reading [ptr[k]], reading [*(ptr + k)] and
    assigning to [ptr[k]] all yield [OutOfBounds], whatever the store
    holds, and produce no value; while forming [ptr + k] and comparing
    it with [ptr] yield values and raise nothing. *)
Theorem out_of_bounds_is_detected (base N : Z) (ptr : pointer) (k : Z) :
  0 <= base <= INT_MAX ->
  0 < N <= INT_MAX ->
  p_base ptr = base ->
  p_count ptr = N ->
  (p_index ptr = base /\ k = N) \/ outside (ptr_add ptr k) ->
  (forall call pos a i m m1 m2,
      eval_expr call a m = Ok (VPtr ptr, m1) ->
      eval_expr call i m1 = Ok (VInt k, m2) ->
      eval_expr call (Index pos a i) m = Err OutOfBounds) /\
  (forall call pos a m m1,
      eval_expr call a m = Ok (VPtr (ptr_add ptr k), m1) ->
      eval_expr call (Deref pos a) m = Err OutOfBounds) /\
  (forall call pos a i rhs c m m0 m1 m2,
      eval_expr call rhs m = Ok (VInt c, m0) ->
      eval_expr call a m0 = Ok (VPtr ptr, m1) ->
      eval_expr call i m1 = Ok (VInt k, m2) ->
      eval_expr call (Assign pos (Index pos a i) rhs) m = Err OutOfBounds) /\
  eval_binop Add (VPtr ptr) (VInt k) = Ok (VPtr (ptr_add ptr k)) /\
  eval_binop Lt (VPtr ptr) (VPtr (ptr_add ptr k))
  = Ok (VInt (int_of_bool (p_index ptr <? p_index (ptr_add ptr k)))).
Proof.
  intros Hbase HN Hb Hc Hcase.
  assert (outside (ptr_add ptr k)) as Hout.
  { destruct Hcase as [[Hi Hk] | Hout]; [|exact Hout].
    destruct ptr as [i b c]. cbn [p_index p_base p_count] in *. subst.
    apply (one_past_the_end_outside base N); assumption. }
  split; [|split; [|split; [|split]]].
  - intros call pos a i m m1 m2 Ha Hi. cbn [eval_expr]. unfold bind.
    rewrite Ha, Hi. cbn. rewrite (load_outside _ _ Hout). reflexivity.
  - intros call pos a m m1 Ha. cbn [eval_expr]. unfold bind.
    rewrite Ha. cbn. rewrite (load_outside _ _ Hout). reflexivity.
  - intros call pos a i rhs c m m0 m1 m2 Hr Ha Hi.
    cbn [eval_expr eval_lvalue]. unfold bind.
    rewrite Hr, Ha, Hi. cbn. rewrite (store_cell_outside _ _ _ Hout).
    reflexivity.
  - reflexivity.
  - cbn. rewrite same_region_ptr_add. reflexivity.
Qed.

Lemma out_of_bounds_is_detected_witness :
  (forall call pos a i m m1 m2,
      eval_expr call a m = Ok (VPtr (array_pointer 0 3), m1) ->
      eval_expr call i m1 = Ok (VInt 3, m2) ->
      eval_expr call (Index pos a i) m = Err OutOfBounds) /\
  (forall call pos a m m1,
      eval_expr call a m = Ok (VPtr (ptr_add (array_pointer 0 3) 3), m1) ->
      eval_expr call (Deref pos a) m = Err OutOfBounds) /\
  (forall call pos a i rhs c m m0 m1 m2,
      eval_expr call rhs m = Ok (VInt c, m0) ->
      eval_expr call a m0 = Ok (VPtr (array_pointer 0 3), m1) ->
      eval_expr call i m1 = Ok (VInt 3, m2) ->
      eval_expr call (Assign pos (Index pos a i) rhs) m = Err OutOfBounds) /\
  eval_binop Add (VPtr (array_pointer 0 3)) (VInt 3)
  = Ok (VPtr (ptr_add (array_pointer 0 3) 3)) /\
  eval_binop Lt (VPtr (array_pointer 0 3)) (VPtr (ptr_add (array_pointer 0 3) 3))
  = Ok (VInt (int_of_bool (p_index (array_pointer 0 3)
                           <? p_index (ptr_add (array_pointer 0 3) 3)))).
Proof.
  apply (out_of_bounds_is_detected 0 3 (array_pointer 0 3) 3).
  - rewrite INT_MAX_value. lia.
  - rewrite INT_MAX_value. lia.
  - reflexivity.
  - reflexivity.
  - left. split; reflexivity.
Defined.

(* ===================================================================== *)
(** * C9: when [power] terminates *)
(* ===================================================================== *)


Lemma effective_exponent_pred exp :
  in_int_range exp -> exp <> 0 ->
  effective_exponent (int_sub exp 1) = effective_exponent exp - 1.
Proof.
  unfold in_int_range, effective_exponent, int_sub, wrap.
  rewrite INT_MIN_value, INT_MAX_value, int_modulus_value.
  intros Hr Hz.
  destruct (Z.eq_dec exp (-2147483648)) as [->|Hmin]; [reflexivity|].
  rewrite Z.mod_small by lia.
  destruct (Z.ltb_spec exp 0);
    destruct (Z.ltb_spec (exp - 1 - -2147483648 + -2147483648) 0); lia.
Qed.

Lemma effective_exponent_nonneg exp : in_int_range exp -> 0 <= effective_exponent exp.
Proof.
  unfold in_int_range, effective_exponent.
  rewrite INT_MIN_value, INT_MAX_value, int_modulus_value.
  destruct (Z.ltb_spec exp 0); lia.
Qed.

Lemma effective_exponent_zero exp :
  in_int_range exp -> (effective_exponent exp = 0 <-> exp = 0).
Proof.
  unfold in_int_range, effective_exponent.
  rewrite INT_MIN_value, INT_MAX_value, int_modulus_value.
  destruct (Z.ltb_spec exp 0); lia.
Qed.

Lemma power_characterised depth base exp :
  in_int_range exp ->
  Program36.power depth base exp =
  if effective_exponent exp <? Z.of_nat depth
  then Ok (wrap (base ^ effective_exponent exp))
  else Err StackOverflow.
Proof.
  revert exp. induction depth as [|d IH]; intros exp Hr.
  - pose proof (effective_exponent_nonneg exp Hr).
    destruct (Z.ltb_spec (effective_exponent exp) (Z.of_nat 0)); [lia | reflexivity].
  - cbn [Program36.power].
    destruct (exp =? 0) eqn:E0.
    + apply Z.eqb_eq in E0. subst exp.
      change (effective_exponent 0) with 0.
      destruct (Z.ltb_spec 0 (Z.of_nat (S d))); [reflexivity | lia].
    + apply Z.eqb_neq in E0.
      rewrite IH by apply wrap_range.
      rewrite effective_exponent_pred by assumption.
      pose proof (effective_exponent_nonneg exp Hr) as Hn.
      assert (effective_exponent exp <> 0) as Hz
        by (rewrite effective_exponent_zero; assumption).
      destruct (Z.ltb_spec (effective_exponent exp - 1) (Z.of_nat d));
        destruct (Z.ltb_spec (effective_exponent exp) (Z.of_nat (S d))); try lia.
      * f_equal. unfold int_mul. rewrite wrap_mul_r.
        f_equal. rewrite <- Z.pow_succ_r by lia. f_equal. lia.
      * reflexivity.
Qed.


(** C9, as amended.  For every base and every 32-bit exponent:
    if [exp >= 0], [power(base, exp)] terminates exactly when the stack
    holds more than [exp] records, with the value [base ^ exp] reduced
    to 32 bits, which is [base ^ exp] itself whenever that is a 32-bit
    value; if [exp < 0], every stack of at most [exp + 2^32] records
    overflows, and a larger one lets the recursion wrap around at
    [INT_MIN] and reach [exp == 0], with the value
    [base ^ (exp + 2^32)] reduced to 32 bits. *)
Theorem power_terminates_exactly (depth : nat) (base exp : Z) :
  in_int_range exp ->
  (0 <= exp ->
   (exp < Z.of_nat depth ->
    Program36.power depth base exp = Ok (wrap (base ^ exp)) /\
    (in_int_range (base ^ exp) ->
     Program36.power depth base exp = Ok (base ^ exp))) /\
   (Z.of_nat depth <= exp ->
    Program36.power depth base exp = Err StackOverflow)) /\
  (exp < 0 ->
   (Z.of_nat depth <= exp + int_modulus ->
    Program36.power depth base exp = Err StackOverflow) /\
   (exp + int_modulus < Z.of_nat depth ->
    Program36.power depth base exp = Ok (wrap (base ^ (exp + int_modulus))))).
Proof.
  intros Hr. rewrite (power_characterised depth base exp Hr).
  unfold effective_exponent.
  destruct (Z.ltb_spec exp 0) as [Hneg|Hpos]; split; intros Hsign; try lia.
  - split; intros Hd.
    + destruct (Z.ltb_spec (exp + int_modulus) (Z.of_nat depth)); [lia | reflexivity].
    + destruct (Z.ltb_spec (exp + int_modulus) (Z.of_nat depth)); [reflexivity | lia].
  - split; intros Hd.
    + destruct (Z.ltb_spec exp (Z.of_nat depth)); [|lia].
      split; [reflexivity|]. intros Hfit. rewrite wrap_small by assumption. reflexivity.
    + destruct (Z.ltb_spec exp (Z.of_nat depth)); [lia | reflexivity].
Qed.

Lemma power_terminates_exactly_witness :
  (0 <= 4 ->
   (4 < Z.of_nat 5 ->
    Program36.power 5 2 4 = Ok (wrap (2 ^ 4)) /\
    (in_int_range (2 ^ 4) -> Program36.power 5 2 4 = Ok (2 ^ 4))) /\
   (Z.of_nat 5 <= 4 -> Program36.power 5 2 4 = Err StackOverflow)) /\
  (4 < 0 ->
   (Z.of_nat 5 <= 4 + int_modulus ->
    Program36.power 5 2 4 = Err StackOverflow) /\
   (4 + int_modulus < Z.of_nat 5 ->
    Program36.power 5 2 4 = Ok (wrap (2 ^ (4 + int_modulus))))).
Proof.
  apply (power_terminates_exactly 5 2 4).
  unfold in_int_range. rewrite INT_MIN_value, INT_MAX_value. lia.
Defined.


(** The claim as stated fails twice: [power(2, 31)] terminates with
    -2147483648, not with 2^31; and [power(2, -1)] produces a value under
    a stack of 2^32 records. *)
Lemma power_counterexample :
  in_int_range 2 /\ in_int_range 31 /\ in_int_range (-1) /\
  Program36.power 32 2 31 = Ok (-2147483648) /\
  2 ^ 31 = 2147483648 /\
  (exists depth, Program36.power depth 2 (-1) = Ok 0).
Proof.
  unfold in_int_range. rewrite INT_MIN_value, INT_MAX_value.
  split; [lia|]. split; [lia|]. split; [lia|].
  split; [vm_compute; reflexivity|]. split; [reflexivity|].
  exists (Z.to_nat 4294967296).
  rewrite power_characterised
    by (unfold in_int_range; rewrite INT_MIN_value, INT_MAX_value; lia).
  rewrite Z2Nat.id by lia.
  change (effective_exponent (-1)) with (32 + 4294967263).
  change (32 + 4294967263 <? 4294967296) with true. cbv iota.
  rewrite Z.pow_add_r by lia.
  change (2 ^ 32) with int_modulus.
  rewrite Z.mul_comm, wrap_multiple. reflexivity.
Qed.


(* ===================================================================== *)
(** * C10: when [binary_search_recursive] terminates *)
(* ===================================================================== *)


(** Without overflow in [left + right], the midpoint lies in the interval. *)
Lemma midpoint_between left right :
  - 2 ^ 30 <= left -> right <= 2 ^ 30 - 1 -> left <= right ->
  exists mid,
    int_div (int_add left right) 2 = Ok mid /\ left <= mid <= right.
Proof.
  intros Hl Hr Hlr. exists (Z.quot (left + right) 2).
  assert (in_int_range (left + right)) as Hsum
    by (unfold in_int_range; rewrite INT_MIN_value, INT_MAX_value; lia).
  rewrite int_add_small by assumption.
  unfold int_div. change (2 =? 0) with false. cbv iota.
  pose proof (Z.quot_rem' (left + right) 2) as Hqr.
  pose proof (Z.rem_bound_abs (left + right) 2 ltac:(lia)) as Hrb.
  assert (left <= Z.quot (left + right) 2 <= right) as Hmid.
  { destruct (Z.le_ge_cases 0 (left + right)).
    - pose proof (Z.rem_nonneg (left + right) 2 ltac:(lia) ltac:(lia)). lia.
    - pose proof (Z.rem_nonpos (left + right) 2 ltac:(lia) ltac:(lia)). lia. }
  rewrite wrap_small by (unfold in_int_range; rewrite INT_MIN_value, INT_MAX_value; lia).
  split; [reflexivity | exact Hmid].
Qed.

Lemma binary_search_terminates_within (w : nat) :
  forall depth st arr left right key,
    - 2 ^ 30 <= left -> right <= 2 ^ 30 - 1 ->
    right - left + 1 <= Z.of_nat w -> (w < depth)%nat ->
    (exists v, Program62.binary_search_recursive depth st arr left right key = Ok v) \/
    Program62.binary_search_recursive depth st arr left right key = Err OutOfBounds.
Proof.
  induction w as [|w IH]; intros depth st arr left right key Hl Hr Hw Hd;
    (destruct depth as [|d]; [lia|]); cbn [Program62.binary_search_recursive].
  - destruct (Z.gtb_spec left right); [left; eexists; reflexivity | lia].
  - destruct (Z.gtb_spec left right); [left; eexists; reflexivity |].
    destruct (midpoint_between left right Hl Hr ltac:(lia)) as [mid [-> Hmid]].
    destruct (load st (ptr_add arr mid)) as [a|e] eqn:Hload;
      [|right; f_equal; apply (load_error _ _ _ Hload)].
    destruct (a =? key); [left; eexists; reflexivity|].
    destruct (a >? key).
    + rewrite int_sub_small
        by (unfold in_int_range; rewrite INT_MIN_value, INT_MAX_value; lia).
      apply IH; lia.
    + rewrite int_add_small
        by (unfold in_int_range; rewrite INT_MIN_value, INT_MAX_value; lia).
      apply IH; lia.
Qed.


(** On the array of 1431655766 zero cells, searched for -1 from its
    middle, the interval alternates between two states for ever: the sum
    [left + right] overflows every second call. *)
Lemma binary_search_cycles depth :
  Program62.binary_search_recursive depth huge_store huge_middle
    INT_MIN (-715827884) (-1) = Err StackOverflow /\
  Program62.binary_search_recursive depth huge_store huge_middle
    INT_MIN 715827881 (-1) = Err StackOverflow.
Proof.
  induction depth as [|d [IH1 IH2]]; [split; reflexivity|].
  split; cbn [Program62.binary_search_recursive].
  - change (INT_MIN >? -715827884) with false. cbv iota.
    change (int_div (int_add INT_MIN (-715827884)) 2) with (@Ok RuntimeError Z 715827882).
    cbv iota.
    change (ptr_add huge_middle 715827882) with (mkPointer 1431655765 0 huge_count).
    rewrite load_huge_store by (unfold huge_count; lia).
    change (0 =? -1) with false. change (0 >? -1) with true. cbv iota.
    change (int_sub 715827882 1) with 715827881. exact IH2.
  - change (INT_MIN >? 715827881) with false. cbv iota.
    change (int_div (int_add INT_MIN 715827881) 2) with (@Ok RuntimeError Z (-715827883)).
    cbv iota.
    change (ptr_add huge_middle (-715827883)) with (mkPointer 0 0 huge_count).
    rewrite load_huge_store by (unfold huge_count; lia).
    change (0 =? -1) with false. change (0 >? -1) with true. cbv iota.
    change (int_sub (-715827883) 1) with (-715827884). exact IH1.
Qed.


(** C10, as amended.  For every store, array pointer and key, and all
    [left >= -2^30] and [right <= 2^30 - 1] (so that [left + right] is a
    32-bit value), [binary_search_recursive] terminates, with a value or
    with [OutOfBounds] from [arr[mid]], as soon as the stack holds more
    than [right - left + 1] records; and whenever [left <= right], the
    midpoint [(left + right) / 2] lies between [left] and [right], so
    that each recursive call narrows the interval. *)
Theorem binary_search_terminates
  (depth : nat) (st : store) (arr : pointer) (left right key : Z) :
  - 2 ^ 30 <= left ->
  right <= 2 ^ 30 - 1 ->
  (Z.to_nat (right - left + 1) < depth)%nat ->
  ((exists v,
       Program62.binary_search_recursive depth st arr left right key = Ok v) \/
   Program62.binary_search_recursive depth st arr left right key
   = Err OutOfBounds) /\
  (left <= right ->
   exists mid,
     int_div (int_add left right) 2 = Ok mid /\ left <= mid <= right).
Proof.
  intros Hl Hr Hd. split.
  - apply (binary_search_terminates_within (Z.to_nat (right - left + 1)));
      try assumption. lia.
  - intros Hlr. apply midpoint_between; assumption.
Qed.

Lemma binary_search_terminates_witness :
  ((exists v,
       Program62.binary_search_recursive 6 [1; 3; 5; 7; 9]
         (array_pointer 0 5) 0 4 5 = Ok v) \/
   Program62.binary_search_recursive 6 [1; 3; 5; 7; 9]
     (array_pointer 0 5) 0 4 5 = Err OutOfBounds) /\
  (0 <= 4 ->
   exists mid, int_div (int_add 0 4) 2 = Ok mid /\ 0 <= mid <= 4).
Proof.
  apply (binary_search_terminates 6 [1; 3; 5; 7; 9] (array_pointer 0 5) 0 4 5).
  - lia.
  - lia.
  - cbn. lia.
Defined.

(** The claim as stated fails twice.  For [left = right = 2^30] the sum
    overflows and the midpoint is [-2^30], outside the interval.  And
    on the array that [int a[1431655766];] declares, the call
    [binary_search_recursive(a + 715827883, INT_MIN, -715827884, -1)]
    overflows every stack: it never terminates. *)
Lemma binary_search_counterexample :
  int_div (int_add (2 ^ 30) (2 ^ 30)) 2 = Ok (- 2 ^ 30) /\
  alloc [] huge_count = (array_pointer 0 huge_count, huge_store) /\
  huge_middle = ptr_add (array_pointer 0 huge_count) 715827883 /\
  in_int_range huge_count /\ in_int_range INT_MIN /\
  in_int_range (-715827884) /\
  (forall depth,
      Program62.binary_search_recursive depth huge_store huge_middle
        INT_MIN (-715827884) (-1) = Err StackOverflow).
Proof.
  split; [reflexivity|].
  split.
  { unfold alloc, huge_store, array_pointer.
    cbn [List.length app Z.of_nat]. reflexivity. }
  split; [reflexivity|].
  unfold in_int_range, huge_count. rewrite INT_MIN_value, INT_MAX_value.
  split; [lia|]. split; [lia|]. split; [lia|].
  intros depth. apply binary_search_cycles.
Qed.

(* ===================================================================== *)
(** * The fixtures' functions on every input *)
(* ===================================================================== *)

(** Beyond the fixtures' own calls: what each searching and arithmetic
    function computes for every array and argument, as long as its
    32-bit arithmetic does not overflow. *)

Lemma skipn_nth_cons (xs : list Z) (i : nat) :
  (i < List.length xs)%nat ->
  skipn i xs = nth i xs 0 :: skipn (S i) xs.
Proof.
  revert i. induction xs as [|x xs IH]; intros i Hi; cbn [List.length] in Hi; [lia|].
  destruct i as [|i]; [reflexivity|]. cbn [skipn nth]. apply IH. lia.
Qed.

Lemma linear_search_loop_spec st base xs (n : nat) key :
  array_at st base xs ->
  base + Z.of_nat (List.length xs) <= INT_MAX ->
  (n <= List.length xs)%nat ->
  forall (r i : nat) steps, (i + r = n)%nat -> (r < steps)%nat ->
  Program61.linear_search_loop steps st
    (array_pointer base (Z.of_nat (List.length xs))) (Z.of_nat n) key (Z.of_nat i)
  = Ok (first_index (firstn r (skipn i xs)) key (Z.of_nat i)).
Proof.
  intros Harr Hmax Hn. induction r as [|r IH]; intros i steps Hir Hs;
    (destruct steps as [|k]; [lia|]); cbn [Program61.linear_search_loop].
  - destruct (Z.ltb_spec (Z.of_nat i) (Z.of_nat n)); [lia|]. reflexivity.
  - destruct (Z.ltb_spec (Z.of_nat i) (Z.of_nat n)); [|lia].
    pose proof Harr as [Hb _].
    rewrite load_array by (auto; lia).
    rewrite (skipn_nth_cons xs i) by lia. cbn [firstn first_index].
    destruct (nth i xs 0 =? key); [reflexivity|].
    assert (int_add (Z.of_nat i) 1 = Z.of_nat (S i)) as ->.
    { rewrite int_add_small; unfold in_int_range; rewrite ?INT_MIN_value; lia. }
    rewrite (IH (S i)) by lia. f_equal. f_equal. lia.
Qed.

(** X1.  [linear_search(arr, n, key)] returns the index of the first of the
    first [n] cells that equals [key], and -1 when none does. *)
Theorem linear_search_finds_first
  (st : store) (base : Z) (xs : list Z) (n key : Z) (steps depth : nat) :
  array_at st base xs ->
  base + Z.of_nat (List.length xs) <= INT_MAX ->
  0 <= n <= Z.of_nat (List.length xs) ->
  (Z.to_nat n < steps)%nat ->
  (0 < depth)%nat ->
  Program61.linear_search steps depth st
    (array_pointer base (Z.of_nat (List.length xs))) n key
  = Ok (first_index (firstn (Z.to_nat n) xs) key 0).
Proof.
  intros Harr Hmax Hn Hs Hd. destruct depth as [|d]; [lia|].
  unfold Program61.linear_search.
  pose proof (linear_search_loop_spec st base xs (Z.to_nat n) key Harr Hmax
                ltac:(lia) (Z.to_nat n) 0%nat steps ltac:(lia) Hs) as H.
  rewrite Z2Nat.id in H by lia. exact H.
Qed.

Lemma linear_search_finds_first_witness :
  Program61.linear_search 6 1 [10; 20; 30; 40; 50] (array_pointer 0 5) 5 30
  = Ok 2.
Proof.
  apply (linear_search_finds_first [10; 20; 30; 40; 50] 0 [10; 20; 30; 40; 50]
           5 30 6 1).
  - split; [lia|]. intros i Hi. reflexivity.
  - rewrite INT_MAX_value. cbn. lia.
  - cbn. lia.
  - cbn. lia.
  - lia.
Defined.

Lemma load_array_Z st base xs i :
  array_at st base xs ->
  base + Z.of_nat (List.length xs) <= INT_MAX ->
  0 <= i < Z.of_nat (List.length xs) ->
  load st (ptr_add (array_pointer base (Z.of_nat (List.length xs))) i)
  = Ok (nth (Z.to_nat i) xs 0).
Proof.
  intros Harr Hmax Hi. rewrite <- (Z2Nat.id i) at 1 by lia.
  apply load_array; try assumption. lia.
Qed.

Lemma binary_search_spec st base xs key (w : nat) :
  array_at st base xs ->
  base + Z.of_nat (List.length xs) <= INT_MAX ->
  Z.of_nat (List.length xs) <= 2 ^ 30 ->
  sorted xs ->
  forall depth left right,
    0 <= left -> right < Z.of_nat (List.length xs) ->
    right - left + 1 <= Z.of_nat w -> (w < depth)%nat ->
    exists r,
      Program62.binary_search_recursive depth st
        (array_pointer base (Z.of_nat (List.length xs))) left right key = Ok r /\
      ((r = -1 /\
        forall i, left <= i <= right -> nth (Z.to_nat i) xs 0 <> key) \/
       (left <= r <= right /\ nth (Z.to_nat r) xs 0 = key)).
Proof.
  intros Harr Hmax Hlen Hsorted.
  induction w as [|w IH]; intros depth left right Hl Hr Hw Hd;
    (destruct depth as [|d]; [lia|]); cbn [Program62.binary_search_recursive].
  - destruct (Z.gtb_spec left right); [|lia].
    exists (-1). split; [reflexivity|]. left. split; [reflexivity|]. intros i Hi. lia.
  - destruct (Z.gtb_spec left right).
    { exists (-1). split; [reflexivity|]. left. split; [reflexivity|]. intros i Hi. lia. }
    destruct (midpoint_between left right ltac:(lia) ltac:(lia) ltac:(lia))
      as [mid [-> Hmid]].
    rewrite load_array_Z by (auto; lia).
    destruct (Z.eqb_spec (nth (Z.to_nat mid) xs 0) key) as [Heq|Hne].
    { exists mid. split; [reflexivity|]. right. split; [lia | exact Heq]. }
    destruct (Z.gtb_spec (nth (Z.to_nat mid) xs 0) key) as [Hgt|Hle].
    + rewrite int_sub_small
        by (unfold in_int_range; rewrite INT_MIN_value, INT_MAX_value; lia).
      destruct (IH d left (mid - 1) ltac:(lia) ltac:(lia) ltac:(lia) ltac:(lia))
        as [r [-> Hres]].
      exists r. split; [reflexivity|].
      destruct Hres as [[-> Hnone] | [Hrange Hfound]].
      * left. split; [reflexivity|]. intros i Hi.
        destruct (Z_lt_le_dec i mid) as [Hlt|Hge]; [apply Hnone; lia|].
        pose proof (Hsorted (Z.to_nat mid) (Z.to_nat i) ltac:(lia)). lia.
      * right. split; [lia | exact Hfound].
    + rewrite int_add_small
        by (unfold in_int_range; rewrite INT_MIN_value, INT_MAX_value; lia).
      destruct (IH d (mid + 1) right ltac:(lia) ltac:(lia) ltac:(lia) ltac:(lia))
        as [r [-> Hres]].
      exists r. split; [reflexivity|].
      destruct Hres as [[-> Hnone] | [Hrange Hfound]].
      * left. split; [reflexivity|]. intros i Hi.
        destruct (Z_le_gt_dec i mid) as [Hle'|Hgt']; [|apply Hnone; lia].
        pose proof (Hsorted (Z.to_nat i) (Z.to_nat mid) ltac:(lia)). lia.
      * right. split; [lia | exact Hfound].
Qed.

(** X2.  On a sorted array of at most 2^30 cells, [binary_search_recursive]
    returns an index of [key] inside [left, right] when there is one,
    and -1 when there is none. *)
Theorem binary_search_finds_key
  (st : store) (base : Z) (xs : list Z) (left right key : Z) (depth : nat) :
  array_at st base xs ->
  base + Z.of_nat (List.length xs) <= INT_MAX ->
  Z.of_nat (List.length xs) <= 2 ^ 30 ->
  sorted xs ->
  0 <= left ->
  right < Z.of_nat (List.length xs) ->
  (Z.to_nat (right - left + 1) < depth)%nat ->
  exists r,
    Program62.binary_search_recursive depth st
      (array_pointer base (Z.of_nat (List.length xs))) left right key = Ok r /\
    ((r = -1 /\
      forall i, left <= i <= right -> nth (Z.to_nat i) xs 0 <> key) \/
     (left <= r <= right /\ nth (Z.to_nat r) xs 0 = key)).
Proof.
  intros Harr Hmax Hlen Hsorted Hl Hr Hd.
  apply (binary_search_spec st base xs key (Z.to_nat (right - left + 1)));
    try assumption. lia.
Qed.

Lemma binary_search_finds_key_witness :
  exists r,
    Program62.binary_search_recursive 6 [1; 3; 5; 7; 9]
      (array_pointer 0 5) 0 4 5 = Ok r /\
    ((r = -1 /\
      forall i, 0 <= i <= 4 -> nth (Z.to_nat i) [1; 3; 5; 7; 9] 0 <> 5) \/
     (0 <= r <= 4 /\ nth (Z.to_nat r) [1; 3; 5; 7; 9] 0 = 5)).
Proof.
  apply (binary_search_finds_key [1; 3; 5; 7; 9] 0 [1; 3; 5; 7; 9] 0 4 5 6).
  - split; [lia|]. intros i Hi. reflexivity.
  - rewrite INT_MAX_value. cbn. lia.
  - cbn. lia.
  - intros i j Hij. cbn [List.length] in Hij.
    assert (j = 0 \/ j = 1 \/ j = 2 \/ j = 3 \/ j = 4)%nat as Hj by lia.
    assert (i = 0 \/ i = 1 \/ i = 2 \/ i = 3 \/ i = 4)%nat as Hi by lia.
    repeat (destruct Hj as [-> | Hj]); try subst j;
      repeat (destruct Hi as [-> | Hi]); try subst i; cbn; lia.
  - lia.
  - cbn. lia.
  - cbn. lia.
Defined.

Lemma int_mod_exact n i :
  in_int_range i -> i <> 0 -> int_mod n i = Ok (Z.rem n i).
Proof.
  intros Hi Hz. unfold int_mod.
  destruct (Z.eqb_spec i 0); [contradiction|].
  rewrite wrap_small by (apply rem_in_range; assumption). reflexivity.
Qed.

(** The loop of [is_prime] from [i] on: 1 when no number of [i, n)
    divides [n], 0 when one does. *)
Lemma is_prime_loop_spec n :
  in_int_range n ->
  forall (r : nat) i steps,
    2 <= i <= n -> i + Z.of_nat r = n -> (r < steps)%nat ->
    (Program68.is_prime_loop steps n i = Ok 1 /\
     forall d, i <= d < n -> ~ Z.divide d n) \/
    (Program68.is_prime_loop steps n i = Ok 0 /\
     exists d, i <= d < n /\ Z.divide d n).
Proof.
  intros Hn. induction r as [|r IH]; intros i steps Hi Hr Hs;
    (destruct steps as [|k]; [lia|]); cbn [Program68.is_prime_loop].
  - destruct (Z.ltb_spec i n); [lia|]. left. split; [reflexivity|]. intros d Hd. lia.
  - destruct (Z.ltb_spec i n); [|lia].
    assert (in_int_range i) as Hir
      by (unfold in_int_range in *; rewrite INT_MIN_value, INT_MAX_value in *; lia).
    rewrite int_mod_exact by (auto; lia).
    destruct (Z.eqb_spec (Z.rem n i) 0) as [Hz|Hnz].
    + right. split; [reflexivity|]. exists i. split; [lia|].
      apply Z.rem_divide; [lia | exact Hz].
    + assert (int_add i 1 = i + 1) as ->.
      { apply int_add_small. unfold in_int_range in *.
        rewrite INT_MIN_value, INT_MAX_value in *. lia. }
      destruct (IH (i + 1) k ltac:(lia) ltac:(lia) ltac:(lia)) as [[-> Hnone] | [-> [d [Hd Hdiv]]]].
      * left. split; [reflexivity|]. intros d Hd Hdiv.
        destruct (Z.eq_dec d i) as [->|Hne].
        -- apply Hnz. apply Z.rem_divide; [lia | exact Hdiv].
        -- apply (Hnone d); [lia | exact Hdiv].
      * right. split; [reflexivity|]. exists d. split; [lia | exact Hdiv].
Qed.

(** X3.  [is_prime(n)] returns 1 when [n] is prime and 0 when it is not, for
    every 32-bit [n], as soon as the loop may take [n] steps. *)
Theorem is_prime_decides_primality (n : Z) (steps depth : nat) :
  in_int_range n ->
  (Z.to_nat n <= steps)%nat ->
  (0 < steps)%nat ->
  (0 < depth)%nat ->
  (prime_number n /\ Program68.is_prime steps depth n = Ok 1) \/
  (~ prime_number n /\ Program68.is_prime steps depth n = Ok 0).
Proof.
  intros Hn Hs Hs0 Hd. destruct depth as [|d]; [lia|].
  unfold Program68.is_prime, prime_number.
  destruct (Z.leb_spec n 1) as [Hle|Hgt].
  - right. split; [lia | reflexivity].
  - destruct (is_prime_loop_spec n Hn (Z.to_nat (n - 2)) 2 steps
                ltac:(lia) ltac:(lia) ltac:(lia)) as [[-> Hnone] | [-> [d' [Hd' Hdiv]]]].
    + left. split; [|reflexivity]. split; [lia|].
      intros d' Hd'. apply Hnone. lia.
    + right. split; [|reflexivity]. intros [_ Hp]. apply (Hp d'); [lia | exact Hdiv].
Qed.

Lemma is_prime_decides_primality_witness :
  (prime_number 17 /\ Program68.is_prime 17 1 17 = Ok 1) \/
  (~ prime_number 17 /\ Program68.is_prime 17 1 17 = Ok 0).
Proof.
  apply (is_prime_decides_primality 17 17 1).
  - unfold in_int_range. rewrite INT_MIN_value, INT_MAX_value. lia.
  - cbn. lia.
  - lia.
  - lia.
Defined.

Lemma decimal_digits_range fuel n d :
  In d (decimal_digits fuel n) -> 0 <= d <= 9.
Proof.
  revert n. induction fuel as [|f IH]; intros n; cbn [decimal_digits];
    [intros []|].
  destruct (Z.leb_spec n 0); [intros []|].
  intros [<- | Hin]; [|apply (IH _ Hin)].
  pose proof (Z.mod_pos_bound n 10 ltac:(lia)). lia.
Qed.

Lemma append_digits_ge ds acc :
  (forall d, In d ds -> 0 <= d <= 9) -> 0 <= acc -> acc <= append_digits ds acc.
Proof.
  unfold append_digits.
  revert acc. induction ds as [|d ds IH]; intros acc Hds Hacc; cbn [fold_left]; [lia|].
  pose proof (Hds d (or_introl eq_refl)).
  apply Z.le_trans with (10 * acc + d); [lia|].
  apply IH; [|lia].
  intros d' Hd'. apply Hds. right. exact Hd'.
Qed.

Lemma reverse_number_loop_spec (fuel : nat) :
  forall n reversed steps,
    0 <= n <= Z.of_nat fuel -> n <= INT_MAX -> 0 <= reversed ->
    append_digits (decimal_digits fuel n) reversed <= INT_MAX ->
    (List.length (decimal_digits fuel n) < steps)%nat ->
    Program67.reverse_number_loop steps n reversed
    = Ok (append_digits (decimal_digits fuel n) reversed).
Proof.
  induction fuel as [|f IH]; intros n reversed steps Hn Hmax Hr Hfit Hs;
    (destruct steps as [|k]; [lia|]);
    cbn [Program67.reverse_number_loop decimal_digits] in *.
  - assert (n = 0) as -> by lia. reflexivity.
  - destruct (Z.leb_spec n 0) as [Hle|Hgt].
    + assert (n = 0) as -> by lia. reflexivity.
    + destruct (Z.eqb_spec n 0) as [|_]; [lia|]. cbn [negb].
      cbn [append_digits fold_left List.length] in *.
      fold (append_digits (decimal_digits f (n / 10)) (10 * reversed + n mod 10)) in *.
      pose proof (Z.mod_pos_bound n 10 ltac:(lia)) as Hmod.
      pose proof (append_digits_ge (decimal_digits f (n / 10))
                    (10 * reversed + n mod 10)
                    (decimal_digits_range f (n / 10)) ltac:(lia)) as Hge.
      assert (0 <= n / 10 < n) as Hdiv.
      { split; [apply Z.div_pos; lia | apply Z.div_lt; lia]. }
      unfold int_mod, int_div. change (10 =? 0) with false. cbv iota.
      rewrite Z.rem_mod_nonneg, Z.quot_div_nonneg by lia.
      rewrite !wrap_small
        by (unfold in_int_range; rewrite INT_MIN_value; lia).
      unfold int_add, int_mul.
      rewrite (wrap_small (reversed * 10))
        by (unfold in_int_range; rewrite INT_MIN_value; lia).
      rewrite wrap_small
        by (unfold in_int_range; rewrite INT_MIN_value; lia).
      replace (reversed * 10 + n mod 10) with (10 * reversed + n mod 10) by lia.
      apply IH; lia.
Qed.

Lemma decimal_digits_length_le fuel n :
  (List.length (decimal_digits fuel n) <= fuel)%nat.
Proof.
  revert n. induction fuel as [|f IH]; intros n; cbn [decimal_digits]; [cbn; lia|].
  destruct (n <=? 0); cbn [List.length]; [lia|]. specialize (IH (n / 10)). lia.
Qed.

(** X4.  [reverse_number(n)] returns the decimal reversal of [n], for every
    [n >= 0] whose reversal is a 32-bit value. *)
Theorem reverse_number_reverses_digits (n : Z) (steps depth : nat) :
  0 <= n <= INT_MAX ->
  decimal_reversal n <= INT_MAX ->
  (List.length (decimal_digits (Z.to_nat n) n) < steps)%nat ->
  (0 < depth)%nat ->
  Program67.reverse_number steps depth n = Ok (decimal_reversal n).
Proof.
  intros Hn Hfit Hs Hd. destruct depth as [|d]; [lia|].
  unfold Program67.reverse_number, decimal_reversal, of_decimal_digits in *.
  apply (reverse_number_loop_spec (Z.to_nat n)); try lia; assumption.
Qed.

Lemma reverse_number_reverses_digits_witness :
  Program67.reverse_number 4 1 123 = Ok (decimal_reversal 123).
Proof.
  apply (reverse_number_reverses_digits 123 4 1).
  - rewrite INT_MAX_value. lia.
  - rewrite INT_MAX_value. vm_compute. discriminate.
  - vm_compute. lia.
  - lia.
Defined.

Lemma ptr_add_array base count i :
  in_int_range (base + i) ->
  ptr_add (array_pointer base count) i = cell_pointer base count i.
Proof.
  intros H. unfold ptr_add, array_pointer, cell_pointer. cbn [p_index p_base p_count].
  rewrite int_add_small by assumption. reflexivity.
Qed.

Lemma ptr_add_cell base count i k :
  in_int_range (base + i + k) ->
  ptr_add (cell_pointer base count i) k = cell_pointer base count (i + k).
Proof.
  intros H. unfold ptr_add, cell_pointer. cbn [p_index p_base p_count].
  rewrite int_add_small by assumption. f_equal. lia.
Qed.

Lemma load_cell_pointer st base xs (k : nat) :
  array_at st base xs ->
  base + Z.of_nat (List.length xs) <= INT_MAX ->
  (k < List.length xs)%nat ->
  load st (cell_pointer base (Z.of_nat (List.length xs)) (Z.of_nat k))
  = Ok (nth k xs 0).
Proof.
  intros Harr Hmax Hk. pose proof Harr as [Hb _].
  rewrite <- ptr_add_array
    by (unfold in_int_range; rewrite INT_MIN_value; lia).
  apply load_array; assumption.
Qed.

Lemma sum_loop_spec st base xs (j : nat) :
  array_at st base xs ->
  base + Z.of_nat (List.length xs) <= INT_MAX ->
  (j <= List.length xs)%nat ->
  forall (r i : nat) total steps, (i + r = j)%nat -> (r < steps)%nat ->
  Program88.sum_loop steps st
    (cell_pointer base (Z.of_nat (List.length xs)) (Z.of_nat i))
    (cell_pointer base (Z.of_nat (List.length xs)) (Z.of_nat j)) total
  = Ok (fold_left int_add (firstn r (skipn i xs)) total).
Proof.
  intros Harr Hmax Hj. pose proof Harr as [Hb _].
  induction r as [|r IH]; intros i total steps Hir Hs;
    (destruct steps as [|k]; [lia|]); cbn [Program88.sum_loop];
    unfold ptr_lt, same_region; cbn [cell_pointer p_index p_base p_count];
    rewrite !Z.eqb_refl; cbn [andb].
  - destruct (Z.ltb_spec (base + Z.of_nat i) (base + Z.of_nat j)); [lia|]. reflexivity.
  - destruct (Z.ltb_spec (base + Z.of_nat i) (base + Z.of_nat j)); [|lia].
    fold (cell_pointer base (Z.of_nat (List.length xs)) (Z.of_nat i)).
    fold (cell_pointer base (Z.of_nat (List.length xs)) (Z.of_nat j)).
    rewrite load_cell_pointer by (auto; lia).
    rewrite ptr_add_cell by (unfold in_int_range; rewrite INT_MIN_value; lia).
    replace (Z.of_nat i + 1) with (Z.of_nat (S i)) by lia.
    rewrite (IH (S i)) by lia.
    rewrite fold_left_skipn by lia. reflexivity.
Qed.

(** X5.  [sum(arr + i, arr + j)] adds the cells [i] to [j - 1] of the array,
    left to right; [arr + j] may be the pointer one past the end. *)
Theorem sum_adds_cells_between
  (st : store) (base : Z) (xs : list Z) (i j : Z) (steps depth : nat) :
  array_at st base xs ->
  base + Z.of_nat (List.length xs) <= INT_MAX ->
  0 <= i <= j ->
  j <= Z.of_nat (List.length xs) ->
  (Z.to_nat (j - i) < steps)%nat ->
  (0 < depth)%nat ->
  let arr := array_pointer base (Z.of_nat (List.length xs)) in
  Program88.sum steps depth st (ptr_add arr i) (ptr_add arr j)
  = Ok (fold_left int_add (firstn (Z.to_nat (j - i)) (skipn (Z.to_nat i) xs)) 0).
Proof.
  intros Harr Hmax Hij Hj Hs Hd arr. subst arr. pose proof Harr as [Hb _].
  destruct depth as [|d]; [lia|]. unfold Program88.sum.
  rewrite !ptr_add_array by (unfold in_int_range; rewrite INT_MIN_value; lia).
  rewrite <- (Z2Nat.id i) at 1 by lia. rewrite <- (Z2Nat.id j) at 1 by lia.
  apply (sum_loop_spec st base xs (Z.to_nat j)); try assumption; lia.
Qed.

Lemma sum_adds_cells_between_witness :
  Program88.sum 4 1 [2; 4; 6]
    (ptr_add (array_pointer 0 3) 0) (ptr_add (array_pointer 0 3) 3)
  = Ok 12.
Proof.
  apply (sum_adds_cells_between [2; 4; 6] 0 [2; 4; 6] 0 3 4 1).
  - split; [lia|]. intros i Hi. reflexivity.
  - rewrite INT_MAX_value. cbn. lia.
  - lia.
  - cbn. lia.
  - cbn. lia.
  - lia.
Defined.

(* ===================================================================== *)
(** * Edge cases, resources and how the functions compose *)
(* ===================================================================== *)

(** What the functions do at the edges of their domains (empty and
    overstated ranges, overflowing results, negative arguments), how much
    stack and how many loop steps they take, and how their results
    combine. *)

Lemma wrap_mul_l a b : wrap (wrap a * b) = wrap (a * b).
Proof. rewrite Z.mul_comm, wrap_mul_r. f_equal. lia. Qed.

Lemma wrap_add_r a b : wrap (a + wrap b) = wrap (a + b).
Proof. rewrite Z.add_comm, wrap_add_l. f_equal. lia. Qed.

Lemma wrap_opp a : wrap (- wrap a) = wrap (- a).
Proof.
  destruct (wrap_spec a) as [k ->].
  replace (- (a + k * int_modulus)) with (- a + (- k) * int_modulus) by lia.
  apply wrap_shift.
Qed.

Lemma wrap_odd z : Z.odd (wrap z) = Z.odd z.
Proof.
  destruct (wrap_spec z) as [k ->]. rewrite int_modulus_value.
  replace (z + k * 4294967296) with (z + 2 * (k * 2147483648)) by lia.
  apply Z.odd_add_mul_2.
Qed.

Lemma effective_exponent_nonnegative exp : 0 <= exp -> effective_exponent exp = exp.
Proof.
  intros H. unfold effective_exponent. destruct (Z.ltb_spec exp 0); [lia | reflexivity].
Qed.

Lemma power_of_nonnegative depth base exp :
  0 <= exp <= INT_MAX -> exp < Z.of_nat depth ->
  Program36.power depth base exp = Ok (wrap (base ^ exp)).
Proof.
  intros Hexp Hd.
  rewrite power_characterised
    by (unfold in_int_range; rewrite INT_MIN_value; lia).
  rewrite effective_exponent_nonnegative by lia.
  destruct (Z.ltb_spec exp (Z.of_nat depth)); [reflexivity | lia].
Qed.

(** X6.  [power(base, a + b)] is the 32-bit product of [power(base, a)] and
    [power(base, b)], overflow included. *)
Theorem power_adds_exponents (depth : nat) (base a b : Z) :
  0 <= a -> 0 <= b -> a + b <= INT_MAX -> a + b < Z.of_nat depth ->
  exists pa pb,
    Program36.power depth base a = Ok pa /\
    Program36.power depth base b = Ok pb /\
    Program36.power depth base (a + b) = Ok (int_mul pa pb).
Proof.
  intros Ha Hb Hmax Hd.
  exists (wrap (base ^ a)), (wrap (base ^ b)).
  rewrite !power_of_nonnegative by lia.
  split; [reflexivity|]. split; [reflexivity|].
  f_equal. unfold int_mul. rewrite wrap_mul_l, wrap_mul_r.
  rewrite Z.pow_add_r by lia. reflexivity.
Qed.

Lemma power_adds_exponents_witness :
  exists pa pb,
    Program36.power 5 3 1 = Ok pa /\
    Program36.power 5 3 3 = Ok pb /\
    Program36.power 5 3 (1 + 3) = Ok (int_mul pa pb).
Proof.
  apply (power_adds_exponents 5 3 1 3).
  - lia.
  - lia.
  - rewrite INT_MAX_value. lia.
  - cbn. lia.
Defined.

(** X7.  Overflow is silent: for an even base and an exponent of 32 or more
    [power] returns 0, and for an odd base it returns an odd number,
    never 0. *)
Theorem power_overflows_by_parity (depth : nat) (base exp : Z) :
  0 <= exp <= INT_MAX -> exp < Z.of_nat depth ->
  (Z.even base = true -> 32 <= exp ->
   Program36.power depth base exp = Ok 0) /\
  (Z.odd base = true ->
   exists r, Program36.power depth base exp = Ok r /\ Z.odd r = true /\ r <> 0).
Proof.
  intros Hexp Hd. rewrite power_of_nonnegative by assumption. split.
  - intros Heven Hbig. f_equal.
    apply Z.even_spec in Heven. destruct Heven as [k ->].
    rewrite Z.pow_mul_l.
    replace exp with (32 + (exp - 32)) at 1 by lia.
    rewrite Z.pow_add_r by lia. change (2 ^ 32) with int_modulus.
    replace (int_modulus * 2 ^ (exp - 32) * k ^ exp)
      with ((2 ^ (exp - 32) * k ^ exp) * int_modulus) by lia.
    apply wrap_multiple.
  - intros Hodd. exists (wrap (base ^ exp)).
    assert (Z.odd (wrap (base ^ exp)) = true) as Hr.
    { rewrite wrap_odd.
      destruct (Z.eq_dec exp 0) as [->|Hnz]; [reflexivity|].
      rewrite Z.odd_pow by lia. exact Hodd. }
    split; [reflexivity|]. split; [exact Hr|].
    intros Hz. rewrite Hz in Hr. discriminate.
Qed.

Lemma power_overflows_by_parity_witness :
  (Z.even 6 = true -> 32 <= 40 -> Program36.power 41 6 40 = Ok 0) /\
  (Z.odd 6 = true ->
   exists r, Program36.power 41 6 40 = Ok r /\ Z.odd r = true /\ r <> 0).
Proof.
  apply (power_overflows_by_parity 41 6 40).
  - rewrite INT_MAX_value. lia.
  - cbn. lia.
Defined.

(** The midpoint splits the interval into halves: neither side is
    larger than half of the whole. *)
Lemma midpoint_halves left right :
  - 2 ^ 30 <= left -> right <= 2 ^ 30 - 1 -> left <= right ->
  exists mid,
    int_div (int_add left right) 2 = Ok mid /\
    left <= mid <= right /\
    left + right - 1 <= 2 * mid <= left + right + 1.
Proof.
  intros Hl Hr Hlr. exists (Z.quot (left + right) 2).
  assert (in_int_range (left + right)) as Hsum
    by (unfold in_int_range; rewrite INT_MIN_value, INT_MAX_value; lia).
  rewrite int_add_small by assumption.
  unfold int_div. change (2 =? 0) with false. cbv iota.
  pose proof (Z.quot_rem' (left + right) 2) as Hqr.
  pose proof (Z.rem_bound_abs (left + right) 2 ltac:(lia)) as Hrb.
  assert (left <= Z.quot (left + right) 2 <= right) as Hmid.
  { destruct (Z.le_ge_cases 0 (left + right)).
    - pose proof (Z.rem_nonneg (left + right) 2 ltac:(lia) ltac:(lia)). lia.
    - pose proof (Z.rem_nonpos (left + right) 2 ltac:(lia) ltac:(lia)). lia. }
  rewrite wrap_small by (unfold in_int_range; rewrite INT_MIN_value, INT_MAX_value; lia).
  split; [reflexivity|]. split; [exact Hmid | lia].
Qed.

(** X8.  The recursion of [binary_search_recursive] is logarithmic: an
    interval of fewer than [2^d] cells is searched within [d + 1]
    activation records, whatever the array holds. *)
Theorem binary_search_depth_is_logarithmic
  (d depth : nat) (st : store) (arr : pointer) (left right key : Z) :
  - 2 ^ 30 <= left ->
  right <= 2 ^ 30 - 1 ->
  right - left + 1 < 2 ^ Z.of_nat d ->
  (d < depth)%nat ->
  (exists v,
      Program62.binary_search_recursive depth st arr left right key = Ok v) \/
  Program62.binary_search_recursive depth st arr left right key
  = Err OutOfBounds.
Proof.
  revert depth left right.
  induction d as [|d IH]; intros depth left right Hl Hr Hw Hd;
    (destruct depth as [|k]; [lia|]); cbn [Program62.binary_search_recursive].
  - change (2 ^ Z.of_nat 0) with 1 in Hw.
    destruct (Z.gtb_spec left right); [left; eexists; reflexivity | lia].
  - destruct (Z.gtb_spec left right); [left; eexists; reflexivity |].
    rewrite Nat2Z.inj_succ, Z.pow_succ_r in Hw by lia.
    destruct (midpoint_halves left right Hl Hr ltac:(lia)) as [mid [-> [Hmid Hhalf]]].
    destruct (load st (ptr_add arr mid)) as [a|e] eqn:Hload;
      [|right; f_equal; apply (load_error _ _ _ Hload)].
    destruct (a =? key); [left; eexists; reflexivity|].
    destruct (a >? key).
    + rewrite int_sub_small
        by (unfold in_int_range; rewrite INT_MIN_value, INT_MAX_value; lia).
      apply IH; lia.
    + rewrite int_add_small
        by (unfold in_int_range; rewrite INT_MIN_value, INT_MAX_value; lia).
      apply IH; lia.
Qed.

Lemma binary_search_depth_is_logarithmic_witness :
  (exists v,
      Program62.binary_search_recursive 4 [1; 3; 5; 7; 9]
        (array_pointer 0 5) 0 4 8 = Ok v) \/
  Program62.binary_search_recursive 4 [1; 3; 5; 7; 9]
    (array_pointer 0 5) 0 4 8 = Err OutOfBounds.
Proof.
  apply (binary_search_depth_is_logarithmic 3 4 [1; 3; 5; 7; 9]
           (array_pointer 0 5) 0 4 8).
  - lia.
  - lia.
  - cbn. lia.
  - lia.
Defined.

Lemma binary_search_sound_within st base xs key (w : nat) :
  array_at st base xs ->
  base + Z.of_nat (List.length xs) <= INT_MAX ->
  Z.of_nat (List.length xs) <= 2 ^ 30 ->
  forall depth left right,
    0 <= left -> right < Z.of_nat (List.length xs) ->
    right - left + 1 <= Z.of_nat w -> (w < depth)%nat ->
    exists r,
      Program62.binary_search_recursive depth st
        (array_pointer base (Z.of_nat (List.length xs))) left right key = Ok r /\
      (r = -1 \/ (left <= r <= right /\ nth (Z.to_nat r) xs 0 = key)).
Proof.
  intros Harr Hmax Hlen.
  induction w as [|w IH]; intros depth left right Hl Hr Hw Hd;
    (destruct depth as [|d]; [lia|]); cbn [Program62.binary_search_recursive].
  - destruct (Z.gtb_spec left right); [|lia].
    exists (-1). split; [reflexivity | left; reflexivity].
  - destruct (Z.gtb_spec left right).
    { exists (-1). split; [reflexivity | left; reflexivity]. }
    destruct (midpoint_between left right ltac:(lia) ltac:(lia) ltac:(lia))
      as [mid [-> Hmid]].
    rewrite load_array_Z by (auto; lia).
    destruct (Z.eqb_spec (nth (Z.to_nat mid) xs 0) key) as [Heq|Hne].
    { exists mid. split; [reflexivity|]. right. split; [lia | exact Heq]. }
    destruct (nth (Z.to_nat mid) xs 0 >? key).
    + rewrite int_sub_small
        by (unfold in_int_range; rewrite INT_MIN_value, INT_MAX_value; lia).
      destruct (IH d left (mid - 1) ltac:(lia) ltac:(lia) ltac:(lia) ltac:(lia))
        as [r [-> Hres]].
      exists r. split; [reflexivity|].
      destruct Hres as [-> | [Hrange Hfound]]; [left; reflexivity|].
      right. split; [lia | exact Hfound].
    + rewrite int_add_small
        by (unfold in_int_range; rewrite INT_MIN_value, INT_MAX_value; lia).
      destruct (IH d (mid + 1) right ltac:(lia) ltac:(lia) ltac:(lia) ltac:(lia))
        as [r [-> Hres]].
      exists r. split; [reflexivity|].
      destruct Hres as [-> | [Hrange Hfound]]; [left; reflexivity|].
      right. split; [lia | exact Hfound].
Qed.

(** X9.  Whatever the order of the array, [binary_search_recursive] stays
    inside [left, right] and never reports a wrong index: its result is
    -1 or an index of the interval whose cell holds [key]. *)
Theorem binary_search_never_reports_a_wrong_index
  (st : store) (base : Z) (xs : list Z) (left right key : Z) (depth : nat) :
  array_at st base xs ->
  base + Z.of_nat (List.length xs) <= INT_MAX ->
  Z.of_nat (List.length xs) <= 2 ^ 30 ->
  0 <= left ->
  right < Z.of_nat (List.length xs) ->
  (Z.to_nat (right - left + 1) < depth)%nat ->
  exists r,
    Program62.binary_search_recursive depth st
      (array_pointer base (Z.of_nat (List.length xs))) left right key = Ok r /\
    (r = -1 \/ (left <= r <= right /\ nth (Z.to_nat r) xs 0 = key)).
Proof.
  intros Harr Hmax Hlen Hl Hr Hd.
  apply (binary_search_sound_within st base xs key (Z.to_nat (right - left + 1)));
    try assumption. lia.
Qed.

Lemma binary_search_never_reports_a_wrong_index_witness :
  exists r,
    Program62.binary_search_recursive 6 [9; 1; 7; 3; 5]
      (array_pointer 0 5) 0 4 9 = Ok r /\
    (r = -1 \/ (0 <= r <= 4 /\ nth (Z.to_nat r) [9; 1; 7; 3; 5] 0 = 9)).
Proof.
  apply (binary_search_never_reports_a_wrong_index
           [9; 1; 7; 3; 5] 0 [9; 1; 7; 3; 5] 0 4 9 6).
  - split; [lia|]. intros i Hi. reflexivity.
  - rewrite INT_MAX_value. cbn. lia.
  - cbn. lia.
  - lia.
  - cbn. lia.
  - cbn. lia.
Defined.

Lemma first_index_absent xs key s :
  (forall i : nat, (i < List.length xs)%nat -> nth i xs 0 <> key) ->
  first_index xs key s = -1.
Proof.
  revert s. induction xs as [|x xs IH]; intros s Hnone; cbn [first_index];
    [reflexivity|].
  destruct (Z.eqb_spec x key) as [Heq|_].
  - exfalso. apply (Hnone 0%nat); [cbn; lia | exact Heq].
  - apply IH. intros i Hi. apply (Hnone (S i)). cbn. lia.
Qed.

Lemma first_index_present xs key s (k : nat) :
  (k < List.length xs)%nat ->
  nth k xs 0 = key ->
  (forall i : nat, (i < k)%nat -> nth i xs 0 <> key) ->
  first_index xs key s = s + Z.of_nat k.
Proof.
  revert s k. induction xs as [|x xs IH]; intros s k Hk Hkey Hfirst;
    cbn [List.length] in Hk; [lia|]. cbn [first_index].
  destruct k as [|k].
  - cbn [nth] in Hkey. destruct (Z.eqb_spec x key); [lia | contradiction].
  - destruct (Z.eqb_spec x key) as [Heq|_].
    + exfalso. apply (Hfirst 0%nat); [lia | exact Heq].
    + rewrite (IH (s + 1) k); [lia | lia | exact Hkey |].
      intros i Hi. apply (Hfirst (S i)). lia.
Qed.

Lemma increasing_sorted xs : increasing xs -> sorted xs.
Proof.
  intros Hinc i j Hij. destruct (Nat.eq_dec i j) as [->|Hne]; [lia|].
  pose proof (Hinc i j ltac:(lia)). lia.
Qed.

(** X10.  On a strictly increasing array the two searches agree:
    [linear_search(arr, n, key)] and
    [binary_search_recursive(arr, 0, n - 1, key)] return the same index,
    or both -1. *)
Theorem searches_agree_on_increasing_arrays
  (st : store) (base : Z) (xs : list Z) (key : Z) (steps depth : nat) :
  array_at st base xs ->
  base + Z.of_nat (List.length xs) <= INT_MAX ->
  Z.of_nat (List.length xs) <= 2 ^ 30 ->
  increasing xs ->
  (List.length xs < steps)%nat ->
  (List.length xs < depth)%nat ->
  let arr := array_pointer base (Z.of_nat (List.length xs)) in
  let n := Z.of_nat (List.length xs) in
  Program61.linear_search steps depth st arr n key
  = Program62.binary_search_recursive depth st arr 0 (n - 1) key.
Proof.
  intros Harr Hmax Hlen Hinc Hs Hd arr n. subst arr n.
  destruct (binary_search_spec st base xs key (List.length xs) Harr Hmax Hlen
              (increasing_sorted xs Hinc) depth 0
              (Z.of_nat (List.length xs) - 1)
              ltac:(lia) ltac:(lia) ltac:(lia) Hd) as [r [-> Hres]].
  destruct depth as [|d]; [lia|]. unfold Program61.linear_search.
  pose proof (linear_search_loop_spec st base xs (List.length xs) key Harr Hmax
                ltac:(lia) (List.length xs) 0%nat steps ltac:(lia) Hs) as Hlin.
  change (Z.of_nat 0) with 0 in Hlin. rewrite Hlin. cbn [skipn].
  rewrite firstn_all. f_equal.
  destruct Hres as [[-> Hnone] | [Hrange Hfound]].
  - apply first_index_absent. intros i Hi.
    rewrite <- (Nat2Z.id i). apply Hnone. lia.
  - rewrite (first_index_present xs key 0 (Z.to_nat r)); [lia | lia | exact Hfound |].
    intros i Hi. pose proof (Hinc i (Z.to_nat r) ltac:(lia)). lia.
Qed.

Lemma searches_agree_on_increasing_arrays_witness :
  Program61.linear_search 6 6 [1; 3; 5; 7; 9] (array_pointer 0 5) 5 7
  = Program62.binary_search_recursive 6 [1; 3; 5; 7; 9]
      (array_pointer 0 5) 0 (5 - 1) 7.
Proof.
  apply (searches_agree_on_increasing_arrays
           [1; 3; 5; 7; 9] 0 [1; 3; 5; 7; 9] 7 6 6).
  - split; [lia|]. intros i Hi. reflexivity.
  - rewrite INT_MAX_value. cbn. lia.
  - cbn. lia.
  - intros i j Hij. cbn [List.length] in Hij.
    assert (j = 1 \/ j = 2 \/ j = 3 \/ j = 4)%nat as Hj by lia.
    assert (i = 0 \/ i = 1 \/ i = 2 \/ i = 3)%nat as Hi by lia.
    repeat (destruct Hj as [-> | Hj]); try subst j;
      repeat (destruct Hi as [-> | Hi]); try subst i; cbn; lia.
  - cbn. lia.
  - cbn. lia.
Defined.

(** The pointer to a cell at or after the end of its array is outside
    it, also when its index wraps around. *)
Lemma ptr_add_beyond_outside base count k :
  0 <= base -> 0 <= count -> base + count <= INT_MAX ->
  count <= k <= INT_MAX ->
  outside (ptr_add (array_pointer base count) k).
Proof.
  rewrite INT_MAX_value. intros Hb Hc Hmax Hk.
  unfold outside, ptr_add, array_pointer, int_add, wrap.
  cbn [p_index p_base p_count].
  rewrite INT_MIN_value, int_modulus_value.
  destruct (Z_le_gt_dec (base + k) 2147483647).
  - rewrite Z.mod_small by lia. lia.
  - left.
    replace (base + k - -2147483648)
      with ((base + k - 2147483648) + 1 * 4294967296) by lia.
    rewrite Z_mod_plus_full. rewrite Z.mod_small by lia. lia.
Qed.

Lemma linear_search_loop_beyond st base xs n key :
  array_at st base xs ->
  base + Z.of_nat (List.length xs) <= INT_MAX ->
  Z.of_nat (List.length xs) < n ->
  forall (r i : nat) steps,
    (i + r = List.length xs)%nat -> (r < steps)%nat ->
    Program61.linear_search_loop steps st
      (array_pointer base (Z.of_nat (List.length xs))) n key (Z.of_nat i)
    = if first_index (skipn i xs) key (Z.of_nat i) =? -1
      then Err OutOfBounds
      else Ok (first_index (skipn i xs) key (Z.of_nat i)).
Proof.
  intros Harr Hmax Hn. pose proof Harr as [Hb _].
  induction r as [|r IH]; intros i steps Hir Hs;
    (destruct steps as [|k]; [lia|]); cbn [Program61.linear_search_loop];
    (destruct (Z.ltb_spec (Z.of_nat i) n); [|lia]).
  - rewrite load_outside
      by (apply ptr_add_beyond_outside; rewrite ?INT_MAX_value in *; lia).
    rewrite skipn_all2 by lia. reflexivity.
  - rewrite load_array by (auto; lia).
    rewrite (skipn_nth_cons xs i) by lia. cbn [first_index].
    destruct (nth i xs 0 =? key).
    + destruct (Z.eqb_spec (Z.of_nat i) (-1)); [lia | reflexivity].
    + assert (int_add (Z.of_nat i) 1 = Z.of_nat (S i)) as ->.
      { rewrite int_add_small; unfold in_int_range; rewrite ?INT_MIN_value; lia. }
      rewrite (IH (S i)) by lia.
      replace (Z.of_nat i + 1) with (Z.of_nat (S i)) by lia. reflexivity.
Qed.

(** X11.  An overstated length: with [n] larger than the array,
    [linear_search] still returns the first index of a key that the
    array holds, and runs into [OutOfBounds] at [arr[length]] when the
    key is absent. *)
Theorem linear_search_beyond_the_array
  (st : store) (base : Z) (xs : list Z) (n key : Z) (steps depth : nat) :
  array_at st base xs ->
  base + Z.of_nat (List.length xs) <= INT_MAX ->
  Z.of_nat (List.length xs) < n ->
  (List.length xs < steps)%nat ->
  (0 < depth)%nat ->
  Program61.linear_search steps depth st
    (array_pointer base (Z.of_nat (List.length xs))) n key
  = if first_index xs key 0 =? -1
    then Err OutOfBounds
    else Ok (first_index xs key 0).
Proof.
  intros Harr Hmax Hn Hs Hd. destruct depth as [|d]; [lia|].
  unfold Program61.linear_search.
  apply (linear_search_loop_beyond st base xs n key Harr Hmax Hn
           (List.length xs) 0%nat steps); lia.
Qed.

Lemma linear_search_beyond_the_array_witness :
  Program61.linear_search 6 1 [10; 20; 30; 40; 50] (array_pointer 0 5) 9 35
  = if first_index [10; 20; 30; 40; 50] 35 0 =? -1
    then Err OutOfBounds
    else Ok (first_index [10; 20; 30; 40; 50] 35 0).
Proof.
  apply (linear_search_beyond_the_array [10; 20; 30; 40; 50] 0
           [10; 20; 30; 40; 50] 9 35 6 1).
  - split; [lia|]. intros i Hi. reflexivity.
  - rewrite INT_MAX_value. cbn. lia.
  - cbn. lia.
  - cbn. lia.
  - lia.
Defined.

(** For an interval of non-negative indices the midpoint is the floor of
    the mean. *)
Lemma midpoint_floor left right :
  0 <= left -> right <= 2 ^ 30 - 1 -> left <= right ->
  exists mid,
    int_div (int_add left right) 2 = Ok mid /\
    left + right - 1 <= 2 * mid <= left + right.
Proof.
  intros Hl Hr Hlr. exists (Z.quot (left + right) 2).
  assert (in_int_range (left + right)) as Hsum
    by (unfold in_int_range; rewrite INT_MIN_value, INT_MAX_value; lia).
  rewrite int_add_small by assumption.
  unfold int_div. change (2 =? 0) with false. cbv iota.
  pose proof (Z.quot_rem' (left + right) 2) as Hqr.
  pose proof (Z.rem_bound_abs (left + right) 2 ltac:(lia)) as Hrb.
  pose proof (Z.rem_nonneg (left + right) 2 ltac:(lia) ltac:(lia)) as Hnn.
  rewrite wrap_small by (unfold in_int_range; rewrite INT_MIN_value, INT_MAX_value; lia).
  split; [reflexivity | lia].
Qed.

Lemma binary_search_to_the_length st base xs key (w : nat) :
  array_at st base xs ->
  base + Z.of_nat (List.length xs) <= INT_MAX ->
  Z.of_nat (List.length xs) <= 2 ^ 30 - 1 ->
  sorted xs ->
  forall depth left,
    0 <= left <= Z.of_nat (List.length xs) ->
    Z.of_nat (List.length xs) - left + 1 <= Z.of_nat w -> (w < depth)%nat ->
    let len := Z.of_nat (List.length xs) in
    let search :=
      Program62.binary_search_recursive depth st (array_pointer base len)
        left len key in
    (exists r, search = Ok r /\ left <= r < len /\ nth (Z.to_nat r) xs 0 = key) \/
    (search = Ok (-1) /\
     (forall i, left <= i < len -> nth (Z.to_nat i) xs 0 <> key) /\
     (exists i, left <= i < len /\ key < nth (Z.to_nat i) xs 0)) \/
    (search = Err OutOfBounds /\
     forall i, left <= i < len -> nth (Z.to_nat i) xs 0 < key).
Proof.
  intros Harr Hmax Hlen Hsorted. pose proof Harr as [Hb _].
  induction w as [|w IH]; intros depth left Hl Hw Hd len search;
    subst len search; [lia|].
  destruct depth as [|d]; [lia|]. cbn [Program62.binary_search_recursive].
  destruct (Z.gtb_spec left (Z.of_nat (List.length xs))); [lia|].
  destruct (midpoint_floor left (Z.of_nat (List.length xs))
              ltac:(lia) ltac:(lia) ltac:(lia)) as [mid [-> Hmid]].
  destruct (Z.eq_dec mid (Z.of_nat (List.length xs))) as [Hend|Hin].
  - right. right.
    rewrite load_outside
      by (apply ptr_add_beyond_outside; rewrite ?INT_MAX_value in *; lia).
    split; [reflexivity|]. intros i Hi. lia.
  - rewrite load_array_Z by (auto; lia).
    destruct (Z.eqb_spec (nth (Z.to_nat mid) xs 0) key) as [Heq|Hne].
    { left. exists mid. split; [reflexivity|]. split; [lia | exact Heq]. }
    destruct (Z.gtb_spec (nth (Z.to_nat mid) xs 0) key) as [Hgt|Hle].
    + rewrite int_sub_small
        by (unfold in_int_range; rewrite INT_MIN_value, INT_MAX_value; lia).
      destruct (binary_search_spec st base xs key w Harr Hmax ltac:(lia) Hsorted
                  d left (mid - 1) ltac:(lia) ltac:(lia) ltac:(lia) ltac:(lia))
        as [r [-> Hres]].
      destruct Hres as [[-> Hnone] | [Hrange Hfound]].
      * right. left. split; [reflexivity|]. split.
        -- intros i Hi.
           destruct (Z_lt_le_dec i mid) as [Hlt|Hge]; [apply Hnone; lia|].
           pose proof (Hsorted (Z.to_nat mid) (Z.to_nat i) ltac:(lia)). lia.
        -- exists mid. split; [lia | lia].
      * left. exists r. split; [reflexivity|]. split; [lia | exact Hfound].
    + rewrite int_add_small
        by (unfold in_int_range; rewrite INT_MIN_value, INT_MAX_value; lia).
      assert (forall i, left <= i <= mid -> nth (Z.to_nat i) xs 0 < key) as Hbelow.
      { intros i Hi.
        pose proof (Hsorted (Z.to_nat i) (Z.to_nat mid) ltac:(lia)). lia. }
      destruct (IH d (mid + 1) ltac:(lia) ltac:(lia) ltac:(lia))
        as [[r [-> [Hrange Hfound]]] | [[-> [Hnone Hsome]] | [-> Hall]]].
      * left. exists r. split; [reflexivity|]. split; [lia | exact Hfound].
      * right. left. split; [reflexivity|]. split.
        -- intros i Hi.
           destruct (Z_le_gt_dec i mid) as [Hle'|Hgt'];
             [pose proof (Hbelow i ltac:(lia)); lia | apply Hnone; lia].
        -- destruct Hsome as [i [Hi Hkey]]. exists i. split; [lia | exact Hkey].
      * right. right. split; [reflexivity|]. intros i Hi.
        destruct (Z_le_gt_dec i mid) as [Hle'|Hgt'];
          [apply Hbelow; lia | apply Hall; lia].
Qed.

(** X12.  The length passed for the last index, as in
    [binary_search_recursive(arr, 0, n, key)] on a sorted array of [n]
    cells: a key of the array is still found, an absent key below some
    cell still gives -1, and a key above every cell makes the search read
    [arr[n]], which is [OutOfBounds]. *)
Theorem binary_search_to_the_length_of_the_array
  (st : store) (base : Z) (xs : list Z) (key : Z) (depth : nat) :
  array_at st base xs ->
  base + Z.of_nat (List.length xs) <= INT_MAX ->
  Z.of_nat (List.length xs) <= 2 ^ 30 - 1 ->
  sorted xs ->
  (S (List.length xs) < depth)%nat ->
  let n := Z.of_nat (List.length xs) in
  let search :=
    Program62.binary_search_recursive depth st (array_pointer base n) 0 n key in
  (exists r, search = Ok r /\ 0 <= r < n /\ nth (Z.to_nat r) xs 0 = key) \/
  (search = Ok (-1) /\
   (forall i, 0 <= i < n -> nth (Z.to_nat i) xs 0 <> key) /\
   (exists i, 0 <= i < n /\ key < nth (Z.to_nat i) xs 0)) \/
  (search = Err OutOfBounds /\
   forall i, 0 <= i < n -> nth (Z.to_nat i) xs 0 < key).
Proof.
  intros Harr Hmax Hlen Hsorted Hd.
  apply (binary_search_to_the_length st base xs key (S (List.length xs)));
    try assumption; lia.
Qed.

Lemma binary_search_to_the_length_of_the_array_witness :
  let n := Z.of_nat (List.length [1; 3; 5; 7; 9]) in
  let search :=
    Program62.binary_search_recursive 7 [1; 3; 5; 7; 9]
      (array_pointer 0 n) 0 n 11 in
  (exists r, search = Ok r /\ 0 <= r < n /\
             nth (Z.to_nat r) [1; 3; 5; 7; 9] 0 = 11) \/
  (search = Ok (-1) /\
   (forall i, 0 <= i < n -> nth (Z.to_nat i) [1; 3; 5; 7; 9] 0 <> 11) /\
   (exists i, 0 <= i < n /\ 11 < nth (Z.to_nat i) [1; 3; 5; 7; 9] 0)) \/
  (search = Err OutOfBounds /\
   forall i, 0 <= i < n -> nth (Z.to_nat i) [1; 3; 5; 7; 9] 0 < 11).
Proof.
  apply (binary_search_to_the_length_of_the_array
           [1; 3; 5; 7; 9] 0 [1; 3; 5; 7; 9] 11 7).
  - split; [lia|]. intros i Hi. reflexivity.
  - rewrite INT_MAX_value. cbn. lia.
  - cbn. lia.
  - intros i j Hij. cbn [List.length] in Hij.
    assert (j = 0 \/ j = 1 \/ j = 2 \/ j = 3 \/ j = 4)%nat as Hj by lia.
    assert (i = 0 \/ i = 1 \/ i = 2 \/ i = 3 \/ i = 4)%nat as Hi by lia.
    repeat (destruct Hj as [-> | Hj]); try subst j;
      repeat (destruct Hi as [-> | Hi]); try subst i; cbn; lia.
  - cbn. lia.
Defined.

Lemma int_add_assoc a b c : int_add (int_add a b) c = int_add a (int_add b c).
Proof. unfold int_add. rewrite wrap_add_l, wrap_add_r. f_equal. lia. Qed.

Lemma int_add_0_r a : in_int_range a -> int_add a 0 = a.
Proof. intros H. unfold int_add. rewrite Z.add_0_r. apply wrap_small, H. Qed.

Lemma fold_int_add_range l t :
  in_int_range t -> in_int_range (fold_left int_add l t).
Proof.
  revert t. induction l as [|x l IH]; intros t Ht; cbn [fold_left]; [exact Ht|].
  apply IH, wrap_range.
Qed.

Lemma fold_int_add_from l t :
  in_int_range t ->
  fold_left int_add l t = int_add t (fold_left int_add l 0).
Proof.
  revert t. induction l as [|x l IH]; intros t Ht; cbn [fold_left].
  - symmetry. apply int_add_0_r, Ht.
  - rewrite IH by apply wrap_range.
    rewrite (IH (int_add 0 x)) by apply wrap_range.
    rewrite <- !int_add_assoc. rewrite (int_add_0_r t Ht). reflexivity.
Qed.

Lemma firstn_plus (l : list Z) (a b : nat) :
  firstn (a + b) l = firstn a l ++ firstn b (skipn a l).
Proof.
  revert l. induction a as [|a IH]; intros l; [reflexivity|].
  destruct l as [|x l]; [cbn; rewrite firstn_nil; reflexivity|].
  cbn [Nat.add firstn skipn app]. rewrite IH. reflexivity.
Qed.

Lemma sum_between_splits xs i j k :
  0 <= i <= j -> j <= k ->
  sum_between xs i k = int_add (sum_between xs i j) (sum_between xs j k).
Proof.
  intros Hij Hjk. unfold sum_between.
  replace (Z.to_nat (k - i)) with (Z.to_nat (j - i) + Z.to_nat (k - j))%nat by lia.
  rewrite firstn_plus, fold_left_app, skipn_skipn.
  replace (Z.to_nat (j - i) + Z.to_nat i)%nat with (Z.to_nat j) by lia.
  apply fold_int_add_from, fold_int_add_range.
  unfold in_int_range. rewrite INT_MIN_value, INT_MAX_value. lia.
Qed.

Lemma sum_spec st base xs i j steps depth :
  array_at st base xs ->
  base + Z.of_nat (List.length xs) <= INT_MAX ->
  0 <= i <= j ->
  j <= Z.of_nat (List.length xs) ->
  (Z.to_nat (j - i) < steps)%nat ->
  (0 < depth)%nat ->
  Program88.sum steps depth st
    (ptr_add (array_pointer base (Z.of_nat (List.length xs))) i)
    (ptr_add (array_pointer base (Z.of_nat (List.length xs))) j)
  = Ok (sum_between xs i j).
Proof.
  intros Harr Hmax Hij Hj Hs Hd. pose proof Harr as [Hb _].
  destruct depth as [|d]; [lia|]. unfold Program88.sum, sum_between.
  rewrite !ptr_add_array by (unfold in_int_range; rewrite INT_MIN_value; lia).
  rewrite <- (Z2Nat.id i) at 1 by lia. rewrite <- (Z2Nat.id j) at 1 by lia.
  apply (sum_loop_spec st base xs (Z.to_nat j)); try assumption; lia.
Qed.

Lemma ptr_add_zero base count :
  in_int_range base ->
  ptr_add (array_pointer base count) 0 = array_pointer base count.
Proof.
  intros H. unfold ptr_add, array_pointer. cbn [p_index p_base p_count].
  rewrite int_add_0_r by assumption. reflexivity.
Qed.

(** X13.  The recursive sum of program63 and the pointer walk of
    program88 compute the same value: [sum_recursive(arr, n)] equals
    [sum(arr, arr + n)], overflow included. *)
Theorem recursive_sum_matches_pointer_sum
  (st : store) (base : Z) (xs : list Z) (n : Z) (steps depth depth' : nat) :
  array_at st base xs ->
  base + Z.of_nat (List.length xs) <= INT_MAX ->
  0 <= n <= Z.of_nat (List.length xs) ->
  (Z.to_nat n < depth)%nat ->
  (Z.to_nat n < steps)%nat ->
  (0 < depth')%nat ->
  let arr := array_pointer base (Z.of_nat (List.length xs)) in
  Program63.sum_recursive depth st arr n
  = Program88.sum steps depth' st arr (ptr_add arr n).
Proof.
  intros Harr Hmax Hn Hd Hs Hd' arr. subst arr. pose proof Harr as [Hb _].
  rewrite <- (ptr_add_zero base (Z.of_nat (List.length xs))) at 2
    by (unfold in_int_range; rewrite INT_MIN_value; lia).
  rewrite sum_spec by (try assumption; try lia; rewrite Z.sub_0_r; exact Hs).
  rewrite <- (Z2Nat.id n) at 1 by lia.
  rewrite (sum_recursive_spec st base xs (Z.to_nat n)) by (auto; lia).
  unfold sum_left_to_right, sum_between.
  rewrite Z.sub_0_r, Z2Nat.id by lia. reflexivity.
Qed.

Lemma recursive_sum_matches_pointer_sum_witness :
  Program63.sum_recursive 5 [1; 2; 3; 4] (array_pointer 0 4) 3
  = Program88.sum 5 1 [1; 2; 3; 4] (array_pointer 0 4)
      (ptr_add (array_pointer 0 4) 3).
Proof.
  apply (recursive_sum_matches_pointer_sum [1; 2; 3; 4] 0 [1; 2; 3; 4] 3 5 5 1).
  - split; [lia|]. intros i Hi. reflexivity.
  - rewrite INT_MAX_value. cbn. lia.
  - cbn. lia.
  - cbn. lia.
  - cbn. lia.
  - lia.
Defined.

(** X14.  Sums of adjacent ranges add up: [sum(arr + i, arr + k)] is the
    32-bit sum of [sum(arr + i, arr + j)] and [sum(arr + j, arr + k)]
    for every [j] between [i] and [k]. *)
Theorem sum_of_adjacent_ranges
  (st : store) (base : Z) (xs : list Z) (i j k : Z) (steps depth : nat) :
  array_at st base xs ->
  base + Z.of_nat (List.length xs) <= INT_MAX ->
  0 <= i <= j ->
  j <= k <= Z.of_nat (List.length xs) ->
  (Z.to_nat (k - i) < steps)%nat ->
  (0 < depth)%nat ->
  let arr := array_pointer base (Z.of_nat (List.length xs)) in
  exists a b,
    Program88.sum steps depth st (ptr_add arr i) (ptr_add arr j) = Ok a /\
    Program88.sum steps depth st (ptr_add arr j) (ptr_add arr k) = Ok b /\
    Program88.sum steps depth st (ptr_add arr i) (ptr_add arr k)
    = Ok (int_add a b).
Proof.
  intros Harr Hmax Hij Hjk Hs Hd arr. subst arr.
  exists (sum_between xs i j), (sum_between xs j k).
  rewrite !sum_spec by (try assumption; lia).
  split; [reflexivity|]. split; [reflexivity|].
  f_equal. apply sum_between_splits; lia.
Qed.

Lemma sum_of_adjacent_ranges_witness :
  exists a b,
    Program88.sum 4 1 [2; 4; 6]
      (ptr_add (array_pointer 0 3) 0) (ptr_add (array_pointer 0 3) 1) = Ok a /\
    Program88.sum 4 1 [2; 4; 6]
      (ptr_add (array_pointer 0 3) 1) (ptr_add (array_pointer 0 3) 3) = Ok b /\
    Program88.sum 4 1 [2; 4; 6]
      (ptr_add (array_pointer 0 3) 0) (ptr_add (array_pointer 0 3) 3)
    = Ok (int_add a b).
Proof.
  apply (sum_of_adjacent_ranges [2; 4; 6] 0 [2; 4; 6] 0 1 3 4 1).
  - split; [lia|]. intros i Hi. reflexivity.
  - rewrite INT_MAX_value. cbn. lia.
  - lia.
  - cbn. lia.
  - cbn. lia.
  - lia.
Defined.

Lemma sum_recursive_needs_records st base xs (depth : nat) :
  array_at st base xs ->
  base + Z.of_nat (List.length xs) <= INT_MAX ->
  forall k : nat,
    (k <= List.length xs)%nat -> (depth <= k)%nat ->
    Program63.sum_recursive depth st
      (array_pointer base (Z.of_nat (List.length xs))) (Z.of_nat k)
    = Err StackOverflow.
Proof.
  intros Harr Hmax. pose proof Harr as [Hb _].
  induction depth as [|d IH]; intros k Hk Hd; [reflexivity|].
  cbn [Program63.sum_recursive].
  destruct k as [|k]; [lia|].
  destruct (Z.leb_spec (Z.of_nat (S k)) 0); [lia|].
  assert (int_sub (Z.of_nat (S k)) 1 = Z.of_nat k) as ->.
  { rewrite int_sub_small; unfold in_int_range; rewrite ?INT_MIN_value; lia. }
  rewrite load_array by (auto; lia).
  rewrite IH by lia. reflexivity.
Qed.

(** X15.  [sum_recursive(arr, n)] at the edges: a count of zero or less
    gives 0 without touching the array; a count within the array takes
    exactly [n + 1] activation records, a smaller stack overflowing; a
    count beyond the array is [OutOfBounds] at the first read,
    [arr[n - 1]]. *)
Theorem sum_recursive_at_the_edges
  (st : store) (base : Z) (xs : list Z) (n : Z) (depth : nat) :
  array_at st base xs ->
  base + Z.of_nat (List.length xs) <= INT_MAX ->
  n <= INT_MAX ->
  (0 < depth)%nat ->
  let arr := array_pointer base (Z.of_nat (List.length xs)) in
  (n <= 0 -> Program63.sum_recursive depth st arr n = Ok 0) /\
  (0 <= n <= Z.of_nat (List.length xs) ->
   Program63.sum_recursive depth st arr n
   = if n <? Z.of_nat depth
     then Ok (sum_left_to_right xs n)
     else Err StackOverflow) /\
  (Z.of_nat (List.length xs) < n ->
   Program63.sum_recursive depth st arr n = Err OutOfBounds).
Proof.
  intros Harr Hmax Hn Hd arr. subst arr. pose proof Harr as [Hb _].
  split; [|split].
  - intros Hle. destruct depth as [|d]; [lia|]. cbn [Program63.sum_recursive].
    destruct (Z.leb_spec n 0); [reflexivity | lia].
  - intros Hin. rewrite <- (Z2Nat.id n) at 1 by lia.
    destruct (Z.ltb_spec n (Z.of_nat depth)).
    + rewrite (sum_recursive_spec st base xs (Z.to_nat n)) by (auto; lia).
      rewrite Z2Nat.id by lia. reflexivity.
    + apply sum_recursive_needs_records; try assumption; lia.
  - intros Hbeyond. destruct depth as [|d]; [lia|]. cbn [Program63.sum_recursive].
    destruct (Z.leb_spec n 0); [lia|].
    rewrite int_sub_small
      by (unfold in_int_range; rewrite INT_MIN_value; rewrite INT_MAX_value in *; lia).
    rewrite load_outside
      by (apply ptr_add_beyond_outside; rewrite ?INT_MAX_value in *; lia).
    reflexivity.
Qed.

Lemma sum_recursive_at_the_edges_witness :
  let arr := array_pointer 0 (Z.of_nat (List.length [1; 2; 3; 4])) in
  (4 <= 0 -> Program63.sum_recursive 3 [1; 2; 3; 4] arr 4 = Ok 0) /\
  (0 <= 4 <= Z.of_nat (List.length [1; 2; 3; 4]) ->
   Program63.sum_recursive 3 [1; 2; 3; 4] arr 4
   = if 4 <? Z.of_nat 3
     then Ok (sum_left_to_right [1; 2; 3; 4] 4)
     else Err StackOverflow) /\
  (Z.of_nat (List.length [1; 2; 3; 4]) < 4 ->
   Program63.sum_recursive 3 [1; 2; 3; 4] arr 4 = Err OutOfBounds).
Proof.
  apply (sum_recursive_at_the_edges [1; 2; 3; 4] 0 [1; 2; 3; 4] 4 3).
  - split; [lia|]. intros i Hi. reflexivity.
  - rewrite INT_MAX_value. cbn. lia.
  - rewrite INT_MAX_value. lia.
  - lia.
Defined.

Lemma sum_loop_beyond st base xs j :
  array_at st base xs ->
  base + j <= INT_MAX ->
  Z.of_nat (List.length xs) < j ->
  forall (r i : nat) total steps,
    (i + r = List.length xs)%nat -> (r < steps)%nat ->
    Program88.sum_loop steps st
      (cell_pointer base (Z.of_nat (List.length xs)) (Z.of_nat i))
      (cell_pointer base (Z.of_nat (List.length xs)) j) total
    = Err OutOfBounds.
Proof.
  intros Harr Hmax Hj. pose proof Harr as [Hb _].
  induction r as [|r IH]; intros i total steps Hir Hs;
    (destruct steps as [|k]; [lia|]); cbn [Program88.sum_loop];
    unfold ptr_lt, same_region; cbn [cell_pointer p_index p_base p_count];
    rewrite !Z.eqb_refl; cbn [andb];
    (destruct (Z.ltb_spec (base + Z.of_nat i) (base + j)); [|lia]).
  - rewrite load_outside; [reflexivity|].
    unfold outside. cbn [cell_pointer p_index p_base p_count]. lia.
  - fold (cell_pointer base (Z.of_nat (List.length xs)) (Z.of_nat i)).
    fold (cell_pointer base (Z.of_nat (List.length xs)) j).
    rewrite load_cell_pointer by (auto; lia).
    rewrite ptr_add_cell by (unfold in_int_range; rewrite INT_MIN_value; lia).
    replace (Z.of_nat i + 1) with (Z.of_nat (S i)) by lia.
    apply IH; lia.
Qed.

(** X16.  [sum(arr + i, arr + j)] outside the intended use: when [end] is
    not after [start] the loop body never runs and the result is 0; when
    [end] lies beyond one past the end of the array the walk reads
    [arr[length]] and is [OutOfBounds]. *)
Theorem sum_outside_the_array
  (st : store) (base : Z) (xs : list Z) (i j : Z) (steps depth : nat) :
  array_at st base xs ->
  0 <= i -> 0 <= j ->
  base + i <= INT_MAX -> base + j <= INT_MAX ->
  (0 < depth)%nat ->
  let arr := array_pointer base (Z.of_nat (List.length xs)) in
  (j <= i -> (0 < steps)%nat ->
   Program88.sum steps depth st (ptr_add arr i) (ptr_add arr j) = Ok 0) /\
  (i <= Z.of_nat (List.length xs) < j ->
   (List.length xs - Z.to_nat i < steps)%nat ->
   Program88.sum steps depth st (ptr_add arr i) (ptr_add arr j)
   = Err OutOfBounds).
Proof.
  intros Harr Hi Hj Hmaxi Hmaxj Hd arr. subst arr. pose proof Harr as [Hb _].
  destruct depth as [|d]; [lia|]. unfold Program88.sum.
  rewrite !ptr_add_array by (unfold in_int_range; rewrite INT_MIN_value; lia).
  split.
  - intros Hji Hs. destruct steps as [|k]; [lia|]. cbn [Program88.sum_loop].
    unfold ptr_lt, same_region. cbn [cell_pointer p_index p_base p_count].
    rewrite !Z.eqb_refl. cbn [andb].
    destruct (Z.ltb_spec (base + i) (base + j)); [lia | reflexivity].
  - intros Hij Hs. rewrite <- (Z2Nat.id i) at 1 by lia.
    apply (sum_loop_beyond st base xs j Harr Hmaxj ltac:(lia)
             (List.length xs - Z.to_nat i)%nat); lia.
Qed.

Lemma sum_outside_the_array_witness :
  let arr := array_pointer 0 (Z.of_nat (List.length [2; 4; 6])) in
  (5 <= 1 -> (0 < 4)%nat ->
   Program88.sum 4 1 [2; 4; 6] (ptr_add arr 1) (ptr_add arr 5) = Ok 0) /\
  (1 <= Z.of_nat (List.length [2; 4; 6]) < 5 ->
   (List.length [2; 4; 6] - Z.to_nat 1 < 4)%nat ->
   Program88.sum 4 1 [2; 4; 6] (ptr_add arr 1) (ptr_add arr 5)
   = Err OutOfBounds).
Proof.
  apply (sum_outside_the_array [2; 4; 6] 0 [2; 4; 6] 1 5 4 1).
  - split; [lia|]. intros i Hi. reflexivity.
  - lia.
  - lia.
  - rewrite INT_MAX_value. lia.
  - rewrite INT_MAX_value. lia.
  - lia.
Defined.

Lemma quot_10_smaller n k :
  Z.abs n < 10 ^ Z.of_nat (S k) -> Z.abs (Z.quot n 10) < 10 ^ Z.of_nat k.
Proof.
  intros H. rewrite Nat2Z.inj_succ, Z.pow_succ_r in H by lia.
  rewrite <- Z.quot_abs by lia.
  apply Z.quot_lt_upper_bound; lia.
Qed.

Lemma reverse_number_loop_returns (k : nat) :
  forall n reversed steps,
    in_int_range n -> Z.abs n < 10 ^ Z.of_nat k -> (k < steps)%nat ->
    exists v, Program67.reverse_number_loop steps n reversed = Ok v.
Proof.
  induction k as [|k IH]; intros n reversed steps Hn Hk Hs;
    (destruct steps as [|s]; [lia|]); cbn [Program67.reverse_number_loop].
  - change (10 ^ Z.of_nat 0) with 1 in Hk. assert (n = 0) as -> by lia.
    eexists. reflexivity.
  - destruct (Z.eqb_spec n 0) as [->|Hnz]; cbn [negb]; [eexists; reflexivity|].
    unfold int_mod, int_div. change (10 =? 0) with false. cbv iota.
    assert (in_int_range (Z.quot n 10)) as Hq.
    { apply quot_in_range; [assumption | lia | intros [_ H]; lia]. }
    rewrite (wrap_small (Z.quot n 10)) by assumption.
    apply IH; [assumption | apply quot_10_smaller; assumption | lia].
Qed.

(** X17.  [reverse_number] returns for every 32-bit argument, negative
    ones and overflowing reversals included, within 11 evaluations of
    the loop condition: a 32-bit number has at most 10 digits. *)
Theorem reverse_number_returns_within_11_steps (n : Z) (steps depth : nat) :
  in_int_range n ->
  (10 < steps)%nat ->
  (0 < depth)%nat ->
  exists v, Program67.reverse_number steps depth n = Ok v.
Proof.
  intros Hn Hs Hd. destruct depth as [|d]; [lia|]. unfold Program67.reverse_number.
  apply (reverse_number_loop_returns 10); [assumption | | lia].
  unfold in_int_range in Hn. rewrite INT_MIN_value, INT_MAX_value in Hn.
  change (10 ^ Z.of_nat 10) with 10000000000. lia.
Qed.

Lemma reverse_number_returns_within_11_steps_witness :
  exists v, Program67.reverse_number 11 1 (-2147483648) = Ok v.
Proof.
  apply (reverse_number_returns_within_11_steps (-2147483648) 11 1).
  - unfold in_int_range. rewrite INT_MIN_value, INT_MAX_value. lia.
  - lia.
  - lia.
Defined.

Lemma reverse_number_loop_negated (steps : nat) :
  forall n reversed,
    in_int_range n -> n <> INT_MIN ->
    Program67.reverse_number_loop steps (- n) (int_neg reversed)
    = negated (Program67.reverse_number_loop steps n reversed).
Proof.
  induction steps as [|k IH]; intros n reversed Hn Hmin; [reflexivity|].
  cbn [Program67.reverse_number_loop].
  destruct (Z.eqb_spec n 0) as [->|Hnz]; [reflexivity|].
  destruct (Z.eqb_spec (- n) 0) as [|_]; [lia|]. cbn [negb].
  unfold int_mod, int_div. change (10 =? 0) with false. cbv iota.
  rewrite Z.rem_opp_l, Z.quot_opp_l by lia.
  assert (in_int_range (Z.quot n 10)) as Hq.
  { apply quot_in_range; [assumption | lia | intros [_ H]; lia]. }
  pose proof (quot_abs_le n 10 ltac:(lia)) as Habs.
  pose proof (Z.rem_bound_abs n 10 ltac:(lia)) as Hr.
  unfold in_int_range in *. rewrite INT_MIN_value, INT_MAX_value in *.
  rewrite (wrap_small (Z.quot n 10))
    by (unfold in_int_range; rewrite INT_MIN_value, INT_MAX_value; lia).
  rewrite (wrap_small (- Z.quot n 10))
    by (unfold in_int_range; rewrite INT_MIN_value, INT_MAX_value; lia).
  rewrite (wrap_small (Z.rem n 10))
    by (unfold in_int_range; rewrite INT_MIN_value, INT_MAX_value; lia).
  rewrite (wrap_small (- Z.rem n 10))
    by (unfold in_int_range; rewrite INT_MIN_value, INT_MAX_value; lia).
  rewrite <- IH by (rewrite ?INT_MIN_value, ?INT_MAX_value; lia).
  f_equal. unfold int_add, int_mul, int_neg.
  rewrite wrap_mul_l, !wrap_add_l, wrap_opp. f_equal. lia.
Qed.

(** X18.  [reverse_number] is odd: the remainder taking the sign of the
    dividend, [reverse_number(-n)] is the 32-bit negation of
    [reverse_number(n)] for every 32-bit [n] but [INT_MIN], which has no
    negation. *)
Theorem reverse_number_of_a_negation (n : Z) (steps depth : nat) :
  in_int_range n ->
  n <> INT_MIN ->
  Program67.reverse_number steps depth (- n)
  = negated (Program67.reverse_number steps depth n).
Proof.
  intros Hn Hmin. destruct depth as [|d]; [reflexivity|].
  unfold Program67.reverse_number.
  change 0 with (int_neg 0) at 1.
  apply reverse_number_loop_negated; assumption.
Qed.

Lemma reverse_number_of_a_negation_witness :
  Program67.reverse_number 4 1 (- 123)
  = negated (Program67.reverse_number 4 1 123).
Proof.
  apply (reverse_number_of_a_negation 123 4 1).
  - unfold in_int_range. rewrite INT_MIN_value, INT_MAX_value. lia.
  - rewrite INT_MIN_value. lia.
Defined.

Lemma of_decimal_digits_rev ds : of_decimal_digits ds = of_digits_lsb (rev ds).
Proof.
  unfold of_decimal_digits, of_digits_lsb. symmetry. apply fold_left_rev_right.
Qed.

Lemma of_digits_lsb_decimal_digits (fuel : nat) :
  forall n, 0 <= n <= Z.of_nat fuel ->
  of_digits_lsb (decimal_digits fuel n) = n.
Proof.
  induction fuel as [|f IH]; intros n Hn; cbn [decimal_digits].
  - cbn. lia.
  - destruct (Z.leb_spec n 0); [cbn; lia|].
    cbn [of_digits_lsb fold_right]. fold (of_digits_lsb (decimal_digits f (n / 10))).
    assert (0 <= n / 10 < n) as Hdiv
      by (split; [apply Z.div_pos; lia | apply Z.div_lt; lia]).
    rewrite IH by lia.
    pose proof (Z.div_mod n 10 ltac:(lia)). lia.
Qed.

Lemma of_digits_lsb_positive es :
  es <> [] ->
  (forall d, In d es -> 0 <= d <= 9) ->
  last es 1 <> 0 ->
  0 < of_digits_lsb es.
Proof.
  induction es as [|e es IH]; intros Hne Hds Hlast; [contradiction|].
  pose proof (Hds e (or_introl eq_refl)) as He.
  cbn [of_digits_lsb fold_right]. fold (of_digits_lsb es).
  destruct es as [|x l].
  - cbn in *. lia.
  - assert (0 < of_digits_lsb (x :: l)) as Hpos.
    { apply IH; [discriminate | | exact Hlast].
      intros d Hd. apply Hds. right. exact Hd. }
    lia.
Qed.

Lemma decimal_digits_of_digits_lsb es :
  (forall d, In d es -> 0 <= d <= 9) ->
  last es 1 <> 0 ->
  forall fuel, of_digits_lsb es <= Z.of_nat fuel ->
  decimal_digits fuel (of_digits_lsb es) = es.
Proof.
  induction es as [|e es IH]; intros Hds Hlast fuel Hfuel.
  - destruct fuel; reflexivity.
  - pose proof (Hds e (or_introl eq_refl)) as He.
    pose proof (of_digits_lsb_positive (e :: es) ltac:(discriminate) Hds Hlast) as Hpos.
    assert (forall d, In d es -> 0 <= d <= 9) as Hds'
      by (intros d Hd; apply Hds; right; exact Hd).
    assert (last es 1 <> 0) as Hlast'
      by (destruct es; [cbn; lia | exact Hlast]).
    assert (0 <= of_digits_lsb es) as Hnn.
    { destruct es as [|x l]; [cbn; lia|].
      pose proof (of_digits_lsb_positive (x :: l) ltac:(discriminate) Hds' Hlast').
      lia. }
    cbn [of_digits_lsb fold_right] in *. fold (of_digits_lsb es) in *.
    destruct fuel as [|f]; [lia|]. cbn [decimal_digits].
    destruct (Z.leb_spec (10 * of_digits_lsb es + e) 0); [lia|].
    replace (10 * of_digits_lsb es + e) with (e + of_digits_lsb es * 10) by lia.
    rewrite Z_mod_plus_full, Z_div_plus_full by lia.
    rewrite Z.mod_small, Z.div_small by lia.
    cbn [Z.add]. rewrite IH by (auto; lia). reflexivity.
Qed.

Lemma decimal_digits_length_bound (k : nat) :
  forall fuel n, n < 10 ^ Z.of_nat k ->
  (List.length (decimal_digits fuel n) <= k)%nat.
Proof.
  induction k as [|k IH]; intros fuel n Hn;
    (destruct fuel as [|f]; [cbn; lia|]); cbn [decimal_digits].
  - change (10 ^ Z.of_nat 0) with 1 in Hn.
    destruct (Z.leb_spec n 0); [cbn; lia | lia].
  - destruct (Z.leb_spec n 0); [cbn; lia|]. cbn [List.length].
    rewrite Nat2Z.inj_succ, Z.pow_succ_r in Hn by lia.
    specialize (IH f (n / 10) ltac:(apply Z.div_lt_upper_bound; lia)). lia.
Qed.

Lemma decimal_reversal_nonneg n : 0 <= decimal_reversal n.
Proof.
  unfold decimal_reversal, of_decimal_digits.
  apply (append_digits_ge (decimal_digits (Z.to_nat n) n) 0); [|lia].
  apply decimal_digits_range.
Qed.

Lemma reverse_number_spec n steps depth :
  0 <= n <= INT_MAX ->
  decimal_reversal n <= INT_MAX ->
  (10 < steps)%nat ->
  (0 < depth)%nat ->
  Program67.reverse_number steps depth n = Ok (decimal_reversal n).
Proof.
  intros Hn Hfit Hs Hd. destruct depth as [|d]; [lia|].
  unfold Program67.reverse_number, decimal_reversal, of_decimal_digits in *.
  apply (reverse_number_loop_spec (Z.to_nat n)); try lia; try assumption.
  pose proof (decimal_digits_length_bound 10 (Z.to_nat n) n) as Hlen.
  change (10 ^ Z.of_nat 10) with 10000000000 in Hlen.
  rewrite INT_MAX_value in Hn. specialize (Hlen ltac:(lia)). lia.
Qed.

Lemma decimal_reversal_twice n :
  0 < n -> n mod 10 <> 0 -> decimal_reversal (decimal_reversal n) = n.
Proof.
  intros Hn Hlow.
  pose proof (decimal_reversal_nonneg n) as Hnn.
  unfold decimal_reversal in *.
  set (ds := decimal_digits (Z.to_nat n) n) in *.
  assert (forall d, In d (rev ds) -> 0 <= d <= 9) as Hds.
  { intros d Hd. apply in_rev in Hd.
    apply (decimal_digits_range (Z.to_nat n) n d Hd). }
  assert (last (rev ds) 1 <> 0) as Hlast.
  { subst ds. destruct (Z.to_nat n) as [|f] eqn:Hf; [lia|].
    cbn [decimal_digits]. destruct (Z.leb_spec n 0); [lia|].
    cbn [rev]. rewrite last_last. exact Hlow. }
  rewrite (of_decimal_digits_rev ds) in *.
  rewrite decimal_digits_of_digits_lsb by (auto; lia).
  rewrite of_decimal_digits_rev, rev_involutive.
  subst ds. apply of_digits_lsb_decimal_digits. lia.
Qed.

(** X19.  Reversing twice gives the number back: for a positive [n] that
    does not end in 0 and whose reversal is a 32-bit value,
    [reverse_number(reverse_number(n))] is [n]. *)
Theorem reverse_number_twice (n : Z) (steps depth : nat) :
  0 < n <= INT_MAX ->
  n mod 10 <> 0 ->
  decimal_reversal n <= INT_MAX ->
  (10 < steps)%nat ->
  (0 < depth)%nat ->
  exists m,
    Program67.reverse_number steps depth n = Ok m /\
    Program67.reverse_number steps depth m = Ok n.
Proof.
  intros Hn Hlow Hfit Hs Hd. exists (decimal_reversal n).
  pose proof (decimal_reversal_nonneg n) as Hnn.
  pose proof (decimal_reversal_twice n ltac:(lia) Hlow) as Htwice.
  split.
  - apply reverse_number_spec; try assumption; lia.
  - rewrite reverse_number_spec by (try assumption; lia).
    rewrite Htwice. reflexivity.
Qed.

Lemma reverse_number_twice_witness :
  exists m,
    Program67.reverse_number 11 1 123 = Ok m /\
    Program67.reverse_number 11 1 m = Ok 123.
Proof.
  apply (reverse_number_twice 123 11 1).
  - rewrite INT_MAX_value. lia.
  - vm_compute. discriminate.
  - rewrite INT_MAX_value. vm_compute. discriminate.
  - lia.
  - lia.
Defined.

Lemma is_prime_loop_reaches_divisor n d :
  in_int_range n -> 1 < d < n -> Z.divide d n ->
  forall (r : nat) i steps,
    2 <= i <= d -> i + Z.of_nat r = d -> (r < steps)%nat ->
    Program68.is_prime_loop steps n i = Ok 0.
Proof.
  intros Hn Hd Hdiv. induction r as [|r IH]; intros i steps Hi Hr Hs;
    (destruct steps as [|k]; [lia|]); cbn [Program68.is_prime_loop];
    (destruct (Z.ltb_spec i n); [|lia]);
    (assert (in_int_range i) as Hir
      by (unfold in_int_range in *; rewrite INT_MIN_value, INT_MAX_value in *; lia));
    rewrite int_mod_exact by (auto; lia).
  - assert (i = d) as -> by lia.
    assert (Z.rem n d = 0) as -> by (apply Z.rem_divide; [lia | exact Hdiv]).
    reflexivity.
  - destruct (Z.rem n i =? 0); [reflexivity|].
    assert (int_add i 1 = i + 1) as ->.
    { apply int_add_small. unfold in_int_range in *.
      rewrite INT_MIN_value, INT_MAX_value in *. lia. }
    apply IH; lia.
Qed.

(** X20.  [is_prime] stops at the first divisor it meets: for a number
    with a divisor [d] strictly between 1 and itself it returns 0 within
    [d - 1] evaluations of the loop condition, a single one for every
    even number above 2. *)
Theorem is_prime_stops_at_a_divisor (n d : Z) (steps depth : nat) :
  in_int_range n ->
  1 < d < n ->
  Z.divide d n ->
  d - 1 <= Z.of_nat steps ->
  (0 < depth)%nat ->
  Program68.is_prime steps depth n = Ok 0.
Proof.
  intros Hn Hd Hdiv Hs Hdepth. destruct depth as [|k]; [lia|].
  unfold Program68.is_prime.
  destruct (Z.leb_spec n 1); [reflexivity|].
  apply (is_prime_loop_reaches_divisor n d Hn Hd Hdiv (Z.to_nat (d - 2))); lia.
Qed.

Lemma is_prime_stops_at_a_divisor_witness :
  Program68.is_prime 1 1 2147483646 = Ok 0.
Proof.
  apply (is_prime_stops_at_a_divisor 2147483646 2 1 1).
  - unfold in_int_range. rewrite INT_MIN_value, INT_MAX_value. lia.
  - lia.
  - exists 1073741823. reflexivity.
  - cbn. lia.
  - lia.
Defined.

(* ===================================================================== *)
(** * The error taxonomy on small programs *)
(* ===================================================================== *)

(** One program per error kind of section 7, run through the pipeline
    under a stack of 8 records and a step limit of 8. *)

Example division_by_zero_is_reported :
  execute (mkLimits 8 8) "int main() { return 1 / 0; }"
  = Err (ERuntime DivisionByZero) /\
  execute (mkLimits 8 8) "int main() { return 7 % 0; }"
  = Err (ERuntime DivisionByZero).
Proof. split; vm_compute; reflexivity. Qed.

Example one_past_the_end_is_reported :
  execute (mkLimits 8 8) "int main() { int a[5]; a[0] = 1; return a[5]; }"
  = Err (ERuntime OutOfBounds) /\
  execute (mkLimits 8 8) "int main() { int a[5]; a[5] = 1; return 0; }"
  = Err (ERuntime OutOfBounds).
Proof. split; vm_compute; reflexivity. Qed.

Example pointers_of_two_arrays_do_not_compare :
  execute (mkLimits 8 8)
    "int main() { int a[2]; int b[2]; if (a < b) { return 1; } return 0; }"
  = Err (ERuntime InvalidPointerOp) /\
  execute (mkLimits 8 8) "int main() { int a[2]; int b[2]; return a - b; }"
  = Err (ERuntime InvalidPointerOp).
Proof. split; vm_compute; reflexivity. Qed.

Example missing_returns_are_reported :
  execute (mkLimits 8 8) "int main() { if (0) { return 1; } }"
  = Err (ERuntime NoReturnFromMain) /\
  execute (mkLimits 8 8)
    "int f(int x) { if (x) { return 1; } } int main() { return f(0); }"
  = Err (ERuntime MissingReturnValue) /\
  execute (mkLimits 8 8)
    "int f(int x) { if (x) { return 1; } } int main() { f(0); return 5; }"
  = Ok 5.
Proof. repeat split; vm_compute; reflexivity. Qed.

Example exhausted_bounds_are_reported :
  execute (mkLimits 8 8) "int main() { while (1) { } return 0; }"
  = Err (ERuntime StepLimitExceeded) /\
  execute (mkLimits 8 8)
    "int f(int x) { return f(x); } int main() { return f(0); }"
  = Err (ERuntime StackOverflow).
Proof. split; vm_compute; reflexivity. Qed.

Example malformed_input_is_reported :
  execute (mkLimits 8 8) "int main() { return 1 $ 2; }"
  = Err (ELex (mkLexError "$" (mkPos 1 23))) /\
  execute (mkLimits 8 8) "int main() { return 0; "
  = Err (EParse (mkParseError "}" "" (mkPos 1 24))) /\
  execute (mkLimits 8 8) "int main() { return x; }"
  = Err (ESemantic (mkSemanticError UndeclaredIdentifier (mkPos 1 21))) /\
  execute (mkLimits 8 8)
    "int f(int a) { return a; } int main() { return f(1, 2); }"
  = Err (ESemantic (mkSemanticError ArityMismatch (mkPos 1 48))) /\
  execute (mkLimits 8 8) "int main() { int x; return *x; }"
  = Err (ESemantic (mkSemanticError TypeMismatch (mkPos 1 28))) /\
  execute (mkLimits 8 8) "int main() { int a[0]; return 0; }"
  = Err (ESemantic (mkSemanticError InvalidArraySize (mkPos 1 14))) /\
  execute (mkLimits 8 8) "int main() { int x; x = 1; }"
  = Err (ESemantic (mkSemanticError MissingReturn (mkPos 1 1))).
Proof. repeat split; vm_compute; reflexivity. Qed.

Example pointers_and_arithmetic_at_work :
  execute (mkLimits 8 8)
    "int main() { int a[3]; int *p; p = &a[1]; *p = 7; return a[1] + (p - a); }"
  = Ok 8 /\
  execute (mkLimits 8 8) "int main() { return -7 / 2 * 10 + -7 % 2; }"
  = Ok (-31) /\
  execute (mkLimits 8 8) "int main() { return 2147483647 + 1; }"
  = Ok (-2147483648).
Proof. repeat split; vm_compute; reflexivity. Qed.
